(** * ACBP compiler core: a shallow embedding of [acbp/acbp_tester.py]

    The Python module compiles a JSON model of boolean flags, categories
    and cross-constraints into an enumerated list of valid bit masks, a
    statistical sanity estimate and a batch of Postgres definitions.

    Conventions of the embedding:
    - a JSON object is a record of optional fields; reading an absent key
      with [c["k"]] raises [KeyError], which is [None] in the option monad,
      while [c.get("k", d)] is [default d];
    - Python [int] is [Z]; a [str] is the [string] of the bytes of its
      UTF-8 encoding, which keeps equality and concatenation, while its
      length and its upper case are computed per character; a [dict] whose
      order is observable is an association list in insertion order, one
      whose order is not is a [gmap]; a Python [set] is a [gset];
    - Python [float] is abstracted by the class [FloatOps], instantiated by
      IEEE-754 binary64 ([PrimFloat]) and by exact rationals. *)

From Stdlib Require Import Ascii String ZArith Floats SpecFloat DecimalString QArith Qround.
From stdpp Require Import gmap strings list relations sorting.

Local Open Scope Z_scope.

(** ** Text helpers *)

Definition nl : string := String "010"%char EmptyString.
Definition dq : string := String "034"%char EmptyString.

Definition upper_ascii (c : ascii) : ascii :=
  let n := nat_of_ascii c in
  if ((97 <=? n) && (n <=? 122))%nat then ascii_of_nat (n - 32) else c.

(** [p] is a prefix of [s]. *)
Fixpoint starts_with (p s : string) : bool :=
  match p, s with
  | EmptyString, _ => true
  | String a p', String b s' => Ascii.eqb a b && starts_with p' s'
  | String _ _, EmptyString => false
  end.

(** The characters outside ASCII whose upper case is ASCII text, as
    UTF-8, with that text: U+00DF, U+0131, U+017F and U+FB00 to U+FB06. *)
Definition upper_special : list (string * string) :=
  [(String "195" (String "159" EmptyString), "SS");
   (String "196" (String "177" EmptyString), "I");
   (String "197" (String "191" EmptyString), "S");
   (String "239" (String "172" (String "128" EmptyString)), "FF");
   (String "239" (String "172" (String "129" EmptyString)), "FI");
   (String "239" (String "172" (String "130" EmptyString)), "FL");
   (String "239" (String "172" (String "131" EmptyString)), "FFI");
   (String "239" (String "172" (String "132" EmptyString)), "FFL");
   (String "239" (String "172" (String "133" EmptyString)), "ST");
   (String "239" (String "172" (String "134" EmptyString)), "ST")]%string.

(** [str.upper()], with [skip] bytes of the current character still to
    pass over. An ASCII letter and a character of [upper_special] are
    mapped as Python maps them. Any other character is left as it is: its
    upper case is not ASCII text, and the code only compares the result
    with ASCII tags. *)
Fixpoint upper_from (skip : nat) (s : string) : string :=
  match s with
  | EmptyString => EmptyString
  | String c s' =>
      match skip with
      | S k => upper_from k s'
      | O =>
          match List.find (λ p, starts_with p.1 (String c s')) upper_special with
          | Some (src, up) => up +:+ upper_from (String.length src - 1) s'
          | None => String (upper_ascii c) (upper_from 0 s')
          end
      end
  end.

Definition upper (s : string) : string := upper_from 0 s.

(** [str(n)] and [f"{n}"] for an [int] *)
Definition str_int (n : Z) : string := NilZero.string_of_int (Z.to_int n).

(** [sep.join(parts)] *)
Fixpoint join (sep : string) (parts : list string) : string :=
  match parts with
  | [] => EmptyString
  | [p] => p
  | p :: ps => p +:+ sep +:+ join sep ps
  end.

(** [s.replace("'", "''")] *)
Fixpoint replace_quote (s : string) : string :=
  match s with
  | EmptyString => EmptyString
  | String c s' =>
      if Ascii.eqb c "'"%char then String c (String c (replace_quote s'))
      else String c (replace_quote s')
  end.

Fixpoint spaces (n : nat) : string :=
  match n with
  | O => EmptyString
  | S n' => String " "%char (spaces n')
  end.

(** [len(s)]: the number of characters, that is of the bytes that do not
    continue a UTF-8 sequence. *)
Fixpoint char_length (s : string) : nat :=
  match s with
  | EmptyString => O
  | String c s' =>
      let n := nat_of_ascii c in
      ((if (128 <=? n) && (n <? 192) then 0 else 1) + char_length s')%nat
  end.

(** [f"{s:>24s}"]: right-aligned in a field of the given width, which is
    counted in characters *)
Definition rjust (width : nat) (s : string) : string :=
  spaces (width - char_length s) +:+ s.

(** Digits grouped by three from the right, as [f"{n:,}"] prints them. *)
Fixpoint group3 (fuel : nat) (digits : string) : string :=
  match fuel with
  | O => digits
  | S fuel' =>
      let n := String.length digits in
      if (n <=? 3)%nat then digits
      else group3 fuel' (substring 0 (n - 3) digits) +:+ ","
             +:+ substring (n - 3) 3 digits
  end.

Definition fmt_commas (n : Z) : string :=
  let d := str_int (Z.abs n) in
  (if n <? 0 then "-" else EmptyString) +:+ group3 (String.length d) d.

(** ** The model document *)

(** A [when] entry is a single value or a list of values. *)
Inductive when_spec :=
  | WhenOne (v : string)
  | WhenMany (vs : list string).

(** One constraint object of the [constraints] array. *)
Record constraint := Constraint {
  c_type : option string;
  c_a : option string;
  c_b : option string;
  c_flags : option (list string);
  c_if_flag : option string;
  c_when : option (list (string * when_spec));
  c_condition : option string
}.

Record model := Model {
  m_name : string;
  m_flags : list string;
  m_categories : list (string * list string);
  m_constraints : list constraint;
  m_enumeration_limit_bits : option Z
}.

(** Constructors for the six documented constraint shapes. *)
Definition no_fields (t : string) : constraint :=
  Constraint (Some t) None None None None None None.
Definition IMPLIES (a b : string) : constraint :=
  Constraint (Some "IMPLIES") (Some a) (Some b) None None None None.
Definition EQUIV (a b : string) : constraint :=
  Constraint (Some "EQUIV") (Some a) (Some b) None None None None.
Definition MUTEX (a b : string) : constraint :=
  Constraint (Some "MUTEX") (Some a) (Some b) None None None None.
Definition ONEOF (fs : list string) : constraint :=
  Constraint (Some "ONEOF") None None (Some fs) None None None.
Definition FORBID_WHEN (f : string) (w : list (string * when_spec)) : constraint :=
  Constraint (Some "FORBID_WHEN") None None None (Some f) (Some w) None.
Definition FORBID_IF_SQL (f cond : string) : constraint :=
  Constraint (Some "FORBID_IF_SQL") None None None (Some f) None (Some cond).

(** [c["type"].upper()] *)
Definition type_upper (c : constraint) : option string := upper <$> c_type c.

(** [c.get("type", str()).upper()]: an absent tag reads as the empty string *)
Definition type_upper_get (c : constraint) : string :=
  upper (default EmptyString (c_type c)).

Definition known_types : list string :=
  ["IMPLIES"; "EQUIV"; "MUTEX"; "ONEOF"; "FORBID_WHEN"; "FORBID_IF_SQL"]%string.

(** ** Core helpers *)

(** [{f: i for i, f in enumerate(flags)}]: a later duplicate overwrites. *)
Definition bitpos_map (flags : list string) : gmap string Z :=
  foldl (λ m '(i, f), <[f := i]> m) ∅
        (zip (seqZ 0 (Z.of_nat (length flags))) flags).

(** [(mask >> p) & 1] *)
Definition bit (mask p : Z) : Z := Z.land (Z.shiftr mask p) 1.

(** One iteration of the loop in [ok]: [Some false] is [return False],
    [Some true] falls through to the next constraint, [None] is a
    [KeyError]. The [and] of the IMPLIES test is short-circuit. *)
Definition check_constraint (pos : gmap string Z) (mask : Z) (c : constraint)
    : option bool :=
  t ← type_upper c;
  if String.eqb t "IMPLIES" then
    a ← c_a c; b ← c_b c;
    pa ← pos !! a;
    if bit mask pa =? 1 then
      pb ← pos !! b;
      Some (negb (bit mask pb =? 0))
    else Some true
  else if String.eqb t "EQUIV" then
    a ← c_a c; b ← c_b c;
    pa ← pos !! a; pb ← pos !! b;
    Some (bit mask pa =? bit mask pb)
  else if String.eqb t "MUTEX" then
    a ← c_a c; b ← c_b c;
    pa ← pos !! a; pb ← pos !! b;
    Some (negb (1 <? bit mask pa + bit mask pb))
  else if String.eqb t "ONEOF" then
    fset ← c_flags c;
    bits ← mapM (λ f, bit mask <$> pos !! f) fset;
    Some (foldr Z.add 0 bits =? 1)
  else Some true.

Fixpoint ok (pos : gmap string Z) (cs : list constraint) (mask : Z)
    : option bool :=
  match cs with
  | [] => Some true
  | c :: cs' =>
      r ← check_constraint pos mask c;
      if r : bool then ok pos cs' mask else Some false
  end.

(** [[m for m in ms if p(m)]] with a possibly raising [p] *)
Fixpoint filter_masks (p : Z → option bool) (ms : list Z) : option (list Z) :=
  match ms with
  | [] => Some []
  | m :: ms' =>
      r ← p m;
      rest ← filter_masks p ms';
      Some (if r : bool then m :: rest else rest)
  end.

Definition limit_bits_of (m : model) : Z :=
  default 22 (m_enumeration_limit_bits m).

Definition enumerate_valid_masks (m : model) : option (list Z) :=
  let flags := m_flags m in
  let pos := bitpos_map flags in
  let B := Z.of_nat (length flags) in
  let limit_bits := limit_bits_of m in
  if B >? limit_bits then Some []
  else filter_masks (ok pos (m_constraints m)) (seqZ 0 (Z.shiftl 1 B)).

(** ** SQL builders *)

(** Concatenation of the pieces of an f-string. *)
Definition cat (pieces : list string) : string := foldr String.append EmptyString pieces.

Definition _bit_expr (p : Z) (mask_expr : string) : string :=
  cat ["((("; mask_expr; " >> "; str_int p; ") & 1))"].

(** [sum((1 << pos[f]) for f in fset)] *)
Definition maskbits_of (pos : gmap string Z) (fset : list string) : option Z :=
  ps ← mapM (λ f, pos !! f) fset;
  Some (foldr Z.add 0 (Z.shiftl 1 <$> ps)).

(** The fragment one constraint appends to [preds], if any. *)
Definition bit_pred_of (pos : gmap string Z) (mask_expr : string) (c : constraint)
    : option (list string) :=
  t ← type_upper c;
  if String.eqb t "IMPLIES" then
    a ← c_a c; pa ← pos !! a; b ← c_b c; pb ← pos !! b;
    Some [cat ["("; _bit_expr pa mask_expr; " = 0 OR "; _bit_expr pb mask_expr; " = 1)"]]
  else if String.eqb t "EQUIV" then
    a ← c_a c; pa ← pos !! a; b ← c_b c; pb ← pos !! b;
    Some [cat ["("; _bit_expr pa mask_expr; " = "; _bit_expr pb mask_expr; ")"]]
  else if String.eqb t "MUTEX" then
    a ← c_a c; pa ← pos !! a; b ← c_b c; pb ← pos !! b;
    Some [cat ["("; _bit_expr pa mask_expr; " + "; _bit_expr pb mask_expr; " <= 1)"]]
  else if String.eqb t "ONEOF" then
    fset ← c_flags c;
    maskbits ← maskbits_of pos fset;
    Some [cat ["(acbp_popcount("; mask_expr; " & "; str_int maskbits; ") = 1)"]]
  else Some [].

(** A loop that appends to a list, with a possibly raising body. *)
Fixpoint collect {A B : Type} (f : A → option (list B)) (l : list A) : option (list B) :=
  match l with
  | [] => Some []
  | x :: l' => ys ← f x; rest ← collect f l'; Some (ys ++ rest)
  end.

Definition and_sep : string := cat [" AND"; nl; "    "].

Definition predicate_sql_for_bit_constraints (flags : list string)
    (constraints : list constraint) (mask_expr : string) : option string :=
  let pos := bitpos_map flags in
  preds ← collect (bit_pred_of pos mask_expr) constraints;
  Some (match preds with [] => "TRUE"%string | _ => join and_sep preds end).

Definition _sql_quote (s : string) : string := replace_quote s.

Definition quoted (v : string) : string := cat ["'"; _sql_quote v; "'"].

Definition _eq_or_in (col : string) (spec : when_spec) : string :=
  match spec with
  | WhenMany vs => cat ["("; col; " IN ("; join ", " (quoted <$> vs); "))"]
  | WhenOne v => cat ["("; col; " = '"; _sql_quote v; "')"]
  end.

Definition _fmt_when_for_rule (when : list (string * when_spec)) : string :=
  join ", " ((λ '(k, v),
    match v with
    | WhenMany vs => cat [k; "={"; join "|" vs; "}"]
    | WhenOne x => cat [k; "="; x]
    end) <$> when).

Definition generate_categories_cte (categories : list (string * list string)) : string :=
  match categories with
  | [] => "cats AS (SELECT 1 AS dummy)"%string
  | _ =>
      let parts := imap (λ i '(name, vals),
        cat ["(SELECT unnest(ARRAY["; join ", " (quoted <$> vals); "]) AS "; dq; name; dq;
             ") c"; str_int (Z.of_nat i + 1)]) categories in
      cat ["cats AS ("; nl; "  SELECT * FROM "; join (cat [nl; "  CROSS JOIN "]) parts; nl; ")"]
  end.

Definition union_row (rule ok_sql : string) : string :=
  cat ["SELECT '"; _sql_quote rule; "'::text AS rule, ("; ok_sql; ")::boolean AS ok"].

Definition bit_explain_of (pos : gmap string Z) (c : constraint) : option (list string) :=
  t ← type_upper c;
  if String.eqb t "IMPLIES" then
    a ← c_a c; b ← c_b c; pa ← pos !! a; pb ← pos !! b;
    Some [union_row (cat ["IMPLIES("; a; " -> "; b; ")"])
            (cat ["("; _bit_expr pa "mask"; " = 0 OR "; _bit_expr pb "mask"; " = 1)"])]
  else if String.eqb t "EQUIV" then
    a ← c_a c; b ← c_b c; pa ← pos !! a; pb ← pos !! b;
    Some [union_row (cat ["EQUIV("; a; " <-> "; b; ")"])
            (cat ["("; _bit_expr pa "mask"; " = "; _bit_expr pb "mask"; ")"])]
  else if String.eqb t "MUTEX" then
    a ← c_a c; b ← c_b c; pa ← pos !! a; pb ← pos !! b;
    Some [union_row (cat ["MUTEX("; a; ", "; b; ")"])
            (cat ["("; _bit_expr pa "mask"; " + "; _bit_expr pb "mask"; " <= 1)"])]
  else if String.eqb t "ONEOF" then
    fset ← c_flags c;
    maskbits ← maskbits_of pos fset;
    Some [union_row (cat ["ONEOF("; join ", " fset; ")"])
            (cat ["(acbp_popcount(mask & "; str_int maskbits; ") = 1)"])]
  else Some [].

Definition union_all : string := cat [nl; "UNION ALL"; nl].

Definition bit_explain_unions (flags : list string) (constraints : list constraint)
    : option string :=
  let pos := bitpos_map flags in
  unions ← collect (bit_explain_of pos) constraints;
  Some (join union_all
          (match unions with
           | [] => ["SELECT 'TRUE'::text AS rule, TRUE::boolean AS ok"%string]
           | _ => unions
           end)).

(** The [(ok, union)] pair one category-aware constraint contributes. *)
Definition cat_rule_of (pos : gmap string Z) (mask_expr : string) (c : constraint)
    : option (list (string * string)) :=
  t ← type_upper c;
  if String.eqb t "FORBID_WHEN" then
    flag ← c_if_flag c;
    let when := default [] (c_when c) in
    let conds := (λ '(k, v), _eq_or_in k v) <$> when in
    let when_sql := match conds with [] => "TRUE"%string | _ => join " AND " conds end in
    let rule_txt := cat ["FORBID("; flag; " when "; _fmt_when_for_rule when; ")"] in
    p ← pos !! flag;
    let ok_sql := cat ["NOT ( ("; when_sql; ") AND ("; _bit_expr p mask_expr; " = 1) )"] in
    Some [(ok_sql, union_row rule_txt ok_sql)]
  else if String.eqb t "FORBID_IF_SQL" then
    flag ← c_if_flag c;
    condition ← c_condition c;
    let rule_txt := cat ["FORBID("; flag; " when SQL: "; condition; ")"] in
    p ← pos !! flag;
    let ok_sql := cat ["NOT ( ("; condition; ") AND ("; _bit_expr p mask_expr; " = 1) )"] in
    Some [(ok_sql, union_row rule_txt ok_sql)]
  else Some [].

Definition cat_rule_preds (flags : list string) (categories : list (string * list string))
    (constraints : list constraint) (mask_expr : string)
    : option (list string * list string) :=
  let pos := bitpos_map flags in
  match collect (cat_rule_of pos mask_expr) constraints with
  | Some rows => Some (rows.*1, rows.*2)
  | None => None
  end.

(** ** Emitter *)

Definition emit_postgres_sql (m : model) : option string :=
  let name := m_name m in
  let flags := m_flags m in
  let cats := m_categories m in
  let cons := m_constraints m in
  let B := Z.of_nat (length flags) in
  let pos := bitpos_map flags in
  let max_mask := Z.shiftl 1 B - 1 in
  let has_cats := match cats with [] => false | _ => true end in
  header_lines ← mapM (λ f, p ← pos !! f;
                         Some (cat ["-- "; rjust 24 f; " : bit "; str_int p])) flags;
  let header := cat ["-- ACBP Postgres SQL for model: "; name; nl; "-- Flags:"; nl;
                     join nl header_lines; nl] in
  let helpers := cat [
    nl; "-- === ACBP helpers (idempotent) ==="; nl;
    "CREATE OR REPLACE FUNCTION acbp_popcount(x bigint)"; nl;
    "RETURNS int"; nl;
    "LANGUAGE sql IMMUTABLE STRICT AS $$"; nl;
    "  SELECT length(replace((x)::bit(64)::text, '0',''));"; nl;
    "$$;"; nl] in
  bit_pred_unq ← predicate_sql_for_bit_constraints flags cons "mask";
  '(cat_preds_unq, cat_unions) ← cat_rule_preds flags cats cons "mask";
  let have_cat_rules := match cat_preds_unq with [] => false | _ => true end in
  bit_pred_m ← predicate_sql_for_bit_constraints flags cons "m.mask";
  '(cat_preds_m, _) ← cat_rule_preds flags cats cons "m.mask";
  let full_pred_m :=
    match cat_preds_m with
    | [] => cat ["("; bit_pred_m; ")"]
    | _ => cat ["("; bit_pred_m; ") AND ("; nl; "    "; join and_sep cat_preds_m; nl; "  )"]
    end in
  let cats_cte := generate_categories_cte cats in
  let cats_view := cat [
    nl; "-- === Categories for "; name; " ==="; nl;
    "CREATE OR REPLACE VIEW "; dq; name; "_categories"; dq; " AS"; nl;
    "WITH "; cats_cte; nl;
    "SELECT * FROM cats;"; nl] in
  let decision_space := cat [
    nl; "-- === Decision space for "; name; " (PRUNED by bit + category rules) ==="; nl;
    "CREATE OR REPLACE VIEW "; dq; name; "_decision_space"; dq; " AS"; nl;
    "WITH masks AS ("; nl;
    "  SELECT gs::bigint AS mask FROM generate_series(0, "; str_int max_mask; ") gs"; nl;
    "),"; nl;
    cats_cte; nl;
    "SELECT m.mask"; (if has_cats then ", c.*" else EmptyString); nl;
    "FROM masks m"; nl;
    (if has_cats then "CROSS JOIN cats c" else EmptyString); nl;
    "WHERE"; nl;
    "  "; full_pred_m; nl;
    ";"; nl] in
  let valid_masks_view := cat [
    nl; "-- === Valid masks for "; name; " (derived from PRUNED decision space) ==="; nl;
    "CREATE OR REPLACE VIEW "; dq; name; "_valid_masks"; dq; " AS"; nl;
    "SELECT DISTINCT mask FROM "; dq; name; "_decision_space"; dq; ";"; nl] in
  bitcol_list ← mapM (λ f, p ← pos !! f;
                        Some (cat ["("; _bit_expr p "mask"; ") AS "; dq; f; dq])) flags;
  let bitcols := join (cat [","; nl; "  "]) bitcol_list in
  let explain_view := cat [
    nl; "-- === Bit-explained view for "; name; " ==="; nl;
    "CREATE OR REPLACE VIEW "; dq; name; "_explain"; dq; " AS"; nl;
    "SELECT"; nl;
    "  mask,"; nl;
    "  "; bitcols; nl;
    "FROM "; dq; name; "_valid_masks"; dq; ";"; nl] in
  let validator_fn := cat [
    nl; "-- === Validator (bit-only) for "; name; " ==="; nl;
    "CREATE OR REPLACE FUNCTION "; dq; "acbp_is_valid__"; name; dq; "(mask bigint)"; nl;
    "RETURNS boolean"; nl;
    "LANGUAGE sql IMMUTABLE STRICT AS $$"; nl;
    "  SELECT ("; bit_pred_unq; ");"; nl;
    "$$;"; nl] in
  bit_unions_sql ← bit_explain_unions flags cons;
  let explain_rules_fn := cat [
    nl; "-- === Bit-only explainer for "; name; " ==="; nl;
    "CREATE OR REPLACE FUNCTION "; dq; "acbp_explain_rules__"; name; dq; "(mask bigint)"; nl;
    "RETURNS TABLE(rule text, ok boolean)"; nl;
    "LANGUAGE sql IMMUTABLE STRICT AS $$"; nl;
    bit_unions_sql; nl;
    "$$;"; nl] in
  let cat_keys := cats.*1 in
  let cat_sig := join ", " ((λ k, cat [k; " text"]) <$> cat_keys) in
  let sig_sep := if String.eqb cat_sig EmptyString then EmptyString else ", " in
  let cat_validator :=
    if have_cat_rules then
      let predicate_unq := join " AND " (bit_pred_unq :: cat_preds_unq) in
      cat [
        nl; "-- === Category-aware validator for "; name; " ==="; nl;
        "CREATE OR REPLACE FUNCTION "; dq; "acbp_is_valid__"; name; "_cats"; dq;
        "(mask bigint"; sig_sep; cat_sig; ")"; nl;
        "RETURNS boolean"; nl;
        "LANGUAGE sql IMMUTABLE STRICT AS $$"; nl;
        "  SELECT ("; predicate_unq; ");"; nl;
        "$$;"; nl]
    else EmptyString in
  let cat_explainer :=
    if have_cat_rules then
      let cat_union_sql :=
        match cat_unions with
        | [] => "SELECT 'TRUE'::text, TRUE::boolean"
        | _ => join union_all cat_unions
        end in
      cat [
        nl; "-- === Category-aware explainer for "; name; " ==="; nl;
        "CREATE OR REPLACE FUNCTION "; dq; "acbp_explain__"; name; dq;
        "(mask bigint"; sig_sep; cat_sig; ")"; nl;
        "RETURNS TABLE(rule text, ok boolean)"; nl;
        "LANGUAGE sql IMMUTABLE STRICT AS $$"; nl;
        "WITH bit_rules AS ("; nl;
        bit_unions_sql; nl;
        "), cat_rules AS ("; nl;
        cat_union_sql; nl;
        ")"; nl;
        "SELECT * FROM bit_rules"; nl;
        "UNION ALL"; nl;
        "SELECT * FROM cat_rules;"; nl;
        "$$;"; nl]
    else EmptyString in
  Some (cat [header; helpers; cats_view; decision_space; valid_masks_view;
             explain_view; validator_fn; explain_rules_fn; cat_validator;
             cat_explainer]).

(** ** Equivalence reduction *)

(** [adj[a].add(b); adj[b].add(a)]: either subscript raises [KeyError] on
    a key that is not in [adj]. *)
Definition add_edge (a b : string) (adj : gmap string (gset string))
    : option (gmap string (gset string)) :=
  sa ← adj !! a;
  let adj1 := <[a := {[b]} ∪ sa]> adj in
  sb ← adj1 !! b;
  Some (<[b := {[a]} ∪ sb]> adj1).

(** The first loop of [scc_equivalence], one constraint at a time. *)
Definition scan_constraint
    (st : gmap string (gset string) * gmap string (gset string)) (c : constraint)
    : option (gmap string (gset string) * gmap string (gset string)) :=
  let '(adj, implies) := st in
  t ← type_upper c;
  if String.eqb t "EQUIV" then
    a ← c_a c; b ← c_b c;
    adj' ← add_edge a b adj;
    Some (adj', implies)
  else if String.eqb t "IMPLIES" then
    a ← c_a c; b ← c_b c;
    Some (adj, <[a := {[b]} ∪ default ∅ (implies !! a)]> implies)
  else Some st.

(** A [for] loop threading a state through a possibly raising body. *)
Fixpoint for_each {S A : Type} (body : S → A → option S) (s : S) (l : list A)
    : option S :=
  match l with
  | [] => Some s
  | x :: l' => s' ← body s x; for_each body s' l'
  end.

(** The body of the second loop: link [a] and [b] when each implies the other. *)
Definition link_mutual (implies : gmap string (gset string))
    (adj : gmap string (gset string)) (ab : string * string)
    : option (gmap string (gset string)) :=
  let '(a, b) := ab in
  match implies !! b with
  | Some s => if decide (a ∈ s) then add_edge a b adj else Some adj
  | None => Some adj
  end.

Section Traversal.
(** The order in which Python iterates over a [set] is unspecified: the
    traversal is parametric in it. *)
Variable iter : gset string → list string.

(** [for a, bs in implies.items(): for b in bs: ...] visits these pairs. *)
Definition implies_pairs (implies : gmap string (gset string))
    : list (string * string) :=
  '(a, bs) ← map_to_list implies; (λ b, (a, b)) <$> iter bs.

(** The [while stack:] loop; the head of the list is the top of the
    stack. Every iteration pops, so the loop ends; [fuel] bounds the
    number of iterations and running out of it is [None]. *)
Fixpoint dfs (fuel : nat) (adj : gmap string (gset string))
    (stack : list string) (seen comp : gset string)
    : option (gset string * gset string) :=
  match stack with
  | [] => Some (seen, comp)
  | x :: stack' =>
      match fuel with
      | O => None
      | S fuel' =>
          if decide (x ∈ seen) then dfs fuel' adj stack' seen comp
          else
            let seen' := {[x]} ∪ seen in
            nbrs ← adj !! x;
            let pushed := filter (λ y, y ∉ seen') (iter nbrs) in
            dfs fuel' adj (reverse pushed ++ stack') seen' ({[x]} ∪ comp)
      end
  end.

(** Pops needed at most: one per push, and a node pushes its neighbours
    only the first time it is seen. *)
Definition dfs_fuel (adj : gmap string (gset string)) : nat :=
  S (S (size adj) * S (size adj)).

(** [for f in flags: ...] *)
Fixpoint components (adj : gmap string (gset string)) (fs : list string)
    (seen : gset string) (comps : list (gset string))
    : option (list (gset string)) :=
  match fs with
  | [] => Some comps
  | f :: fs' =>
      if decide (f ∈ seen) then components adj fs' seen comps
      else
        '(seen', comp) ← dfs (dfs_fuel adj) adj [f] seen ∅;
        components adj fs' seen' (comps ++ [comp])
  end.

Definition scc_equivalence (flags : list string) (constraints : list constraint)
    : option (list (gset string)) :=
  let adj0 : gmap string (gset string) := foldl (λ m f, <[f := ∅]> m) ∅ flags in
  '(adj1, implies) ← for_each scan_constraint (adj0, ∅) constraints;
  adj ← for_each (link_mutual implies) adj1 (implies_pairs implies);
  components adj flags ∅ [].

Definition compute_B_eff (flags : list string) (constraints : list constraint)
    : option Z :=
  comps ← scc_equivalence flags constraints;
  Some (Z.of_nat (length comps)).
End Traversal.

(** ** Sanity estimates *)

Definition count_category_leaves (categories : list (string * list string)) : Z :=
  match categories with
  | [] => 1
  | _ => foldl (λ n '(_, vals), n * Z.max 1 (Z.of_nat (length vals))) 1 categories
  end.

(** [d.get(k, dflt)] on a dict kept in insertion order *)
Fixpoint dict_get {V : Type} (d : list (string * V)) (k : string) (dflt : V) : V :=
  match d with
  | [] => dflt
  | (k', v) :: d' => if String.eqb k' k then v else dict_get d' k dflt
  end.

(** [d[k]] *)
Fixpoint dict_lookup {V : Type} (d : list (string * V)) (k : string) : option V :=
  match d with
  | [] => None
  | (k', v) :: d' => if String.eqb k' k then Some v else dict_lookup d' k
  end.

(** [spec if isinstance(spec, list) else [spec]] *)
Definition values_of (spec : when_spec) : list string :=
  match spec with
  | WhenMany vs => vs
  | WhenOne v => [v]
  end.

Definition len {A : Type} (l : list A) : Z := Z.of_nat (length l).

(** The exceptions the estimator can raise, and its error monad. *)
Inductive exn := KeyError | ZeroDivisionError | OverflowError | ValueError.

Inductive result (A : Type) :=
  | Ok (x : A)
  | Raise (e : exn).
Arguments Ok {A} x.
Arguments Raise {A} e.

#[export] Instance result_ret : MRet result := λ A x, Ok x.
#[export] Instance result_bind : MBind result := λ A B f r,
  match r with
  | Ok x => f x
  | Raise e => Raise e
  end.

(** A subscript [d[k]]: an absent key raises [KeyError]. *)
Definition subscript {A : Type} (o : option A) : result A :=
  match o with
  | Some x => Ok x
  | None => Raise KeyError
  end.

(** [[f(x) for x in l]] *)
Fixpoint for_all {A B : Type} (f : A → result B) (l : list A) : result (list B) :=
  match l with
  | [] => Ok []
  | x :: l' => y ← f x; ys ← for_all f l'; Ok (y :: ys)
  end.

(** A loop that appends to a list. *)
Fixpoint gather {A B : Type} (f : A → result (list B)) (l : list A) : result (list B) :=
  match l with
  | [] => Ok []
  | x :: l' => ys ← f x; rest ← gather f l'; Ok (ys ++ rest)
  end.

(** A loop that updates an accumulator. *)
Fixpoint accumulate {S A : Type} (body : S → A → result S) (s : S) (l : list A)
    : result S :=
  match l with
  | [] => Ok s
  | x :: l' => s' ← body s x; accumulate body s' l'
  end.

(** The operations on Python [float] that the estimator uses.
    [float_of_int] raises [OverflowError] on an [int] beyond the range of
    a [float]; [int_truediv] is [a / b] on two [int]s and raises
    [ZeroDivisionError] on a zero divisor, [OverflowError] on a quotient
    out of range; [round_int] is [int(round(x))] and raises [ValueError]
    on a NaN, [OverflowError] on an infinity. *)
Class FloatOps (F : Type) := {
  f_zero : F;
  f_one : F;
  f_hundred : F;
  f_mul : F → F → F;
  f_sub : F → F → F;
  f_ltb : F → F → bool;
  float_of_int : Z → result F;
  int_truediv : Z → Z → result F;
  round_int : F → result Z;
  fmt_fixed : nat → F → string
}.

Record sanity_locals (F : Type) := SanityLocals {
  sl_v : Z;
  sl_n_eff : Z;
  sl_theoretical_max : Z;
  sl_prev : list (string * F);
  sl_forbid_fracs : list F;
  sl_keep_prob : F;
  sl_est_remaining : Z;
  sl_est_pruned : Z;
  sl_prev_line : string;
  sl_fw_count : Z;
  sl_fisql_count : Z;
  sl_pieces : list string;
  sl_pct : F
}.
Arguments SanityLocals {F}.
Arguments sl_v {F}.
Arguments sl_n_eff {F}.
Arguments sl_theoretical_max {F}.
Arguments sl_prev {F}.
Arguments sl_forbid_fracs {F}.
Arguments sl_keep_prob {F}.
Arguments sl_est_remaining {F}.
Arguments sl_est_pruned {F}.
Arguments sl_prev_line {F}.
Arguments sl_fw_count {F}.
Arguments sl_fisql_count {F}.
Arguments sl_pieces {F}.
Arguments sl_pct {F}.

(** The dict [estimate_sanity] returns. *)
Record sanity_report := SanityReport {
  prev_line : string;
  theoretical_max : string;
  est_remaining : string;
  est_pruned : string;
  est_pct : string;
  notes : string
}.

(** The list [notes] once both [if] blocks have run. *)
Definition notes_of (pieces : list string) (fisql_count : Z) : list string :=
  match pieces with
  | [] => []
  | _ => [cat ["Applied FORBID_WHEN estimates: "; join "; " pieces; "."]]
  end
  ++ (if 0 <? fisql_count
      then [cat ["Excluded "; str_int fisql_count; " FORBID_IF_SQL rule(s) from estimate."]]
      else []).

#[export] Instance result_fmap : FMap result := λ A B f r,
  match r with
  | Ok x => Ok (f x)
  | Raise e => Raise e
  end.

Definition is_forbid_when (c : constraint) : bool :=
  String.eqb (type_upper_get c) "FORBID_WHEN".
Definition is_forbid_if_sql (c : constraint) : bool :=
  String.eqb (type_upper_get c) "FORBID_IF_SQL".

Section Estimator.
Context {F : Type} `{FloatOps F}.

(** [min(1.0, x)] and [max(0.0, x)]: Python keeps the first argument
    unless the second compares strictly better. *)
Definition min_one (x : F) : F := if f_ltb x f_one then x else f_one.
Definition max_zero (x : F) : F := if f_ltb f_zero x then x else f_zero.

(** [n * x] for an [int] [n]. *)
Definition int_mul_float (n : Z) (x : F) : result F :=
  y ← float_of_int n; Ok (f_mul y x).

(** [len(values) / denom] for one entry of [when]. *)
Definition when_ratio (cats : list (string * list string))
    (entry : string * when_spec) : result F :=
  let '(col, spec) := entry in
  let values := values_of spec in
  let denom := Z.max 1 (len (dict_get cats col values)) in
  int_truediv (len values) denom.

Definition frac_cats_of (cats : list (string * list string))
    (when : list (string * when_spec)) : result F :=
  accumulate (λ frac entry, q ← when_ratio cats entry; Ok (f_mul frac (min_one q)))
             f_one when.

Definition forbid_frac_of (cats : list (string * list string))
    (prev : list (string * F)) (c : constraint) : result (list F) :=
  if is_forbid_when c then
    flag ← subscript (c_if_flag c);
    let when := default [] (c_when c) in
    frac_cats ← frac_cats_of cats when;
    Ok [f_mul (dict_get prev flag f_zero) frac_cats]
  else Ok [].

Definition prev_of (pos : gmap string Z) (v : Z) (valid_masks : list Z)
    (f : string) : result (string * F) :=
  if 0 <? v then
    p ← subscript (pos !! f);
    x ← int_truediv (foldr Z.add 0 ((λ m, Z.land (Z.shiftr m p) 1) <$> valid_masks)) v;
    Ok (f, x)
  else Ok (f, f_zero).

Definition note_piece (cats : list (string * list string)) (c : constraint)
    : result (list string) :=
  if is_forbid_when c then
    flag ← subscript (c_if_flag c);
    match default [] (c_when c) with
    | [] => Ok []
    | entry :: _ =>
        q ← when_ratio cats entry;
        Ok [cat [flag; "@"; fmt_fixed 2 (f_mul q f_hundred); "%"]]
    end
  else Ok [].

(** [keep_prob] after the loop over [forbid_fracs]. *)
Definition keep_prob_of (forbid_fracs : list F) : F :=
  foldl (λ kp f, f_mul kp (f_sub f_one (max_zero (min_one f)))) f_one forbid_fracs.

(** The body of [estimate_sanity] up to the formatting of its result. *)
Definition estimate_locals (m : model) (valid_masks : list Z)
    : result (sanity_locals F) :=
  let flags := m_flags m in
  let cats := m_categories m in
  let cons := m_constraints m in
  let v := Z.max 0 (len valid_masks) in
  let n_eff := count_category_leaves cats in
  let theoretical_max := v * n_eff in
  let pos := bitpos_map flags in
  prev ← for_all (prev_of pos v valid_masks) flags;
  forbid_fracs ← gather (forbid_frac_of cats prev) cons;
  let keep_prob := keep_prob_of forbid_fracs in
  scaled ← int_mul_float theoretical_max keep_prob;
  est_remaining ← round_int scaled;
  let est_pruned := theoretical_max - est_remaining in
  prev_items ← for_all (λ k, x ← subscript (dict_lookup prev k);
                          Ok (cat [k; "="; fmt_fixed 1 (f_mul x f_hundred); "%"])) flags;
  let prev_line := join ", " prev_items in
  let fw_count := len (List.filter is_forbid_when cons) in
  let fisql_count := len (List.filter is_forbid_if_sql cons) in
  pieces ← (if 0 <? fw_count then gather (note_piece cats) cons else Ok []);
  pct ← (if 0 <? theoretical_max
         then q ← int_truediv est_remaining theoretical_max; Ok (f_mul q f_hundred)
         else Ok f_zero);
  Ok (SanityLocals v n_eff theoretical_max prev forbid_fracs keep_prob
        est_remaining est_pruned prev_line fw_count fisql_count pieces pct).

Definition estimate_sanity (m : model) (valid_masks : list Z) : result sanity_report :=
  l ← estimate_locals m valid_masks;
  Ok (SanityReport (sl_prev_line l)
        (fmt_commas (sl_theoretical_max l))
        (fmt_commas (sl_est_remaining l))
        (fmt_commas (sl_est_pruned l))
        (cat [fmt_fixed 1 (sl_pct l); "%"])
        (join " " (notes_of (sl_pieces l) (sl_fisql_count l)))).
End Estimator.

(** ** Two arithmetics for the estimator *)

(** Nearest integer to [p / q] for [q > 0], ties to the even one: Python's
    [round] on a value known exactly. *)
Definition round_half_even_frac (p q : Z) : Z :=
  let fl := p / q in
  match 2 * (p mod q) ?= q with
  | Lt => fl
  | Gt => fl + 1
  | Eq => if Z.even fl then fl else fl + 1
  end.

Fixpoint zeros (n : nat) : string :=
  match n with
  | O => EmptyString
  | S n' => String "0"%char (zeros n')
  end.

(** [f"{x:.df}"] for [x = ± p / q] with [p >= 0], [q > 0]. *)
Definition fmt_fixed_frac (d : nat) (neg : bool) (p q : Z) : string :=
  let n := round_half_even_frac (p * 10 ^ Z.of_nat d) q in
  let digits := str_int n in
  let padded := zeros (S d - String.length digits) +:+ digits in
  let k := (String.length padded - d)%nat in
  cat [if neg then "-" else EmptyString;
       substring 0 k padded;
       match d with O => EmptyString | _ => "." +:+ substring k d padded end].

Module Binary64.
(** IEEE-754 binary64, the representation of a CPython [float]. *)

(** The float nearest to [mant * 2^e], ties to even; an infinity when
    it is out of range. *)
Definition nearest (mant e : Z) : float :=
  SF2Prim (binary_normalize 53 1024 mant e false).

Definition is_infinite (x : float) : bool :=
  match Prim2SF x with
  | S754_infinity _ => true
  | _ => false
  end.

(** [float(z)] *)
Definition of_int (z : Z) : result float :=
  let x := nearest z 0 in
  if is_infinite x then Raise OverflowError else Ok x.

(** [a / b] on two [int]s, the correctly rounded quotient. Operands
    that are exact as floats are divided as floats. Otherwise the
    quotient is taken with at least 56 significant bits and a sticky bit
    for the remainder, which rounds as the exact value does. *)
Definition truediv (a b : Z) : result float :=
  if b =? 0 then Raise ZeroDivisionError
  else if (Z.abs a <? 2 ^ 53) && (Z.abs b <? 2 ^ 53) then
    Ok (PrimFloat.div (nearest a 0) (nearest b 0))
  else
    let neg := xorb (a <? 0) (b <? 0) in
    let a' := Z.abs a in
    let b' := Z.abs b in
    if a' =? 0 then Ok (if neg then (-0)%float else 0%float)
    else
      let s := Z.max 0 (Z.log2 b' - Z.log2 a' + 56) in
      let num := Z.shiftl a' s in
      let mant := 2 * (num / b') + (if num mod b' =? 0 then 0 else 1) in
      let x := nearest (if neg then - mant else mant) (- s - 1) in
      if is_infinite x then Raise OverflowError else Ok x.

(** [int(round(x))] *)
Definition round (x : float) : result Z :=
  match Prim2SF x with
  | S754_zero _ => Ok 0
  | S754_finite s mant e =>
      let v := if 0 <=? e then Z.pos mant * 2 ^ e
               else round_half_even_frac (Z.pos mant) (2 ^ (- e)) in
      Ok (if s then - v else v)
  | S754_infinity _ => Raise OverflowError
  | S754_nan => Raise ValueError
  end.

Definition fmt (d : nat) (x : float) : string :=
  match Prim2SF x with
  | S754_zero s => fmt_fixed_frac d s 0 1
  | S754_finite s mant e =>
      if 0 <=? e then fmt_fixed_frac d s (Z.pos mant * 2 ^ e) 1
      else fmt_fixed_frac d s (Z.pos mant) (2 ^ (- e))
  | S754_infinity s => if s then "-inf"%string else "inf"%string
  | S754_nan => "nan"%string
  end.

#[global] Instance ops : FloatOps float := {|
  f_zero := 0%float;
  f_one := 1%float;
  f_hundred := 100%float;
  f_mul := PrimFloat.mul;
  f_sub := PrimFloat.sub;
  f_ltb := PrimFloat.ltb;
  float_of_int := of_int;
  int_truediv := truediv;
  round_int := round;
  fmt_fixed := fmt
|}.
End Binary64.

Module Exact.
(** The same operations on exact rationals: the arithmetic the
    estimator's formulas are written in. *)

Definition truediv (a b : Z) : result Q :=
  if b =? 0 then Raise ZeroDivisionError else Ok (inject_Z a / inject_Z b)%Q.

Definition round (x : Q) : result Z :=
  Ok (round_half_even_frac (Qnum x) (Z.pos (Qden x))).

Definition fmt (d : nat) (x : Q) : string :=
  fmt_fixed_frac d (Qnum x <? 0) (Z.abs (Qnum x)) (Z.pos (Qden x)).

#[global] Instance ops : FloatOps Q := {|
  f_zero := 0%Q;
  f_one := 1%Q;
  f_hundred := inject_Z 100;
  f_mul := Qmult;
  f_sub := Qminus;
  f_ltb := λ x y, negb (Qle_bool y x);
  float_of_int := λ z, Ok (inject_Z z);
  int_truediv := truediv;
  round_int := round;
  fmt_fixed := fmt
|}.
End Exact.

(** ** The report of [main] *)

(** [str(l)] for a list of [int]s *)
Definition list_repr (l : list Z) : string :=
  cat ["["; join ", " (str_int <$> l); "]"].

(** What [main] prints about the enumeration when run with [--enumerate]. *)
Definition main_enumeration_lines (m : model) : option (list string) :=
  let B := Z.of_nat (length (m_flags m)) in
  valid ← enumerate_valid_masks m;
  match valid with
  | _ :: _ =>
      Some [cat ["  Valid masks enumerated (bit-only): "; str_int (len valid); " / ";
                 str_int (Z.shiftl 1 B)];
            cat ["  First few: "; list_repr (take 16 valid)]]
  | [] => Some [cat ["  Enumeration skipped (B>"; str_int (limit_bits_of m); ")."]]
  end.

(** The five lines [main] prints first. *)
Definition main_header_lines (iter : gset string → list string) (m : model)
    : option (list string) :=
  let flags := m_flags m in
  let B := Z.of_nat (length flags) in
  B_eff ← compute_B_eff iter flags (m_constraints m);
  let n_eff := count_category_leaves (m_categories m) in
  Some [cat ["Model: "; m_name m];
        cat ["  B (flags):       "; str_int B];
        cat ["  B_eff (reduced): "; str_int B_eff];
        cat ["  n_eff (cats):    "; str_int n_eff];
        cat ["  Complexity:      2^"; str_int B_eff; " * "; str_int n_eff]].

(** ** The specification's reading of a model *)

(** The closed variant of the data model: what a well-formed constraint
    object denotes. *)
Inductive rule :=
  | RImplies (a b : string)
  | REquiv (a b : string)
  | RMutex (a b : string)
  | ROneof (fs : list string)
  | RForbidWhen (f : string) (when : list (string * when_spec))
  | RForbidIfSql (f cond : string).

Definition rule_of (c : constraint) : option rule :=
  t ← type_upper c;
  if String.eqb t "IMPLIES" then a ← c_a c; b ← c_b c; Some (RImplies a b)
  else if String.eqb t "EQUIV" then a ← c_a c; b ← c_b c; Some (REquiv a b)
  else if String.eqb t "MUTEX" then a ← c_a c; b ← c_b c; Some (RMutex a b)
  else if String.eqb t "ONEOF" then fs ← c_flags c; Some (ROneof fs)
  else if String.eqb t "FORBID_WHEN" then
    f ← c_if_flag c; Some (RForbidWhen f (default [] (c_when c)))
  else if String.eqb t "FORBID_IF_SQL" then
    f ← c_if_flag c; cond ← c_condition c; Some (RForbidIfSql f cond)
  else None.

(** The tag of [c] is present and, whatever its case, none of the six. *)
Definition unknown_type (c : constraint) : Prop :=
  ∃ t, c_type c = Some t ∧ upper t ∉ known_types.

(** Bit [pos[f]] of the mask, as a boolean. *)
Definition flag_bit (pos : gmap string Z) (mask : Z) (f : string) : bool :=
  match pos !! f with
  | Some p => Z.testbit mask p
  | None => false
  end.

(** The validity conditions of the specification's table; the two
    category-aware rules do not restrict a mask. *)
Definition rule_holds (pos : gmap string Z) (mask : Z) (r : rule) : Prop :=
  match r with
  | RImplies a b => ¬ (flag_bit pos mask a = true ∧ flag_bit pos mask b = false)
  | REquiv a b => flag_bit pos mask a = flag_bit pos mask b
  | RMutex a b => Z.b2z (flag_bit pos mask a) + Z.b2z (flag_bit pos mask b) ≤ 1
  | ROneof fs => length (List.filter (flag_bit pos mask) fs) = 1%nat
  | RForbidWhen _ _ => True
  | RForbidIfSql _ _ => True
  end.

(** A mask satisfies every bit-only constraint of the list. *)
Definition satisfies_bit_only (pos : gmap string Z) (cs : list constraint) (mask : Z)
    : Prop :=
  ∀ c r, c ∈ cs → rule_of c = Some r → rule_holds pos mask r.

Definition declared (flags : list string) (f : string) : bool :=
  existsb (String.eqb f) flags.

(** The fields the enumerator reads are present and name declared flags. *)
Definition bit_constraint_wf (flags : list string) (c : constraint) : bool :=
  match type_upper c with
  | None => false
  | Some t =>
      if String.eqb t "IMPLIES" || String.eqb t "EQUIV" || String.eqb t "MUTEX" then
        match c_a c, c_b c with
        | Some a, Some b => declared flags a && declared flags b
        | _, _ => false
        end
      else if String.eqb t "ONEOF" then
        match c_flags c with
        | Some fs => forallb (declared flags) fs
        | None => false
        end
      else true
  end.

(** The undirected graph of the equivalence reducer. *)
Definition equiv_edge (cs : list constraint) (x y : string) : Prop :=
  ∃ c, c ∈ cs ∧ type_upper c = Some "EQUIV"%string
       ∧ ((c_a c = Some x ∧ c_b c = Some y) ∨ (c_a c = Some y ∧ c_b c = Some x)).

Definition implies_edge (cs : list constraint) (x y : string) : Prop :=
  ∃ c, c ∈ cs ∧ type_upper c = Some "IMPLIES"%string ∧ c_a c = Some x ∧ c_b c = Some y.

Definition edge (cs : list constraint) (x y : string) : Prop :=
  equiv_edge cs x y ∨ (implies_edge cs x y ∧ implies_edge cs y x).

(** Two flags are in one component when a path of edges joins them. *)
Definition connected (cs : list constraint) : relation string := rtc (edge cs).

(** [y in adj[x]] *)
Definition neighbour (adj : gmap string (gset string)) (x y : string) : Prop :=
  ∃ s, adj !! x = Some s ∧ y ∈ s.

(** The fields the reducer reads are present and name declared flags. *)
Definition reducer_constraint_wf (flags : list string) (c : constraint) : bool :=
  match type_upper c with
  | None => false
  | Some t =>
      if String.eqb t "EQUIV" || String.eqb t "IMPLIES" then
        match c_a c, c_b c with
        | Some a, Some b => declared flags a && declared flags b
        | _, _ => false
        end
      else true
  end.

(** ** What the estimator needs of an arithmetic *)

(** A division raises [ZeroDivisionError] only on a zero divisor, and no
    other operation raises it. *)
Class DivisionLaws (F : Type) `{FloatOps F} := {
  truediv_zero_divisor : ∀ a b, int_truediv a b = Raise ZeroDivisionError → b = 0;
  float_of_int_no_zero_division : ∀ z, float_of_int z ≠ Raise ZeroDivisionError;
  round_int_no_zero_division : ∀ x, round_int x ≠ Raise ZeroDivisionError
}.

(** The facts about 0.0 and 1.0 that the estimate of an empty list of
    masks rests on: quotients of list lengths are defined, a fraction that
    is 0.0 times something leaves the factor 1.0 or 0.0, these two are
    closed under product, and 0 times either rounds to 0. *)
Class EmptyCaseLaws (F : Type) `{FloatOps F} := {
  truediv_small : ∀ a b, 0 ≤ a < 2 ^ 53 → 1 ≤ b < 2 ^ 53 → ∃ q, int_truediv a b = Ok q;
  zero_fraction : ∀ y,
    let k := f_sub f_one (max_zero (min_one (f_mul f_zero y))) in
    k = f_one ∨ k = f_zero;
  mul_one_one : f_mul f_one f_one = f_one;
  mul_one_zero : f_mul f_one f_zero = f_zero;
  mul_zero_one : f_mul f_zero f_one = f_zero;
  mul_zero_zero : f_mul f_zero f_zero = f_zero;
  zero_rows : ∃ z, float_of_int 0 = Ok z
                   ∧ round_int (f_mul z f_one) = Ok 0
                   ∧ round_int (f_mul z f_zero) = Ok 0
}.

(** The computation does not end in a [ZeroDivisionError]. *)
Definition no_zero_division {A : Type} (r : result A) : Prop :=
  r ≠ Raise ZeroDivisionError.

(** Every FORBID_WHEN rule names its flag. *)
Definition forbid_when_wf (c : constraint) : bool :=
  if is_forbid_when c then
    match c_if_flag c with
    | Some _ => true
    | None => false
    end
  else true.

(** The lists whose lengths the estimator divides are shorter than 2^53,
    so that the lengths are exact as floats. *)
Definition sizes_ok (m : model) : bool :=
  forallb (λ kv, len kv.2 <? 2 ^ 53) (m_categories m)
  && forallb (λ c, forallb (λ e, len (values_of e.2) <? 2 ^ 53) (default [] (c_when c)))
       (m_constraints m).

(** The product of the category cardinalities, as the specification
    defines [n_eff]. *)
Definition card_product (categories : list (string * list string)) : Z :=
  foldr (λ '(_, vals) n, len vals * n) 1 categories.

(** The same product with every empty category counted as one value. *)
Definition clamped_card_product (categories : list (string * list string)) : Z :=
  foldr (λ '(_, vals) n, Z.max 1 (len vals) * n) 1 categories.

(** The constraints that are left when the FORBID_IF_SQL rules are removed. *)
Definition without_forbid_if_sql (cs : list constraint) : list constraint :=
  List.filter (λ c, negb (is_forbid_if_sql c)) cs.



(** The numbers of the estimate. *)
Definition estimate_numbers {F : Type} (l : sanity_locals F) : Z * F * Z * Z :=
  (sl_theoretical_max l, sl_keep_prob l, sl_est_remaining l, sl_est_pruned l).


(** ** Invariants of the reducer *)

(** What holds of the stack, [seen] and [comp] at every iteration of the
    search started at [f] with [seen0] already seen. *)
Record search_inv (adj : gmap string (gset string)) (f : string)
    (seen0 : gset string) (stack : list string) (seen comp : gset string)
    : Prop := {
  inv_seen : seen = seen0 ∪ comp;
  inv_comp : ∀ x, x ∈ comp → rtc (neighbour adj) f x;
  inv_stack : ∀ x, x ∈ stack → x ∈ dom adj ∧ rtc (neighbour adj) f x;
  inv_frontier : ∀ x y, x ∈ comp → neighbour adj x y → y ∈ seen ∨ y ∈ stack;
  inv_fresh : comp ## seen0
}.

(** [x] lies in one of the classes. *)
Definition covered (comps : list (gset string)) (x : string) : Prop :=
  ∃ C, C ∈ comps ∧ x ∈ C.

(** Classes at distinct indices share no flag. *)
Definition pairwise_disjoint (comps : list (gset string)) : Prop :=
  ∀ i j C C', comps !! i = Some C → comps !! j = Some C' → i ≠ j → C ## C'.

(** ** Sample models *)

(** One flag that no mask can satisfy, and one flag beyond a limit of 0. *)
Definition none_valid_model : model := Model "m" ["a"] [] [ONEOF []] None.
Definition too_wide_model : model := Model "m" ["a"] [] [] (Some 0).

Definition mutex_model : model := Model "m" ["a"; "b"] [] [MUTEX "a" "b"] None.

Definition empty_category_model : model := Model "m" ["a"] [("site", [])] [] None.

Definition seven_values : list string := ["a"; "b"; "c"; "d"; "e"; "f"; "g"].

(** One flag and nineteen categories of seven values each. *)
Definition wide_model : model :=
  Model "wide" ["f"] ((λ i, ("c" +:+ str_int i, seven_values)) <$> seqZ 1 19) [] None.

Definition clinic_model : model :=
  Model "clinic" ["booked"; "icu"]
    [("site", ["Main"; "Annex"]); ("ward", ["ICU"; "General"; "ER"])]
    [IMPLIES "icu" "booked";
     FORBID_WHEN "icu" [("ward", WhenMany ["General"; "ER"])];
     FORBID_IF_SQL "booked" "site = 'Closed'"]
    None.

Definition unknown_model : model := Model "m" ["a"] [] [no_fields "FOO"] None.

(** ** Further source functions *)

(** [pack_mask] of [make_data.py]: bit [i] is set when [bits.get(f, 0)] is
    truthy for the flag [f] at index [i]. *)
Definition pack_mask (bits : gmap string Z) (flags : list string) : Z :=
  foldl (λ m '(i, f), if default 0 (bits !! f) =? 0 then m else Z.lor m (Z.shiftl 1 i))
        0 (zip (seqZ 0 (Z.of_nat (length flags))) flags).

(** Deletion of every comma, as [main] applies it with [str.replace] to a
    formatted count. *)
Fixpoint remove_commas (s : string) : string :=
  match s with
  | EmptyString => EmptyString
  | String c s' =>
      if Ascii.eqb c ","%char then remove_commas s' else String c (remove_commas s')
  end.

(** ** Reading a SQL string literal *)

(** The body of a standard SQL string literal after its opening quote: a
    doubled quote stands for one quote, a single one closes the literal.
    The result is the text denoted and the input that follows. *)
Fixpoint scan_literal_body (s : string) : option (string * string) :=
  match s with
  | EmptyString => None
  | String c r =>
      if Ascii.eqb c "'"%char then
        match r with
        | String c' r' =>
            if Ascii.eqb c' "'"%char then
              '(body, rest) ← scan_literal_body r'; Some (String c body, rest)
            else Some (EmptyString, r)
        | EmptyString => Some (EmptyString, EmptyString)
        end
      else '(body, rest) ← scan_literal_body r; Some (String c body, rest)
  end.

Definition scan_literal (s : string) : option (string * string) :=
  match s with
  | String c r => if Ascii.eqb c "'"%char then scan_literal_body r else None
  | EmptyString => None
  end.

(** The next character, if any, is not a quote. *)
Definition no_leading_quote (s : string) : Prop :=
  match s with
  | String c _ => c ≠ "'"%char
  | EmptyString => True
  end.

(** The tag is present and is none of the four bit-only types: the
    enumerator passes over the constraint. *)
Definition not_bit_only (c : constraint) : bool :=
  match type_upper c with
  | Some t =>
      negb (String.eqb t "IMPLIES" || String.eqb t "EQUIV"
            || String.eqb t "MUTEX" || String.eqb t "ONEOF")
  | None => false
  end.

(** The model with another list of constraints. *)
Definition with_constraints (m : model) (cs : list constraint) : model :=
  Model (m_name m) (m_flags m) (m_categories m) cs (m_enumeration_limit_bits m).

(** The number of bits set among the [n] lowest bits, which is what the
    emitted helper [acbp_popcount] counts on a mask below [2^n]. *)
Fixpoint popcount_below (n : nat) (x : Z) : Z :=
  match n with
  | O => 0
  | S k => popcount_below k x + Z.b2z (Z.testbit x (Z.of_nat k))
  end.

(** All the lists of [n] booleans: the assignments of a bit to each of
    [n] classes. *)
Fixpoint bool_lists (n : nat) : list (list bool) :=
  match n with
  | O => [[]]
  | S k => (cons true <$> bool_lists k) ++ (cons false <$> bool_lists k)
  end.

(** The fields [cat_rule_preds] reads are present and the flag is declared. *)
Definition cat_constraint_wf (flags : list string) (c : constraint) : bool :=
  match type_upper c with
  | None => false
  | Some t =>
      if String.eqb t "FORBID_WHEN" then
        match c_if_flag c with
        | Some f => declared flags f
        | None => false
        end
      else if String.eqb t "FORBID_IF_SQL" then
        match c_if_flag c, c_condition c with
        | Some f, Some _ => declared flags f
        | _, _ => false
        end
      else true
  end.

(** What the emitter needs of a constraint. *)
Definition emit_constraint_wf (flags : list string) (c : constraint) : bool :=
  bit_constraint_wf flags c && cat_constraint_wf flags c.

(** No character of the string is a comma. *)
Fixpoint comma_free (s : string) : Prop :=
  match s with
  | EmptyString => True
  | String c s' => c ≠ ","%char ∧ comma_free s'
  end.

(** The fields the first loop of the reducer reads are present, and the
    flags of an EQUIV are declared. *)
Definition scan_constraint_wf (flags : list string) (c : constraint) : bool :=
  match type_upper c with
  | None => false
  | Some t =>
      if String.eqb t "EQUIV" then
        match c_a c, c_b c with
        | Some a, Some b => declared flags a && declared flags b
        | _, _ => false
        end
      else if String.eqb t "IMPLIES" then
        match c_a c, c_b c with
        | Some _, Some _ => true
        | _, _ => false
        end
      else true
  end.

(** Two flags that imply each other are both declared. *)
Definition mutual_implies_declared (flags : list string) (cs : list constraint) : Prop :=
  ∀ a b, implies_edge cs a b → implies_edge cs b a → a ∈ flags ∧ b ∈ flags.

(** ** The specification's reading of a tag *)

(** Every byte is below 128: the text is ASCII. *)
Fixpoint ascii_only (s : string) : bool :=
  match s with
  | EmptyString => true
  | String c s' => (nat_of_ascii c <? 128)%nat && ascii_only s'
  end.

(** The ASCII capital letters, to lower case. *)
Definition fold_ascii (c : ascii) : ascii :=
  let n := nat_of_ascii c in
  if ((65 <=? n) && (n <=? 90))%nat then ascii_of_nat (n + 32) else c.

Fixpoint fold_case (s : string) : string :=
  match s with
  | EmptyString => EmptyString
  | String c s' => String (fold_ascii c) (fold_case s')
  end.

(** The tag [t] is [name] up to the case of its letters. *)
Definition tag_reads (t name : string) : bool :=
  String.eqb (fold_case t) (fold_case name).







(** The graph of the reducer, by the tags as the specification reads
    them. *)
Definition graph_equiv_edge (cs : list constraint) (x y : string) : Prop :=
  ∃ c t, c ∈ cs ∧ c_type c = Some t ∧ tag_reads t "EQUIV" = true
         ∧ ((c_a c = Some x ∧ c_b c = Some y) ∨ (c_a c = Some y ∧ c_b c = Some x)).

Definition graph_implies_edge (cs : list constraint) (x y : string) : Prop :=
  ∃ c t, c ∈ cs ∧ c_type c = Some t ∧ tag_reads t "IMPLIES" = true
         ∧ c_a c = Some x ∧ c_b c = Some y.

Definition graph_edge (cs : list constraint) (x y : string) : Prop :=
  graph_equiv_edge cs x y ∨ (graph_implies_edge cs x y ∧ graph_implies_edge cs y x).

Definition graph_connected (cs : list constraint) : relation string :=
  rtc (graph_edge cs).

(** A constraint of the data model, as far as the reducer reads it. *)
Definition graph_constraint_wf (flags : list string) (c : constraint) : bool :=
  match c_type c with
  | None => false
  | Some t =>
      ascii_only t
      && (if tag_reads t "EQUIV" || tag_reads t "IMPLIES" then
            match c_a c, c_b c with
            | Some a, Some b => declared flags a && declared flags b
            | _, _ => false
            end
          else true)
  end.

Definition lower_implies (a b : string) : constraint :=
  Constraint (Some "implies") (Some a) (Some b) None None None None.
Definition mixed_equiv (a b : string) : constraint :=
  Constraint (Some "Equiv") (Some a) (Some b) None None None None.

(** An IMPLIES whose tag is written with U+0131, the dotless small i,
    whose upper case is the letter I. *)
Definition dotless_implies (a b : string) : constraint :=
  Constraint (Some (String "196" (String "177" "mplies"))) (Some a) (Some b)
             None None None None.

(** The check of the constraint at the mask cannot read a field or the
    position of a flag: the tag is absent; a field the type needs is
    absent; [a] or [b] of an EQUIV or a MUTEX, or a flag of a ONEOF, is
    not declared; [a] of an IMPLIES is not declared, or it is set in the
    mask and [b] is not declared. *)
Definition unreadable_at (flags : list string) (x : Z) (c : constraint) : Prop :=
  match type_upper c with
  | None => True
  | Some t =>
      if String.eqb t "IMPLIES" then
        match c_a c, c_b c with
        | Some a, Some b =>
            a ∉ flags ∨ (flag_bit (bitpos_map flags) x a = true ∧ b ∉ flags)
        | _, _ => True
        end
      else if String.eqb t "EQUIV" || String.eqb t "MUTEX" then
        match c_a c, c_b c with
        | Some a, Some b => a ∉ flags ∨ b ∉ flags
        | _, _ => True
        end
      else if String.eqb t "ONEOF" then
        match c_flags c with
        | Some fs => ∃ f, f ∈ fs ∧ f ∉ flags
        | None => True
        end
      else False
  end.

(** The constraint can be read at the mask and its rule holds of it. *)
Definition passes_at (flags : list string) (x : Z) (c : constraint) : Prop :=
  ¬ unreadable_at flags x c
  ∧ ∀ r, rule_of c = Some r → rule_holds (bitpos_map flags) x r.

(** * Verification *)

(** Case analysis on the tag of a constraint, as the [if]/[elif] chain does. *)
Ltac case_tag t :=
  let E := fresh "Etag" in
  destruct (String.eqb t "IMPLIES") eqn:E;
    [apply String.eqb_eq in E; subst t
    |clear E; destruct (String.eqb t "EQUIV") eqn:E;
      [apply String.eqb_eq in E; subst t
      |clear E; destruct (String.eqb t "MUTEX") eqn:E;
        [apply String.eqb_eq in E; subst t
        |clear E; destruct (String.eqb t "ONEOF") eqn:E;
          [apply String.eqb_eq in E; subst t|]]]].

Lemma forallb_true_iff {A : Type} (p : A → bool) (l : list A) :
  forallb p l = true ↔ ∀ x, x ∈ l → p x = true.
Proof.
  rewrite forallb_forall. split; intros Hp x Hx; apply Hp; by apply list_elem_of_In.
Qed.

(** ** Bit positions *)

Lemma bitpos_map_snoc (fl : list string) (x : string) :
  bitpos_map (fl ++ [x]) = <[x := Z.of_nat (length fl)]> (bitpos_map fl).
Proof.
  unfold bitpos_map.
  rewrite length_app, Nat.add_1_r, seqZ_S, Z.add_0_l.
  rewrite zip_with_app by (rewrite length_seqZ; lia).
  by rewrite foldl_app.
Qed.

Lemma bitpos_map_declared (flags : list string) (f : string) :
  f ∈ flags ↔ is_Some (bitpos_map flags !! f).
Proof.
  induction flags as [|x fl IH] using rev_ind.
  - unfold bitpos_map. simpl. rewrite lookup_empty.
    split; [by intros ?%elem_of_nil | by intros [? ?]].
  - rewrite bitpos_map_snoc, elem_of_app, list_elem_of_singleton.
    destruct (decide (x = f)) as [->|Hne].
    + rewrite lookup_insert_eq. split; eauto.
    + rewrite lookup_insert_ne by done. rewrite <- IH.
      split; [by intros [?|?] | by left].
Qed.

Lemma bitpos_map_range (flags : list string) (f : string) (p : Z) :
  bitpos_map flags !! f = Some p →
  0 ≤ p < Z.of_nat (length flags) ∧ flags !! Z.to_nat p = Some f.
Proof.
  revert p. induction flags as [|x fl IH] using rev_ind; intros p.
  - unfold bitpos_map. simpl. by rewrite lookup_empty.
  - rewrite bitpos_map_snoc, length_app. simpl.
    destruct (decide (x = f)) as [->|Hne].
    + rewrite lookup_insert_eq. intros [= <-]. split; [lia|].
      rewrite Nat2Z.id. by rewrite lookup_app_r, Nat.sub_diag.
    + rewrite lookup_insert_ne by done. intros Hp.
      destruct (IH _ Hp) as [Hr Hl]. split; [lia|].
      rewrite lookup_app_l; [done | lia].
Qed.

Lemma bitpos_map_NoDup (flags : list string) (i : nat) (f : string) :
  NoDup flags → flags !! i = Some f → bitpos_map flags !! f = Some (Z.of_nat i).
Proof.
  intros Hnd Hi.
  destruct (proj1 (bitpos_map_declared flags f)) as [p Hp].
  { by eapply list_elem_of_lookup_2. }
  destruct (bitpos_map_range _ _ _ Hp) as [Hr Hl].
  rewrite Hp. f_equal.
  pose proof (NoDup_lookup _ _ _ _ Hnd Hl Hi). lia.
Qed.

Lemma declared_elem_of (flags : list string) (f : string) :
  declared flags f = true ↔ f ∈ flags.
Proof.
  unfold declared. rewrite existsb_exists. split.
  - intros (y & Hy & Heq). apply String.eqb_eq in Heq. subst.
    by apply list_elem_of_In.
  - intros Hin. exists f. split; [by apply list_elem_of_In | apply String.eqb_refl].
Qed.

Lemma declared_pos (flags : list string) (f : string) :
  declared flags f = true → ∃ p, bitpos_map flags !! f = Some p.
Proof. rewrite declared_elem_of, bitpos_map_declared. by intros [p ?]; exists p. Qed.

(** ** Bits *)

Lemma bit_testbit (mask p : Z) : bit mask p = Z.b2z (Z.testbit mask p).
Proof.
  unfold bit.
  change 1 with (Z.ones 1). rewrite Z.land_ones by lia.
  change (2 ^ 1) with 2. rewrite <- Z.bit0_mod.
  rewrite Z.shiftr_spec by lia. by rewrite Z.add_0_l.
Qed.

Lemma bit_eq_1 (mask p : Z) : bit mask p = 1 ↔ Z.testbit mask p = true.
Proof. rewrite bit_testbit. by destruct (Z.testbit mask p). Qed.

Lemma bit_eq_0 (mask p : Z) : bit mask p = 0 ↔ Z.testbit mask p = false.
Proof. rewrite bit_testbit. by destruct (Z.testbit mask p). Qed.

Lemma flag_bit_pos (pos : gmap string Z) (mask : Z) (f : string) (p : Z) :
  pos !! f = Some p → bit mask p = Z.b2z (flag_bit pos mask f).
Proof. intros Hp. unfold flag_bit. rewrite Hp. apply bit_testbit. Qed.

(** ** Tags *)

Lemma fold_upper_ascii (c : ascii) : fold_ascii (upper_ascii c) = fold_ascii c.
Proof. by destruct c as [[] [] [] [] [] [] [] []]. Qed.

Lemma upper_fold_ascii (c : ascii) : upper_ascii (fold_ascii c) = upper_ascii c.
Proof. by destruct c as [[] [] [] [] [] [] [] []]. Qed.

Lemma fold_ascii_below (c : ascii) :
  (nat_of_ascii (fold_ascii c) <? 128)%nat = (nat_of_ascii c <? 128)%nat.
Proof. by destruct c as [[] [] [] [] [] [] [] []]. Qed.

Lemma upper_ascii_below (c : ascii) :
  (nat_of_ascii (upper_ascii c) <? 128)%nat = (nat_of_ascii c <? 128)%nat.
Proof. by destruct c as [[] [] [] [] [] [] [] []]. Qed.

Lemma upper_cons_ascii (c : ascii) (s : string) :
  (nat_of_ascii c <? 128)%nat = true →
  upper (String c s) = String (upper_ascii c) (upper s).
Proof. by destruct c as [[] [] [] [] [] [] [] []]. Qed.

Lemma ascii_only_fold (s : string) : ascii_only (fold_case s) = ascii_only s.
Proof.
  induction s as [|c s IH]; [done|]. cbn [fold_case ascii_only].
  by rewrite fold_ascii_below, IH.
Qed.

(** On ASCII text [upper] and the folding of the specification agree:
    two texts have the same upper case exactly when they fold alike. *)
Lemma fold_upper (s : string) : ascii_only s = true → fold_case (upper s) = fold_case s.
Proof.
  induction s as [|c s IH]; [done|]. cbn [ascii_only].
  intros [Hc Hs]%andb_prop. rewrite upper_cons_ascii by done.
  cbn [fold_case]. by rewrite fold_upper_ascii, IH.
Qed.

Lemma upper_fold (s : string) : ascii_only s = true → upper (fold_case s) = upper s.
Proof.
  induction s as [|c s IH]; [done|]. cbn [ascii_only fold_case].
  intros [Hc Hs]%andb_prop.
  rewrite !upper_cons_ascii by (by rewrite ?fold_ascii_below).
  by rewrite upper_fold_ascii, IH.
Qed.

Lemma tag_reads_ascii (t name : string) :
  ascii_only name = true → tag_reads t name = true → ascii_only t = true.
Proof.
  unfold tag_reads. intros Hn Heq%String.eqb_eq.
  by rewrite <- ascii_only_fold, Heq, ascii_only_fold.
Qed.

(** For an upper-case ASCII [name], the code's comparison of the
    upper-cased tag is the specification's reading of an ASCII tag. *)
Lemma tag_reads_upper (t name : string) :
  ascii_only name = true → upper name = name → ascii_only t = true →
  String.eqb (upper t) name = tag_reads t name.
Proof.
  intros Hn Hup Ht. unfold tag_reads.
  destruct (String.eqb_spec (fold_case t) (fold_case name)) as [Heq|Hne].
  - apply String.eqb_eq. by rewrite <- (upper_fold t), Heq, upper_fold.
  - apply String.eqb_neq. intros Heq. apply Hne.
    by rewrite <- (fold_upper t), Heq.
Qed.

Lemma tag_reads_upper_true (t name : string) :
  ascii_only name = true → upper name = name → tag_reads t name = true →
  upper t = name.
Proof.
  intros Hn Hup Hr. apply String.eqb_eq.
  rewrite tag_reads_upper; [done..|]. by apply (tag_reads_ascii t name).
Qed.

(** ** Bit positions by index *)




(** ** The per-constraint checks of [ok] *)

Lemma oneof_bits (pos : gmap string Z) (mask : Z) (fs : list string) :
  (∀ f, f ∈ fs → is_Some (pos !! f)) →
  ∃ bits, mapM (λ f, bit mask <$> pos !! f) fs = Some bits
          ∧ foldr Z.add 0 bits = Z.of_nat (length (List.filter (flag_bit pos mask) fs)).
Proof.
  induction fs as [|f fs IH]; intros Hdecl.
  - by exists [].
  - destruct (Hdecl f) as [p Hp]; [by left|].
    destruct IH as (bits & Hbits & Hsum).
    { intros g Hg. apply Hdecl. by right. }
    exists (bit mask p :: bits). split.
    + cbn. rewrite Hp. cbn. by rewrite Hbits.
    + cbn [foldr List.filter]. rewrite Hsum, (flag_bit_pos _ _ _ _ Hp).
      destruct (flag_bit pos mask f); cbn [Z.b2z length]; lia.
Qed.

Lemma oneof_bits_None (pos : gmap string Z) (mask : Z) (fs : list string) (f : string) :
  f ∈ fs → pos !! f = None → mapM (λ f, bit mask <$> pos !! f) fs = None.
Proof.
  intros Hin Hf. apply mapM_None, Exists_exists. exists f. by rewrite Hf.
Qed.

Lemma forallb_declared (flags : list string) (fs : list string) :
  forallb (declared flags) fs = true →
  ∀ f, f ∈ fs → is_Some (bitpos_map flags !! f).
Proof.
  rewrite forallb_forall. intros Hall f Hf.
  apply bitpos_map_declared, declared_elem_of, Hall. by apply list_elem_of_In.
Qed.

(** On a well-formed constraint the check never raises, and it passes
    exactly when the rule the constraint denotes holds of the mask. *)
Lemma check_constraint_spec (flags : list string) (mask : Z) (c : constraint) :
  bit_constraint_wf flags c = true →
  ∃ r, check_constraint (bitpos_map flags) mask c = Some r
       ∧ (r = true ↔ ∀ ru, rule_of c = Some ru → rule_holds (bitpos_map flags) mask ru).
Proof.
  unfold bit_constraint_wf, check_constraint, rule_of.
  destruct (type_upper c) as [t|]; [|done]. cbn [mbind option_bind].
  case_tag t; cbn [orb].
  - destruct (c_a c) as [a|], (c_b c) as [b|]; try done.
    intros [[pa Ha]%declared_pos [pb Hb]%declared_pos]%andb_prop.
    cbn. rewrite Ha. cbn.
    pose proof (flag_bit_pos _ mask _ _ Ha) as Ba.
    pose proof (flag_bit_pos _ mask _ _ Hb) as Bb.
    destruct (bit mask pa =? 1) eqn:E1.
    + rewrite Hb. cbn. eexists; split; [done|].
      apply Z.eqb_eq in E1. rewrite Ba in E1.
      destruct (flag_bit _ mask a) eqn:Fa; [|done].
      destruct (bit mask pb =? 0) eqn:E0.
      * apply Z.eqb_eq in E0. rewrite Bb in E0.
        destruct (flag_bit _ mask b) eqn:Fb; [done|].
        split; [done|]. intros Hr. exfalso.
        specialize (Hr _ eq_refl). cbn in Hr. by apply Hr.
      * apply Z.eqb_neq in E0. rewrite Bb in E0.
        destruct (flag_bit _ mask b) eqn:Fb; [|done].
        split; [|done]. intros _ ru [= <-]. cbn. rewrite Fb. by intros [_ ?].
    + eexists; split; [done|]. apply Z.eqb_neq in E1. rewrite Ba in E1.
      destruct (flag_bit _ mask a) eqn:Fa; [done|].
      split; [|done]. intros _ ru [= <-]. cbn. rewrite Fa. by intros [? _].
  - destruct (c_a c) as [a|], (c_b c) as [b|]; try done.
    intros [[pa Ha]%declared_pos [pb Hb]%declared_pos]%andb_prop.
    cbn. rewrite Ha, Hb. cbn. eexists; split; [done|].
    rewrite (flag_bit_pos _ mask _ _ Ha), (flag_bit_pos _ mask _ _ Hb).
    rewrite Z.eqb_eq. split.
    + intros Heq ru [= <-]. cbn.
      by destruct (flag_bit _ mask a), (flag_bit _ mask b).
    + intros Hr. specialize (Hr _ eq_refl). cbn in Hr. by rewrite Hr.
  - destruct (c_a c) as [a|], (c_b c) as [b|]; try done.
    intros [[pa Ha]%declared_pos [pb Hb]%declared_pos]%andb_prop.
    cbn. rewrite Ha, Hb. cbn. eexists; split; [done|].
    rewrite (flag_bit_pos _ mask _ _ Ha), (flag_bit_pos _ mask _ _ Hb).
    rewrite negb_true_iff, Z.ltb_ge. split.
    + by intros Hle ru [= <-].
    + intros Hr. apply (Hr _ eq_refl).
  - destruct (c_flags c) as [fs|]; [|done].
    intros Hall. cbn.
    destruct (oneof_bits (bitpos_map flags) mask fs) as (bits & -> & Hsum).
    { by apply forallb_declared. }
    cbn. eexists; split; [done|]. rewrite Hsum, Z.eqb_eq. split.
    + intros Hone ru [= <-]. cbn. lia.
    + intros Hr. specialize (Hr _ eq_refl). cbn in Hr. lia.
  - intros _. exists true. split; [done|]. split; [|done].
    intros _ ru.
    destruct (String.eqb t "FORBID_WHEN").
    { destruct (c_if_flag c); cbn; [by intros [= <-] | done]. }
    destruct (String.eqb t "FORBID_IF_SQL"); [|done].
    destruct (c_if_flag c); cbn; [|done].
    destruct (c_condition c); cbn; [by intros [= <-] | done].
Qed.

(** ** The enumerator *)

Lemma ok_spec (flags : list string) (cs : list constraint) (mask : Z) :
  forallb (bit_constraint_wf flags) cs = true →
  ∃ r, ok (bitpos_map flags) cs mask = Some r
       ∧ (r = true ↔ satisfies_bit_only (bitpos_map flags) cs mask).
Proof.
  induction cs as [|c cs IH]; intros Hwf.
  - exists true. split; [done|]. split; [|done].
    intros _ c r Hc. by apply elem_of_nil in Hc.
  - cbn in Hwf. apply andb_prop in Hwf as [Hc Hcs].
    destruct (check_constraint_spec flags mask c Hc) as (r & Hr & Hiff).
    destruct (IH Hcs) as (r' & Hr' & Hiff').
    cbn. rewrite Hr. cbn. destruct r.
    + exists r'. split; [done|]. rewrite Hiff'. split.
      * intros Hsat c' ru [->|Hin]%elem_of_cons Hru; [by apply Hiff | by eapply Hsat].
      * intros Hsat c' ru Hin. apply Hsat. by right.
    + exists false. split; [done|]. split; [done|].
      intros Hsat. apply Hiff. intros ru Hru. eapply Hsat; [by left | done].
Qed.

Lemma filter_masks_spec (p : Z → option bool) (ms : list Z) :
  (∀ x, x ∈ ms → is_Some (p x)) →
  ∃ l, filter_masks p ms = Some l
       ∧ (∀ x, x ∈ l ↔ x ∈ ms ∧ p x = Some true)
       ∧ (∀ R : relation Z, StronglySorted R ms → StronglySorted R l)
       ∧ (NoDup ms → NoDup l).
Proof.
  induction ms as [|x ms IH]; intros Hp.
  - exists []. split; [done|]. split; [|done].
    intros x. split; [by intros ?%elem_of_nil | by intros [?%elem_of_nil _]].
  - destruct (Hp x) as [r Hr]; [by left|].
    destruct IH as (l & Hl & Hmem & Hsort & Hnd).
    { intros y Hy. apply Hp. by right. }
    cbn. rewrite Hr, Hl. cbn.
    assert (Hsub : ∀ y, y ∈ l → y ∈ ms) by (intros y Hy; by apply Hmem).
    destruct r; eexists; (split; [done|]); (split; [|split]).
    + intros y. rewrite !elem_of_cons, Hmem. split.
      * intros [->|[? ?]]; [by split; [left|] | by split; [right|]].
      * intros [[->|?] ?]; [by left | by right].
    + intros R HR. inversion HR as [|? ? Hs Hall]; subst. constructor; [by apply Hsort|].
      rewrite Forall_forall in Hall |- *. intros y Hy. by apply Hall, Hsub.
    + intros Hn. inversion Hn as [|? ? Hnotin Hn']; subst.
      constructor; [|by apply Hnd]. intros Hy. by apply Hnotin, Hsub.
    + intros y. rewrite elem_of_cons, Hmem. split.
      * by intros [? ?]; split; [right|].
      * intros [[->|?] Hy]; [congruence | done].
    + intros R HR. inversion HR; subst. by apply Hsort.
    + intros Hn. inversion Hn; subst. by apply Hnd.
Qed.


(** ** The code's reading and the table's *)

Lemma known_tag_reads (t : string) :
  ascii_only t = true →
  String.eqb (upper t) "IMPLIES" = tag_reads t "IMPLIES"
  ∧ String.eqb (upper t) "EQUIV" = tag_reads t "EQUIV"
  ∧ String.eqb (upper t) "MUTEX" = tag_reads t "MUTEX"
  ∧ String.eqb (upper t) "ONEOF" = tag_reads t "ONEOF"
  ∧ String.eqb (upper t) "FORBID_WHEN" = tag_reads t "FORBID_WHEN"
  ∧ String.eqb (upper t) "FORBID_IF_SQL" = tag_reads t "FORBID_IF_SQL".
Proof. intros Ht. repeat split; by apply tag_reads_upper. Qed.









(** C9: a fully enumerated model that no mask satisfies returns the same
    empty list as a model beyond the limit, and [main] reports it as
    skipped. *)
Theorem empty_result_reported_as_skipped :
  Z.of_nat (length (m_flags none_valid_model)) ≤ limit_bits_of none_valid_model
  ∧ (∀ mask, ¬ satisfies_bit_only (bitpos_map (m_flags none_valid_model))
                 (m_constraints none_valid_model) mask)
  ∧ Z.of_nat (length (m_flags too_wide_model)) > limit_bits_of too_wide_model
  ∧ enumerate_valid_masks none_valid_model = Some []
  ∧ enumerate_valid_masks too_wide_model = Some []
  ∧ main_enumeration_lines none_valid_model
    = Some ["  Enumeration skipped (B>22)."%string]
  ∧ (∀ m, enumerate_valid_masks m = Some [] →
          main_enumeration_lines m
          = Some [cat ["  Enumeration skipped (B>"; str_int (limit_bits_of m); ")."]]).
Proof.
  split; [vm_compute; congruence|]. split.
  { intros mask Hsat.
    specialize (Hsat (ONEOF []) (ROneof []) ltac:(by left) eq_refl). by cbn in Hsat. }
  split; [reflexivity|]. split; [vm_compute; reflexivity|].
  split; [vm_compute; reflexivity|]. split; [vm_compute; reflexivity|].
  intros m Hm. unfold main_enumeration_lines. by rewrite Hm.
Qed.

Lemma empty_result_reported_as_skipped_witness :
  main_enumeration_lines none_valid_model
  = Some [cat ["  Enumeration skipped (B>"; str_int (limit_bits_of none_valid_model); ")."]].
Proof.
  apply (proj2 (proj2 (proj2 (proj2 (proj2 (proj2 empty_result_reported_as_skipped)))))).
  vm_compute. reflexivity.
Defined.

(** ** Unknown constraint types *)

Lemma not_elem_of_known (t : string) :
  forallb (λ k, negb (String.eqb t k)) known_types = true → t ∉ known_types.
Proof.
  rewrite forallb_forall. intros Hall Hin.
  specialize (Hall t (proj1 (list_elem_of_In _ _) Hin)).
  by rewrite String.eqb_refl in Hall.
Qed.

Lemma unknown_type_tags (c : constraint) :
  unknown_type c →
  ∃ t, type_upper c = Some t
       ∧ String.eqb t "IMPLIES" = false ∧ String.eqb t "EQUIV" = false
       ∧ String.eqb t "MUTEX" = false ∧ String.eqb t "ONEOF" = false
       ∧ String.eqb t "FORBID_WHEN" = false ∧ String.eqb t "FORBID_IF_SQL" = false.
Proof.
  intros (t & Ht & Hnot). exists (upper t). unfold type_upper. rewrite Ht.
  split; [done|].
  repeat split; apply String.eqb_neq; intros Heq; apply Hnot; rewrite Heq;
    unfold known_types; repeat first [by left | right].
Qed.

Lemma unknown_check (pos : gmap string Z) (mask : Z) (c : constraint) :
  unknown_type c → check_constraint pos mask c = Some true.
Proof.
  intros (t & Ht & E1 & E2 & E3 & E4 & _)%unknown_type_tags.
  unfold check_constraint. rewrite Ht. cbn. by rewrite E1, E2, E3, E4.
Qed.

Lemma unknown_bit_pred (pos : gmap string Z) (mask_expr : string) (c : constraint) :
  unknown_type c → bit_pred_of pos mask_expr c = Some [].
Proof.
  intros (t & Ht & E1 & E2 & E3 & E4 & _)%unknown_type_tags.
  unfold bit_pred_of. rewrite Ht. cbn. by rewrite E1, E2, E3, E4.
Qed.

Lemma unknown_bit_explain (pos : gmap string Z) (c : constraint) :
  unknown_type c → bit_explain_of pos c = Some [].
Proof.
  intros (t & Ht & E1 & E2 & E3 & E4 & _)%unknown_type_tags.
  unfold bit_explain_of. rewrite Ht. cbn. by rewrite E1, E2, E3, E4.
Qed.

Lemma unknown_cat_rule (pos : gmap string Z) (mask_expr : string) (c : constraint) :
  unknown_type c → cat_rule_of pos mask_expr c = Some [].
Proof.
  intros (t & Ht & _ & _ & _ & _ & E5 & E6)%unknown_type_tags.
  unfold cat_rule_of. rewrite Ht. cbn. by rewrite E5, E6.
Qed.

Lemma collect_skip {A B : Type} (f : A → option (list B)) (pre post : list A) (x : A) :
  f x = Some [] → collect f (pre ++ x :: post) = collect f (pre ++ post).
Proof.
  intros Hx. induction pre as [|y pre IH]; cbn.
  - rewrite Hx. cbn. by destruct (collect f post).
  - by rewrite IH.
Qed.

Lemma ok_skip (pos : gmap string Z) (pre post : list constraint) (c : constraint) (mask : Z) :
  check_constraint pos mask c = Some true →
  ok pos (pre ++ c :: post) mask = ok pos (pre ++ post) mask.
Proof.
  intros Hc. induction pre as [|y pre IH]; cbn.
  - by rewrite Hc.
  - by rewrite IH.
Qed.

Lemma filter_masks_ext (p q : Z → option bool) (ms : list Z) :
  (∀ x, p x = q x) → filter_masks p ms = filter_masks q ms.
Proof. intros Hpq. induction ms as [|x ms IH]; cbn; [done|]. by rewrite Hpq, IH. Qed.

Lemma known_types_upper (name : string) :
  name ∈ known_types → ascii_only name = true ∧ upper name = name.
Proof.
  unfold known_types. rewrite !elem_of_cons, elem_of_nil.
  intros [->|[->|[->|[->|[->|[->|[]]]]]]]; by vm_compute.
Qed.

Lemma unknown_type_reads (c : constraint) (t : string) :
  c_type c = Some t → ascii_only t = true →
  unknown_type c ↔ ∀ name, name ∈ known_types → tag_reads t name = false.
Proof.
  intros Ht Ha. unfold unknown_type. split.
  - intros (t' & Ht' & Hn) name Hname. assert (t' = t) as -> by congruence.
    destruct (known_types_upper name Hname) as [Hk1 Hk2].
    rewrite <- (tag_reads_upper t name Hk1 Hk2 Ha). apply String.eqb_neq.
    intros Heq. apply Hn. by rewrite Heq.
  - intros Hall. exists t. split; [done|]. intros Hin.
    destruct (known_types_upper _ Hin) as [Hk1 Hk2].
    specialize (Hall _ Hin). rewrite <- (tag_reads_upper t _ Hk1 Hk2 Ha) in Hall.
    by rewrite String.eqb_refl in Hall.
Qed.

(** C1, as the code has it: a constraint of an unknown type is not
    rejected. Enumeration and emission go ahead and ignore it: both give
    what they give for the model without that constraint. The type is
    unknown when the tag in upper case is none of the six: for a tag in
    ASCII, when it is none of them whatever the case of its letters,
    [foo] and [Foo] as well as [FOO]; a tag that Python's [upper] maps to
    one of the six is of that type, as [implies] written with a dotless
    i. *)
Theorem unknown_constraint_ignored :
  (∀ (m : model) (pre post : list constraint) (c : constraint),
     unknown_type c →
     m_constraints m = pre ++ c :: post →
     let m' := Model (m_name m) (m_flags m) (m_categories m) (pre ++ post)
                     (m_enumeration_limit_bits m) in
     enumerate_valid_masks m = enumerate_valid_masks m'
     ∧ emit_postgres_sql m = emit_postgres_sql m')
  ∧ (∀ c t, c_type c = Some t → ascii_only t = true →
       (unknown_type c ↔ ∀ name, name ∈ known_types → tag_reads t name = false))
  ∧ unknown_type (no_fields "foo")
  ∧ unknown_type (no_fields "Foo")
  ∧ ¬ unknown_type (lower_implies "a" "b")
  ∧ ¬ unknown_type (no_fields "Forbid_If_Sql")
  ∧ ¬ unknown_type (dotless_implies "a" "b")
  ∧ enumerate_valid_masks (Model "m" ["a"; "b"] [] [no_fields "foo"] None)
    = Some [0; 1; 2; 3]
  ∧ enumerate_valid_masks (Model "m" ["a"; "b"] [] [lower_implies "a" "b"] None)
    = Some [0; 2; 3]
  ∧ enumerate_valid_masks (Model "m" ["a"; "b"] [] [dotless_implies "a" "b"] None)
    = Some [0; 2; 3].
Proof.
  split.
  { intros m pre post c Hunk Hcs m'. split.
    - unfold enumerate_valid_masks, limit_bits_of.
      cbn [m_flags m_constraints m_enumeration_limit_bits m'].
      rewrite Hcs. destruct (_ >? _); [done|].
      apply filter_masks_ext. intros x. apply ok_skip. by apply unknown_check.
    - assert (Hbit : ∀ me, predicate_sql_for_bit_constraints (m_flags m) (m_constraints m) me
                           = predicate_sql_for_bit_constraints (m_flags m) (pre ++ post) me).
      { intros me. unfold predicate_sql_for_bit_constraints. rewrite Hcs.
        by rewrite (collect_skip _ pre post c (unknown_bit_pred _ _ c Hunk)). }
      assert (Hcat : ∀ me, cat_rule_preds (m_flags m) (m_categories m) (m_constraints m) me
                           = cat_rule_preds (m_flags m) (m_categories m) (pre ++ post) me).
      { intros me. unfold cat_rule_preds. rewrite Hcs.
        by rewrite (collect_skip _ pre post c (unknown_cat_rule _ _ c Hunk)). }
      assert (Hexp : bit_explain_unions (m_flags m) (m_constraints m)
                     = bit_explain_unions (m_flags m) (pre ++ post)).
      { unfold bit_explain_unions. rewrite Hcs.
        by rewrite (collect_skip _ pre post c (unknown_bit_explain _ c Hunk)). }
      unfold emit_postgres_sql.
      cbn [m_name m_flags m_categories m_constraints m_enumeration_limit_bits m'].
      by rewrite !Hbit, !Hcat, Hexp. }
  split; [exact unknown_type_reads|].
  assert (Hyes : ∀ t, forallb (λ k, negb (String.eqb (upper t) k)) known_types = true →
                      unknown_type (no_fields t)).
  { intros t Ht. exists t. split; [done|]. by apply not_elem_of_known. }
  assert (Hno : ∀ c t, c_type c = Some t → bool_decide (upper t ∈ known_types) = true →
                       ¬ unknown_type c).
  { intros c t Ht Hin%bool_decide_eq_true (t' & Ht' & Hn).
    assert (t' = t) as -> by congruence. done. }
  split; [by apply Hyes|]. split; [by apply Hyes|].
  split; [by eapply Hno|]. split; [by eapply Hno|]. split; [by eapply Hno|].
  repeat split; vm_compute; reflexivity.
Qed.

Lemma unknown_constraint_ignored_witness :
  enumerate_valid_masks unknown_model = enumerate_valid_masks (Model "m" ["a"] [] [] None)
  ∧ emit_postgres_sql unknown_model = emit_postgres_sql (Model "m" ["a"] [] [] None).
Proof.
  apply (proj1 unknown_constraint_ignored unknown_model [] [] (no_fields "FOO")).
  - exists "FOO"%string. split; [reflexivity|]. apply not_elem_of_known. reflexivity.
  - reflexivity.
Defined.

(** C1, as stated, fails on a model whose only constraint has the tag FOO:
    neither function raises. *)
Lemma unknown_type_not_rejected :
  (∃ c, c ∈ m_constraints unknown_model ∧ unknown_type c)
  ∧ ¬ (enumerate_valid_masks unknown_model = None ∧ emit_postgres_sql unknown_model = None)
  ∧ enumerate_valid_masks unknown_model = Some [0; 1]
  ∧ is_Some (emit_postgres_sql unknown_model).
Proof.
  split; [|split; [|split]].
  - exists (no_fields "FOO"). split; [by left|].
    exists "FOO"%string. split; [reflexivity|]. apply not_elem_of_known. reflexivity.
  - intros [He _]. vm_compute in He. discriminate.
  - vm_compute. reflexivity.
  - vm_compute. eexists. reflexivity.
Qed.

(** ** The estimator *)

(** Inversion of one [bind] of the error monad. *)
Lemma bind_Ok {A B : Type} (r : result A) (k : A → result B) (y : B) :
  r ≫= k = Ok y → ∃ x, r = Ok x ∧ k x = Ok y.
Proof. destruct r as [x|e]; [by exists x | done]. Qed.

Lemma count_category_leaves_clamped (cats : list (string * list string)) :
  count_category_leaves cats = clamped_card_product cats.
Proof.
  assert (Hgen : ∀ n, foldl (λ n '(_, vals), n * Z.max 1 (Z.of_nat (length vals))) n cats
                      = n * clamped_card_product cats).
  { induction cats as [|[k vals] cats IH]; intros n; cbn [foldl foldr clamped_card_product].
    - lia.
    - rewrite IH. unfold clamped_card_product, len. ring. }
  unfold count_category_leaves. destruct cats as [|kv cats]; [done|].
  rewrite Hgen. lia.
Qed.

Lemma clamped_card_product_nonempty (cats : list (string * list string)) :
  Forall (λ kv, kv.2 ≠ []) cats → clamped_card_product cats = card_product cats.
Proof.
  unfold clamped_card_product, card_product.
  induction 1 as [|[k vals] cats Hne _ IH]; cbn [foldr]; [done|].
  rewrite IH. f_equal. cbn in Hne. unfold len.
  destruct vals; [done|]. cbn [length]. lia.
Qed.

Section EstimatorFacts.
Context {F : Type} `{FloatOps F}.

(** What the locals are when [estimate_sanity] returns. *)
Lemma estimate_locals_Ok (m : model) (vm : list Z) (l : sanity_locals F) :
  estimate_locals m vm = Ok l →
  sl_v l = Z.max 0 (len vm)
  ∧ sl_n_eff l = count_category_leaves (m_categories m)
  ∧ sl_theoretical_max l = sl_v l * sl_n_eff l
  ∧ sl_keep_prob l = keep_prob_of (sl_forbid_fracs l)
  ∧ sl_est_pruned l = sl_theoretical_max l - sl_est_remaining l
  ∧ sl_fisql_count l = len (List.filter is_forbid_if_sql (m_constraints m))
  ∧ (sl_theoretical_max l ≤ 0 → sl_pct l = f_zero).
Proof.
  unfold estimate_locals. intros Hl.
  apply bind_Ok in Hl as (prev & _ & Hl).
  apply bind_Ok in Hl as (fracs & _ & Hl).
  apply bind_Ok in Hl as (scaled & _ & Hl).
  apply bind_Ok in Hl as (rem & _ & Hl).
  apply bind_Ok in Hl as (items & _ & Hl).
  apply bind_Ok in Hl as (pieces & _ & Hl).
  apply bind_Ok in Hl as (pct & Hpct & Hl).
  injection Hl as <-. cbn. repeat split; try done.
  intros Hle. destruct (Z.ltb_spec 0 (Z.max 0 (len vm) * count_category_leaves (m_categories m)));
    [lia|]. by injection Hpct.
Qed.
End EstimatorFacts.

(** C5, as the code has it: [theoretical_max] is the number of valid masks
    times the product of the category cardinalities in which an empty
    category counts as one value, and [n_eff], also as [main] prints it, is
    that product; it is the product of the cardinalities when every
    category has a value, and 1 when there is no category. *)
Theorem theoretical_max_is_clamped_product {F : Type} `{FloatOps F}
    (m : model) (vm : list Z) (l : sanity_locals F) :
  estimate_locals m vm = Ok l →
  sl_theoretical_max l = len vm * clamped_card_product (m_categories m)
  ∧ sl_n_eff l = clamped_card_product (m_categories m)
  ∧ (Forall (λ kv, kv.2 ≠ []) (m_categories m) →
     sl_theoretical_max l = len vm * card_product (m_categories m)
     ∧ sl_n_eff l = card_product (m_categories m))
  ∧ (m_categories m = [] → sl_n_eff l = 1)
  ∧ (estimate_sanity m vm
     = Ok (SanityReport (sl_prev_line l)
             (fmt_commas (len vm * clamped_card_product (m_categories m)))
             (fmt_commas (sl_est_remaining l)) (fmt_commas (sl_est_pruned l))
             (cat [fmt_fixed 1 (sl_pct l); "%"])
             (join " " (notes_of (sl_pieces l) (sl_fisql_count l)))))
  ∧ (∀ iter lines, main_header_lines iter m = Some lines →
       lines !! 3%nat
       = Some (cat ["  n_eff (cats):    "; str_int (clamped_card_product (m_categories m))])).
Proof.
  intros Hl. pose proof (estimate_locals_Ok m vm l Hl) as (Hv & Hn & Ht & _).
  rewrite count_category_leaves_clamped in Hn.
  assert (Hmax : sl_theoretical_max l = len vm * clamped_card_product (m_categories m)).
  { rewrite Ht, Hv, Hn. unfold len. f_equal. lia. }
  split; [done|]. split; [done|]. split; [|split; [|split]].
  - intros Hne. by rewrite Hmax, Hn, clamped_card_product_nonempty.
  - intros Hnil. by rewrite Hn, Hnil.
  - unfold estimate_sanity. rewrite Hl. cbn. by rewrite Hmax.
  - intros iter lines. unfold main_header_lines.
    destruct (compute_B_eff _ _ _) as [b|]; [|done]. cbn. intros [= <-]. cbn.
    by rewrite count_category_leaves_clamped.
Qed.

Lemma theoretical_max_is_clamped_product_witness :
  ∃ l : sanity_locals float,
    estimate_locals clinic_model [0; 1; 3] = Ok l
    ∧ sl_theoretical_max l = len [0; 1; 3] * clamped_card_product (m_categories clinic_model).
Proof.
  eexists. split; [vm_compute; reflexivity|].
  refine (proj1 (theoretical_max_is_clamped_product clinic_model [0; 1; 3] _ _)).
  vm_compute. reflexivity.
Defined.

(** C5, as stated, fails on a model with a category that declares no
    value: the product of the cardinalities is 0 and the code reports 1. *)
Lemma theoretical_max_empty_category :
  ∃ l : sanity_locals float,
    estimate_locals empty_category_model [0; 1] = Ok l
    ∧ card_product (m_categories empty_category_model) = 0
    ∧ sl_n_eff l = 1
    ∧ sl_theoretical_max l = 2
    ∧ sl_theoretical_max l ≠ len [0; 1] * card_product (m_categories empty_category_model)
    ∧ sl_n_eff l ≠ card_product (m_categories empty_category_model).
Proof.
  eexists. split; [vm_compute; reflexivity|]. by vm_compute.
Qed.

(** ** FORBID_IF_SQL rules and the estimate *)





Lemma filter_sql_without (cs : list constraint) :
  List.filter is_forbid_if_sql (without_forbid_if_sql cs) = [].
Proof.
  unfold without_forbid_if_sql. induction cs as [|c cs IH]; [done|].
  cbn. destruct (is_forbid_if_sql c) eqn:Hs; cbn; [done|]. by rewrite Hs.
Qed.

Section ForbidIfSql.
Context {F : Type} `{FloatOps F}.




End ForbidIfSql.



(** ** The two arithmetics obey the laws *)

#[global] Instance binary64_division_laws : DivisionLaws float.
Proof.
  split.
  - intros a b. cbn. unfold Binary64.truediv.
    destruct (Z.eqb_spec b 0); [done|].
    repeat case_match; done.
  - intros z. cbn. unfold Binary64.of_int. by case_match.
  - intros x. cbn. unfold Binary64.round. by repeat case_match.
Qed.

#[global] Instance exact_division_laws : DivisionLaws Q.
Proof.
  split.
  - intros a b. cbn. unfold Exact.truediv. by destruct (Z.eqb_spec b 0).
  - done.
  - done.
Qed.

(** 0.0 times any float is a zero or a NaN. *)
Lemma binary64_zero_mul (y : float) :
  let x := PrimFloat.mul 0%float y in
  x = SF2Prim (S754_zero false) ∨ x = SF2Prim (S754_zero true) ∨ x = SF2Prim S754_nan.
Proof.
  intros x. rewrite <- (SF2Prim_Prim2SF x). subst x. rewrite mul_spec.
  change (Prim2SF 0%float) with (S754_zero false).
  destruct (Prim2SF y) as [[]|[]| |[] ? ?]; cbn; auto.
Qed.

#[global] Instance binary64_empty_case_laws : EmptyCaseLaws float.
Proof.
  split.
  - intros a b Ha Hb. cbn. unfold Binary64.truediv.
    destruct (Z.eqb_spec b 0); [lia|].
    rewrite !Z.abs_eq by lia.
    destruct (Z.ltb_spec a (2 ^ 53)); [|lia].
    destruct (Z.ltb_spec b (2 ^ 53)); [|lia].
    cbn. eauto.
  - intros y. cbn.
    destruct (binary64_zero_mul y) as [-> | [-> | ->]]; vm_compute; auto.
  - by vm_compute.
  - by vm_compute.
  - by vm_compute.
  - by vm_compute.
  - eexists. by vm_compute.
Qed.

#[global] Instance exact_empty_case_laws : EmptyCaseLaws Q.
Proof.
  split; try done.
  - intros a b Ha Hb. cbn. unfold Exact.truediv.
    destruct (Z.eqb_spec b 0); [lia | eauto].
  - intros [n d]. left. cbn. unfold min_one, max_zero. cbn.
    unfold Qle_bool. cbn.
    destruct (Z.leb_spec (Z.pos d) 0); [lia|]. cbn.
    reflexivity.
  - eexists. by vm_compute.
Qed.

(** ** No division by zero *)

Lemma no_zero_division_bind {A B : Type} (r : result A) (k : A → result B) :
  no_zero_division r → (∀ x, no_zero_division (k x)) → no_zero_division (r ≫= k).
Proof.
  intros Hr Hk. destruct r as [x|e]; [apply Hk|].
  intros Heq. cbn in Heq. injection Heq as ->. by apply Hr.
Qed.

Lemma no_zero_division_subscript {A : Type} (o : option A) :
  no_zero_division (subscript o).
Proof. by destruct o. Qed.

Lemma no_zero_division_for_all {A B : Type} (f : A → result B) (l : list A) :
  (∀ x, no_zero_division (f x)) → no_zero_division (for_all f l).
Proof.
  intros Hf. induction l as [|x l IH]; [done|]. cbn.
  apply no_zero_division_bind; [done|]. intros y.
  apply no_zero_division_bind; [done|]. done.
Qed.

Lemma no_zero_division_gather {A B : Type} (f : A → result (list B)) (l : list A) :
  (∀ x, no_zero_division (f x)) → no_zero_division (gather f l).
Proof.
  intros Hf. induction l as [|x l IH]; [done|]. cbn.
  apply no_zero_division_bind; [done|]. intros y.
  apply no_zero_division_bind; [done|]. done.
Qed.

Lemma no_zero_division_accumulate {S A : Type} (body : S → A → result S) (l : list A) :
  (∀ s x, no_zero_division (body s x)) → ∀ s, no_zero_division (accumulate body s l).
Proof.
  intros Hb. induction l as [|x l IH]; intros s; [done|]. cbn.
  apply no_zero_division_bind; [done|]. done.
Qed.

Section Totality.
Context {F : Type} `{FloatOps F}.

Section NoZeroDivision.
Context `{!DivisionLaws F}.

Lemma no_zero_division_truediv (a b : Z) :
  b ≠ 0 → no_zero_division (int_truediv a b).
Proof. intros Hb Hr. by apply Hb, (truediv_zero_divisor a). Qed.

Lemma no_zero_division_when_ratio cats entry :
  no_zero_division (when_ratio cats entry).
Proof. destruct entry as [col spec]. apply no_zero_division_truediv. lia. Qed.

Lemma no_zero_division_estimate_locals (m : model) (vm : list Z) :
  no_zero_division (estimate_locals m vm).
Proof.
  unfold estimate_locals.
  apply no_zero_division_bind.
  { apply no_zero_division_for_all. intros f. unfold prev_of.
    destruct (Z.ltb_spec 0 (Z.max 0 (len vm))); [|done].
    apply no_zero_division_bind; [apply no_zero_division_subscript|]. intros p.
    apply no_zero_division_bind; [apply no_zero_division_truediv; lia | done]. }
  intros prev. apply no_zero_division_bind.
  { apply no_zero_division_gather. intros c. unfold forbid_frac_of.
    destruct (is_forbid_when c); [|done].
    apply no_zero_division_bind; [apply no_zero_division_subscript|]. intros flag.
    apply no_zero_division_bind; [|done].
    apply no_zero_division_accumulate. intros s x.
    apply no_zero_division_bind; [apply no_zero_division_when_ratio | done]. }
  intros fracs. apply no_zero_division_bind.
  { apply no_zero_division_bind; [apply float_of_int_no_zero_division | done]. }
  intros scaled. apply no_zero_division_bind; [apply round_int_no_zero_division|].
  intros rem. apply no_zero_division_bind.
  { apply no_zero_division_for_all. intros k.
    apply no_zero_division_bind; [apply no_zero_division_subscript | done]. }
  intros items. apply no_zero_division_bind.
  { destruct (0 <? _); [|done].
    apply no_zero_division_gather. intros c. unfold note_piece.
    destruct (is_forbid_when c); [|done].
    apply no_zero_division_bind; [apply no_zero_division_subscript|]. intros flag.
    destruct (default [] (c_when c)) as [|entry ?]; [done|].
    apply no_zero_division_bind; [apply no_zero_division_when_ratio | done]. }
  intros pieces. apply no_zero_division_bind; [|done].
  destruct (Z.ltb_spec 0 (Z.max 0 (len vm) * count_category_leaves (m_categories m)));
    [|done].
  apply no_zero_division_bind; [apply no_zero_division_truediv; lia | done].
Qed.
End NoZeroDivision.

Section EmptyCase.
Context `{!EmptyCaseLaws F}.

Lemma for_all_map {A B : Type} (f : A → result B) (g : A → B) (l : list A) :
  (∀ x, x ∈ l → f x = Ok (g x)) → for_all f l = Ok (g <$> l).
Proof.
  induction l as [|x l IH]; intros Hf; [done|]. cbn.
  rewrite Hf by (by left). cbn. rewrite IH; [done|].
  intros y Hy. apply Hf. by right.
Qed.

Lemma gather_Forall {A B : Type} (f : A → result (list B)) (P : B → Prop) (l : list A) :
  (∀ x, x ∈ l → ∃ ys, f x = Ok ys ∧ Forall P ys) →
  ∃ ys, gather f l = Ok ys ∧ Forall P ys.
Proof.
  induction l as [|x l IH]; intros Hf; [by exists []|].
  destruct (Hf x) as (ys & Hys & Py); [by left|].
  destruct IH as (rest & Hrest & Prest); [intros y Hy; apply Hf; by right|].
  exists (ys ++ rest). cbn. rewrite Hys. cbn. rewrite Hrest. cbn.
  split; [done | by apply Forall_app].
Qed.

Lemma accumulate_Ok {S A : Type} (body : S → A → result S) (l : list A) :
  (∀ s x, x ∈ l → ∃ s', body s x = Ok s') → ∀ s, ∃ s', accumulate body s l = Ok s'.
Proof.
  induction l as [|x l IH]; intros Hb s; [by exists s|].
  destruct (Hb s x) as (s' & Hs'); [by left|].
  cbn. rewrite Hs'. cbn. apply IH. intros s0 y Hy. apply Hb. by right.
Qed.

Lemma dict_get_all_zero (flags : list string) (k : string) :
  dict_get ((λ f, (f, f_zero)) <$> flags) k f_zero = f_zero.
Proof. induction flags as [|f fl IH]; [done|]. cbn. by destruct (String.eqb f k). Qed.

Lemma dict_lookup_all_zero (flags : list string) (k : string) :
  k ∈ flags → dict_lookup ((λ f, (f, f_zero)) <$> flags) k = Some f_zero.
Proof.
  induction flags as [|f fl IH]; [by intros ?%elem_of_nil|].
  intros Hk. cbn. destruct (String.eqb_spec f k) as [->|Hne]; [done|].
  apply IH. apply elem_of_cons in Hk as [->|Hk]; done.
Qed.

Lemma when_ratio_Ok (m : model) (w : list (string * when_spec)) (entry : string * when_spec) :
  forallb (λ kv, len kv.2 <? 2 ^ 53) (m_categories m) = true →
  forallb (λ e, len (values_of e.2) <? 2 ^ 53) w = true →
  entry ∈ w →
  ∃ q, when_ratio (m_categories m) entry = Ok q.
Proof.
  intros Hcats Hw Hin. destruct entry as [col spec]. unfold when_ratio.
  rewrite forallb_forall in Hw.
  specialize (Hw _ (proj1 (list_elem_of_In _ _) Hin)). cbn in Hw.
  apply Z.ltb_lt in Hw.
  assert (Hd : len (dict_get (m_categories m) col (values_of spec)) < 2 ^ 53).
  { revert Hcats. generalize (m_categories m) as cats.
    induction cats as [|[k vals] cats IH]; cbn; [done|].
    intros [Hv Hrest]%andb_prop. destruct (String.eqb k col); [|by apply IH].
    by apply Z.ltb_lt in Hv. }
  apply truediv_small; unfold len in *; lia.
Qed.

Lemma keep_prob_zero_or_one (fracs : list F) :
  Forall (λ x, ∃ y, x = f_mul f_zero y) fracs →
  keep_prob_of fracs = f_one ∨ keep_prob_of fracs = f_zero.
Proof.
  unfold keep_prob_of. intros Hall.
  assert (Hgen : ∀ kp, kp = f_one ∨ kp = f_zero →
    let r := foldl (λ kp f, f_mul kp (f_sub f_one (max_zero (min_one f)))) kp fracs in
    r = f_one ∨ r = f_zero); [|by apply Hgen; left].
  induction Hall as [|x fracs [y ->] _ IH]; intros kp Hkp; [done|].
  cbn. apply IH.
  destruct Hkp as [-> | ->], (zero_fraction y) as [-> | ->].
  - left. apply mul_one_one.
  - right. apply mul_one_zero.
  - right. apply mul_zero_one.
  - right. apply mul_zero_zero.
Qed.

Lemma estimate_locals_empty (m : model) :
  forallb forbid_when_wf (m_constraints m) = true →
  sizes_ok m = true →
  ∃ l, estimate_locals m [] = Ok l
       ∧ sl_prev l = (λ f, (f, f_zero)) <$> m_flags m
       ∧ sl_theoretical_max l = 0
       ∧ sl_est_remaining l = 0
       ∧ sl_est_pruned l = 0
       ∧ sl_pct l = f_zero.
Proof.
  intros Hwf [Hcats Hwhen]%andb_prop.
  rewrite forallb_forall in Hwf, Hwhen.
  unfold estimate_locals. change (Z.max 0 (len [])) with 0.
  rewrite (for_all_map _ (λ f, (f, f_zero))) by done. cbn [mbind result_bind].
  destruct (gather_Forall (forbid_frac_of (m_categories m) ((λ f, (f, f_zero)) <$> m_flags m))
              (λ x, ∃ y, x = f_mul f_zero y) (m_constraints m)) as (fracs & -> & Hfracs).
  { intros c Hc%list_elem_of_In. unfold forbid_frac_of.
    specialize (Hwf c Hc). specialize (Hwhen c Hc). unfold forbid_when_wf in Hwf.
    destruct (is_forbid_when c); [|by exists []].
    destruct (c_if_flag c) as [flag|]; [|done]. cbn.
    destruct (accumulate_Ok (λ frac entry, q ← when_ratio (m_categories m) entry;
                                           Ok (f_mul frac (min_one q)))
                (default [] (c_when c))) with (s := f_one) as (fc & Hfc).
    { intros s x Hx. destruct (when_ratio_Ok m _ x Hcats Hwhen Hx) as (q & ->).
      by eexists. }
    unfold frac_cats_of. rewrite Hfc. cbn. eexists. split; [done|].
    constructor; [|done]. rewrite dict_get_all_zero. by eexists. }
  cbn [mbind result_bind].
  destruct zero_rows as (z & Hz & Hone & Hzero).
  unfold int_mul_float. rewrite Z.mul_0_l, Hz. cbn [mbind result_bind].
  assert (Hround : round_int (f_mul z (keep_prob_of fracs)) = Ok 0).
  { by destruct (keep_prob_zero_or_one fracs Hfracs) as [-> | ->]. }
  rewrite Hround. cbn [mbind result_bind].
  rewrite (for_all_map _ (λ k, cat [k; "="; fmt_fixed 1 (f_mul f_zero f_hundred); "%"])).
  2:{ intros k Hk. by rewrite dict_lookup_all_zero. }
  cbn [mbind result_bind].
  assert (Hpieces : ∃ pieces,
            (if 0 <? len (List.filter is_forbid_when (m_constraints m))
             then gather (note_piece (m_categories m)) (m_constraints m)
             else Ok []) = Ok pieces).
  { destruct (0 <? _); [|by eexists].
    destruct (gather_Forall (note_piece (m_categories m)) (λ _, True) (m_constraints m))
      as (ps & Hps & _); [|by exists ps].
    intros c Hc%list_elem_of_In. unfold note_piece.
    specialize (Hwf c Hc). specialize (Hwhen c Hc). unfold forbid_when_wf in Hwf.
    destruct (is_forbid_when c); [|by exists []].
    destruct (c_if_flag c) as [flag|]; [|done]. cbn.
    destruct (default [] (c_when c)) as [|entry w] eqn:Hw; [by exists []|].
    destruct (when_ratio_Ok m _ entry Hcats Hwhen) as (q & ->); [by left|].
    cbn. eexists. split; [done|]. by repeat constructor. }
  destruct Hpieces as (pieces & ->). cbn.
  eexists. split; [done|]. cbn. done.
Qed.
End EmptyCase.
End Totality.

(** C10: the estimator never divides by zero, whatever the model and the
    list of masks; the percentage is 0.0 whenever the theoretical maximum is
    0; and on the empty list it returns its whole dictionary, with every
    prevalence 0.0, a theoretical maximum of 0 and a percentage of 0.0. *)
Theorem estimate_sanity_total_on_empty {F : Type} `{FloatOps F}
    `{!DivisionLaws F} `{!EmptyCaseLaws F} :
  (∀ m vm, estimate_sanity m vm ≠ Raise ZeroDivisionError)
  ∧ (∀ m vm l, estimate_locals m vm = Ok l → sl_theoretical_max l = 0 → sl_pct l = f_zero)
  ∧ (∀ m, forallb forbid_when_wf (m_constraints m) = true →
          sizes_ok m = true →
          ∃ l r, estimate_locals m [] = Ok l
                 ∧ estimate_sanity m [] = Ok r
                 ∧ (∀ f, f ∈ m_flags m → dict_lookup (sl_prev l) f = Some f_zero)
                 ∧ sl_theoretical_max l = 0
                 ∧ sl_est_remaining l = 0
                 ∧ sl_pct l = f_zero
                 ∧ theoretical_max r = "0"%string
                 ∧ est_remaining r = "0"%string
                 ∧ est_pruned r = "0"%string
                 ∧ est_pct r = cat [fmt_fixed 1 f_zero; "%"]).
Proof.
  split; [|split].
  - intros m vm. unfold estimate_sanity.
    apply no_zero_division_bind; [apply no_zero_division_estimate_locals | done].
  - intros m vm l Hl Hmax.
    pose proof (estimate_locals_Ok m vm l Hl) as (_ & _ & _ & _ & _ & _ & Hpct).
    apply Hpct. lia.
  - intros m Hwf Hsz.
    destruct (estimate_locals_empty m Hwf Hsz) as (l & Hl & Hprev & Hmax & Hrem & Hpr & Hpct).
    exists l. eexists. unfold estimate_sanity. rewrite Hl. cbn [mbind result_bind].
    split; [done|]. split; [done|]. cbn. rewrite Hprev, Hmax, Hrem, Hpr, Hpct.
    split; [intros f Hf; by apply dict_lookup_all_zero|]. done.
Qed.

Lemma estimate_sanity_total_on_empty_witness :
  ∃ (l : sanity_locals float) r,
    estimate_locals clinic_model [] = Ok l
    ∧ estimate_sanity (F:=float) clinic_model [] = Ok r
    ∧ (∀ f, f ∈ m_flags clinic_model → dict_lookup (sl_prev l) f = Some 0%float)
    ∧ sl_theoretical_max l = 0
    ∧ sl_est_remaining l = 0
    ∧ sl_pct l = 0%float
    ∧ theoretical_max r = "0"%string
    ∧ est_remaining r = "0"%string
    ∧ est_pruned r = "0"%string
    ∧ est_pct r = cat [fmt_fixed 1 0%float; "%"].
Proof.
  exact (proj2 (proj2 (@estimate_sanity_total_on_empty float Binary64.ops _ _))
           clinic_model eq_refl eq_refl).
Defined.

(** C6 at the failing input: with nineteen categories of seven values and
    the two masks of one unconstrained flag, the estimate of the remaining
    rows exceeds the theoretical maximum and the pruned count is negative,
    although the keep probability is 1.0. *)
Theorem estimate_exceeds_theoretical_max :
  enumerate_valid_masks wide_model = Some [0; 1]
  ∧ ∃ l : sanity_locals float,
      estimate_locals wide_model [0; 1] = Ok l
      ∧ sl_keep_prob l = 1%float
      ∧ sl_theoretical_max l = 2 * 7 ^ 19
      ∧ sl_est_remaining l = 2 * 7 ^ 19 + 2
      ∧ sl_est_pruned l = -2
      ∧ estimate_numbers <$> estimate_locals (F:=Q) wide_model [0; 1]
        = Ok (2 * 7 ^ 19, 1%Q, 2 * 7 ^ 19, 0).
Proof.
  split; [vm_compute; reflexivity|].
  eexists. split; [vm_compute; reflexivity|]. by vm_compute.
Qed.

(** ** The adjacency map of the reducer *)

Lemma add_edge_spec (a b : string) (adj : gmap string (gset string)) :
  a ∈ dom adj → b ∈ dom adj →
  ∃ adj', add_edge a b adj = Some adj'
          ∧ dom adj' = dom adj
          ∧ ∀ x y, neighbour adj' x y
                   ↔ neighbour adj x y ∨ (x = a ∧ y = b) ∨ (x = b ∧ y = a).
Proof.
  intros [sa Ha]%elem_of_dom [sb Hb]%elem_of_dom. unfold add_edge. rewrite Ha. cbn.
  destruct (decide (a = b)) as [->|Hab].
  - rewrite lookup_insert_eq. cbn. eexists. split; [done|]. split.
    + rewrite !dom_insert_L. apply elem_of_dom_2 in Ha. set_solver.
    + intros x y. unfold neighbour. rewrite insert_insert_eq.
      destruct (decide (x = b)) as [->|Hx].
      * rewrite lookup_insert_eq. split.
        -- intros (s & [= <-] & Hy). rewrite Ha in Hb. injection Hb as <-.
           apply elem_of_union in Hy as [Hy%elem_of_singleton|Hy].
           ++ subst. by right; left.
           ++ apply elem_of_union in Hy as [Hy%elem_of_singleton|Hy]; [subst; by right; left|].
              left. by exists sa.
        -- intros [(s & Hs & Hy) | [[_ ->] | [_ ->]]]; eexists; (split; [done|]).
           ++ rewrite Ha in Hs. injection Hs as <-. set_solver.
           ++ set_solver.
           ++ set_solver.
      * rewrite lookup_insert_ne by done. split; [by left|].
        intros [H|[[-> _]|[-> _]]]; done.
  - rewrite lookup_insert_ne by done. rewrite Hb. cbn. eexists. split; [done|]. split.
    + rewrite !dom_insert_L. apply elem_of_dom_2 in Ha, Hb. set_solver.
    + intros x y. unfold neighbour.
      destruct (decide (x = b)) as [->|Hxb]; [|destruct (decide (x = a)) as [->|Hxa]].
      * rewrite lookup_insert_eq. split.
        -- intros (s & [= <-] & Hy).
           apply elem_of_union in Hy as [Hy%elem_of_singleton|Hy]; [subst; by right; right|].
           left. by exists sb.
        -- intros [(s & Hs & Hy) | [[-> ->] | [_ ->]]]; try done;
             eexists; (split; [done|]).
           ++ rewrite Hb in Hs. injection Hs as <-. set_solver.
           ++ set_solver.
      * rewrite lookup_insert_ne, lookup_insert_eq by done. split.
        -- intros (s & [= <-] & Hy).
           apply elem_of_union in Hy as [Hy%elem_of_singleton|Hy]; [subst; by right; left|].
           left. by exists sa.
        -- intros [(s & Hs & Hy) | [[_ ->] | [-> ->]]]; try done;
             eexists; (split; [done|]).
           ++ rewrite Ha in Hs. injection Hs as <-. set_solver.
           ++ set_solver.
      * rewrite !lookup_insert_ne by done. split; [by left|].
        intros [H|[[-> _]|[-> _]]]; done.
Qed.

Lemma initial_adjacency (flags : list string) :
  let adj0 : gmap string (gset string) := foldl (λ m f, <[f := ∅]> m) ∅ flags in
  dom adj0 = list_to_set flags ∧ ∀ x y, ¬ neighbour adj0 x y.
Proof.
  cbn zeta. induction flags as [|f fl IH] using rev_ind.
  - cbn. split; [by rewrite dom_empty_L|].
    intros x y (s & Hs & _). by rewrite lookup_empty in Hs.
  - rewrite foldl_app. cbn. destruct IH as [Hdom Hnb]. split.
    + rewrite dom_insert_L, Hdom, list_to_set_app_L. cbn. set_solver.
    + intros x y (s & Hs & Hy). destruct (decide (f = x)) as [->|Hne].
      * rewrite lookup_insert_eq in Hs. injection Hs as <-. set_solver.
      * rewrite lookup_insert_ne in Hs by done. apply (Hnb x y). by exists s.
Qed.

Lemma reducer_wf_cases (flags : list string) (c : constraint) :
  reducer_constraint_wf flags c = true →
  ∃ t, type_upper c = Some t
       ∧ ((String.eqb t "EQUIV" || String.eqb t "IMPLIES" = true
           ∧ ∃ a b, c_a c = Some a ∧ c_b c = Some b ∧ a ∈ flags ∧ b ∈ flags)
          ∨ (String.eqb t "EQUIV" = false ∧ String.eqb t "IMPLIES" = false)).
Proof.
  unfold reducer_constraint_wf. destruct (type_upper c) as [t|]; [|done].
  intros Hwf. exists t. split; [done|].
  destruct (String.eqb t "EQUIV" || String.eqb t "IMPLIES") eqn:E.
  - left. split; [done|]. destruct (c_a c) as [a|], (c_b c) as [b|]; try done.
    apply andb_prop in Hwf as [Ha%declared_elem_of Hb%declared_elem_of]. by exists a, b.
  - right. by apply orb_false_elim in E.
Qed.

Lemma scan_constraint_eq (adj imp : gmap string (gset string)) (c : constraint) :
  scan_constraint (adj, imp) c
  = (t ← type_upper c;
     if String.eqb t "EQUIV" then
       a ← c_a c; b ← c_b c; adj' ← add_edge a b adj; Some (adj', imp)
     else if String.eqb t "IMPLIES" then
       a ← c_a c; b ← c_b c; Some (adj, <[a := {[b]} ∪ default ∅ (imp !! a)]> imp)
     else Some (adj, imp)).
Proof. reflexivity. Qed.

Lemma equiv_edge_cons (c : constraint) (cs : list constraint) (x y : string) :
  equiv_edge (c :: cs) x y
  ↔ (type_upper c = Some "EQUIV"%string
     ∧ ((c_a c = Some x ∧ c_b c = Some y) ∨ (c_a c = Some y ∧ c_b c = Some x)))
    ∨ equiv_edge cs x y.
Proof.
  unfold equiv_edge. split.
  - intros (c' & [->|Hin]%elem_of_cons & Hc'); [by left|]. right. by exists c'.
  - intros [Hc|(c' & Hin & Hc')]; [exists c | exists c']; (split; [|done]);
      [by left | by right].
Qed.

Lemma implies_edge_cons (c : constraint) (cs : list constraint) (x y : string) :
  implies_edge (c :: cs) x y
  ↔ (type_upper c = Some "IMPLIES"%string ∧ c_a c = Some x ∧ c_b c = Some y)
    ∨ implies_edge cs x y.
Proof.
  unfold implies_edge. split.
  - intros (c' & [->|Hin]%elem_of_cons & Hc'); [by left|]. right. by exists c'.
  - intros [Hc|(c' & Hin & Hc')]; [exists c | exists c']; (split; [|done]);
      [by left | by right].
Qed.

Lemma neighbour_insert (imp : gmap string (gset string)) (a b x y : string) :
  neighbour (<[a := {[b]} ∪ default ∅ (imp !! a)]> imp) x y
  ↔ neighbour imp x y ∨ (x = a ∧ y = b).
Proof.
  unfold neighbour. destruct (decide (a = x)) as [->|Hne].
  - rewrite lookup_insert_eq. split.
    + intros (s & [= <-] & [->%elem_of_singleton|Hy]%elem_of_union); [by right|].
      left. destruct (imp !! x) as [s|]; [by exists s | by apply elem_of_empty in Hy].
    + intros [(s & Hs & Hy)|[_ ->]]; (eexists; split; [done|]).
      * rewrite Hs. apply elem_of_union. by right.
      * apply elem_of_union. left. by apply elem_of_singleton.
  - rewrite lookup_insert_ne by done. split; [by left|].
    intros [?|[-> _]]; done.
Qed.

(** The first loop leaves an edge in [adj] for every EQUIV constraint and
    records every IMPLIES constraint in [implies]. *)
Lemma scan_all (flags : list string) (cs : list constraint)
    (adj imp : gmap string (gset string)) :
  forallb (reducer_constraint_wf flags) cs = true →
  dom adj = list_to_set flags →
  ∃ adj' imp',
    for_each scan_constraint (adj, imp) cs = Some (adj', imp')
    ∧ dom adj' = list_to_set flags
    ∧ (∀ x y, neighbour adj' x y ↔ neighbour adj x y ∨ equiv_edge cs x y)
    ∧ (∀ x y, neighbour imp' x y ↔ neighbour imp x y ∨ implies_edge cs x y).
Proof.
  revert adj imp. induction cs as [|c cs IH]; intros adj imp Hwf Hdom.
  - exists adj, imp. split; [done|]. split; [done|].
    split; intros x y; (split; [by left|]); intros [?|(c & Hc%elem_of_nil & _)]; done.
  - cbn in Hwf. apply andb_prop in Hwf as [Hc Hcs].
    destruct (reducer_wf_cases flags c Hc) as (t & Ht & Hcase).
    cbn [for_each]. rewrite scan_constraint_eq, Ht. cbn [mbind option_bind].
    destruct (String.eqb t "EQUIV") eqn:Eq; [|destruct (String.eqb t "IMPLIES") eqn:Ei].
    + destruct Hcase as [[_ (a & b & Ha & Hb & Hina & Hinb)] | [? _]]; [|done].
      apply String.eqb_eq in Eq. subst t.
      rewrite Ha, Hb. cbn [mbind option_bind].
      destruct (add_edge_spec a b adj) as (adj1 & -> & Hdom1 & Hnb1).
      { rewrite Hdom. by apply elem_of_list_to_set. }
      { rewrite Hdom. by apply elem_of_list_to_set. }
      cbn [mbind option_bind].
      destruct (IH adj1 imp Hcs) as (adj' & imp' & Hrun & Hdom' & Hadj' & Himp');
        [congruence|].
      exists adj', imp'. split; [done|]. split; [done|]. split.
      * intros x y. rewrite Hadj', Hnb1, equiv_edge_cons, Ha, Hb. split.
        -- intros [[?|[[-> ->]|[-> ->]]]|?]; eauto 10.
        -- intros [?|[[_ [[[= ->] [= ->]]|[[= ->] [= ->]]]]|?]]; eauto 10.
      * intros x y. rewrite Himp', implies_edge_cons, Ht. split; [intros [?|?]; auto|].
        intros [?|[[? _]|?]]; auto. done.
    + destruct Hcase as [[_ (a & b & Ha & Hb & Hina & Hinb)] | [_ ?]]; [|congruence].
      apply String.eqb_eq in Ei. subst t.
      rewrite Ha, Hb. cbn [mbind option_bind].
      destruct (IH adj (<[a := {[b]} ∪ default ∅ (imp !! a)]> imp) Hcs Hdom)
        as (adj' & imp' & Hrun & Hdom' & Hadj' & Himp').
      exists adj', imp'. split; [done|]. split; [done|]. split.
      * intros x y. rewrite Hadj', equiv_edge_cons, Ht. split; [intros [?|?]; auto|].
        intros [?|[[? _]|?]]; auto. done.
      * intros x y. rewrite Himp', neighbour_insert, implies_edge_cons, Ha, Hb. split.
        -- intros [[?|[-> ->]]|?]; eauto 10.
        -- intros [?|[(_ & [= ->] & [= ->])|?]]; eauto 10.
    + destruct (IH adj imp Hcs Hdom) as (adj' & imp' & Hrun & Hdom' & Hadj' & Himp').
      exists adj', imp'. split; [done|]. split; [done|]. split.
      * intros x y. rewrite Hadj', equiv_edge_cons, Ht. split; [intros [?|?]; auto|].
        intros [?|[[[= ->] _]|?]]; auto. done.
      * intros x y. rewrite Himp', implies_edge_cons, Ht. split; [intros [?|?]; auto|].
        intros [?|[[[= ->] _]|?]]; auto. done.
Qed.

Lemma link_mutual_eq (imp adj : gmap string (gset string)) (a b : string) :
  link_mutual imp adj (a, b)
  = match imp !! b with
    | Some s => if decide (a ∈ s) then add_edge a b adj else Some adj
    | None => Some adj
    end.
Proof. reflexivity. Qed.

(** The second loop adds an edge for every pair of the list whose flags
    imply each other. *)
Lemma link_all (imp : gmap string (gset string)) (D : gset string)
    (pairs : list (string * string)) (adj : gmap string (gset string)) :
  (∀ a b, (a, b) ∈ pairs → a ∈ D ∧ b ∈ D) →
  dom adj = D →
  ∃ adj', for_each (link_mutual imp) adj pairs = Some adj'
          ∧ dom adj' = D
          ∧ ∀ x y, neighbour adj' x y
                   ↔ neighbour adj x y
                     ∨ ∃ a b, (a, b) ∈ pairs ∧ neighbour imp b a
                              ∧ ((x = a ∧ y = b) ∨ (x = b ∧ y = a)).
Proof.
  revert adj. induction pairs as [|[a b] pairs IH]; intros adj Hin Hdom.
  - exists adj. split; [done|]. split; [done|]. intros x y. split; [by left|].
    intros [?|(a & b & Hab%elem_of_nil & _)]; done.
  - assert (Hrest : ∀ a' b', (a', b') ∈ pairs → a' ∈ D ∧ b' ∈ D).
    { intros a' b' Hp. apply Hin. by right. }
    destruct (Hin a b) as [Ha Hb]; [by left|].
    cbn [for_each]. rewrite link_mutual_eq.
    assert (Hstep : ∃ adj1, match imp !! b with
                            | Some s => if decide (a ∈ s) then add_edge a b adj else Some adj
                            | None => Some adj
                            end = Some adj1
                    ∧ dom adj1 = D
                    ∧ ∀ x y, neighbour adj1 x y
                             ↔ neighbour adj x y
                               ∨ (neighbour imp b a ∧ ((x = a ∧ y = b) ∨ (x = b ∧ y = a)))).
    { unfold neighbour at 3. destruct (imp !! b) as [s|] eqn:Hs.
      - destruct (decide (a ∈ s)) as [Has|Has].
        + destruct (add_edge_spec a b adj) as (adj1 & -> & Hdom1 & Hnb1); [by rewrite Hdom..|].
          exists adj1. split; [done|]. split; [congruence|].
          intros x y. rewrite Hnb1. split.
          * intros [?|?]; [by left|]. right. split; [by exists s | done].
          * intros [?|[_ ?]]; [by left | by right].
        + exists adj. split; [done|]. split; [done|]. intros x y. split; [by left|].
          intros [?|[(s' & [= <-] & ?) _]]; done.
      - exists adj. split; [done|]. split; [done|]. intros x y. split; [by left|].
        intros [?|[(s' & ? & ?) _]]; done. }
    destruct Hstep as (adj1 & -> & Hdom1 & Hnb1). cbn [mbind option_bind].
    destruct (IH adj1 Hrest Hdom1) as (adj' & Hrun & Hdom' & Hnb').
    exists adj'. split; [done|]. split; [done|].
    intros x y. rewrite Hnb', Hnb1. split.
    + intros [[?|[Hm Hxy]]|(a' & b' & Hp & Hm & Hxy)]; [by left| |].
      * right. exists a, b. split; [by left | done].
      * right. exists a', b'. split; [by right | done].
    + intros [?|(a' & b' & [[= -> ->]|Hp]%elem_of_cons & Hm & Hxy)]; [by left; left| |].
      * left. by right.
      * right. by exists a', b'.
Qed.

Section Reducer.
Variable iter : gset string → list string.
Hypothesis iter_elements : ∀ s, iter s ≡ₚ elements s.

Lemma elem_of_iter (s : gset string) (x : string) : x ∈ iter s ↔ x ∈ s.
Proof. by rewrite iter_elements, elem_of_elements. Qed.

Lemma length_iter (s : gset string) : length (iter s) = size s.
Proof. by rewrite iter_elements. Qed.

Lemma elem_of_implies_pairs (imp : gmap string (gset string)) (a b : string) :
  (a, b) ∈ implies_pairs iter imp ↔ neighbour imp a b.
Proof.
  unfold implies_pairs, neighbour. rewrite list_elem_of_bind. split.
  - intros ([a' bs] & Hin & Hm%elem_of_map_to_list).
    apply list_elem_of_fmap in Hin as (b' & [= -> ->] & Hb%elem_of_iter).
    by exists bs.
  - intros (s & Hs & Hb). exists (a, s). split.
    + apply list_elem_of_fmap. exists b. split; [done|]. by apply elem_of_iter.
    + by apply elem_of_map_to_list.
Qed.

(** On a well-formed model the two loops build the graph of the
    specification over the declared flags. *)
Lemma adjacency_spec (flags : list string) (cs : list constraint) :
  forallb (reducer_constraint_wf flags) cs = true →
  ∃ adj1 imp adj,
    for_each scan_constraint (foldl (λ m f, <[f := ∅]> m) ∅ flags, ∅) cs
    = Some (adj1, imp)
    ∧ for_each (link_mutual imp) adj1 (implies_pairs iter imp) = Some adj
    ∧ dom adj = list_to_set flags
    ∧ ∀ x y, neighbour adj x y ↔ edge cs x y.
Proof.
  intros Hwf. destruct (initial_adjacency flags) as [Hdom0 Hnb0].
  destruct (scan_all flags cs _ ∅ Hwf Hdom0) as (adj1 & imp & Hscan & Hdom1 & Hnb1 & Himp).
  assert (Himp' : ∀ x y, neighbour imp x y ↔ implies_edge cs x y).
  { intros x y. rewrite Himp. split; [|by right].
    intros [(s & Hs & _)|?]; [by rewrite lookup_empty in Hs | done]. }
  assert (Hdecl : ∀ x y, implies_edge cs x y → x ∈ flags ∧ y ∈ flags).
  { intros x y (c & Hc & Ht & Ha & Hb).
    rewrite forallb_forall in Hwf. specialize (Hwf c (proj1 (list_elem_of_In _ _) Hc)).
    destruct (reducer_wf_cases flags c Hwf) as (t & Ht' & [[_ (a & b & Ha' & Hb' & ? & ?)]|[_ Hn]]).
    - split; congruence.
    - rewrite Ht in Ht'. injection Ht' as <-. done. }
  destruct (link_all imp (list_to_set flags) (implies_pairs iter imp) adj1)
    as (adj & Hlink & Hdom & Hnb); [|done|].
  { intros a b Hab%elem_of_implies_pairs%Himp'%Hdecl.
    by rewrite !elem_of_list_to_set. }
  exists adj1, imp, adj. split; [done|]. split; [done|]. split; [done|].
  intros x y. rewrite Hnb, Hnb1. unfold edge. split.
  - intros [[?|?]|(a & b & Hab%elem_of_implies_pairs & Hba & Hxy)]; [by destruct (Hnb0 x y)|by left|].
    right. apply Himp' in Hab, Hba. by destruct Hxy as [[-> ->]|[-> ->]].
  - intros [?|[Hxy Hyx]]; [by left; right|].
    right. exists x, y. split; [by apply elem_of_implies_pairs, Himp'|].
    split; [by apply Himp' | by left].
Qed.
End Reducer.

(** ** The depth-first search *)

Section Search.
Variable iter : gset string → list string.
Hypothesis iter_elements : ∀ s, iter s ≡ₚ elements s.

Variable adj : gmap string (gset string).
Hypothesis adj_closed : ∀ x y, neighbour adj x y → y ∈ dom adj.
Hypothesis adj_sym : ∀ x y, neighbour adj x y → neighbour adj y x.

Lemma degree_bound (x : string) (nbrs : gset string) :
  adj !! x = Some nbrs → (size nbrs ≤ size adj)%nat.
Proof.
  intros Hx. rewrite <- (size_dom adj). apply subseteq_size.
  intros y Hy. apply (adj_closed x y). by exists nbrs.
Qed.

Lemma dfs_spec (f : string) (seen0 : gset string) (fuel : nat) :
  ∀ stack seen comp,
    search_inv adj f seen0 stack seen comp →
    (length stack + size (dom adj ∖ seen) * S (size adj) ≤ fuel)%nat →
    ∃ seen' comp',
      dfs iter fuel adj stack seen comp = Some (seen', comp')
      ∧ search_inv adj f seen0 [] seen' comp'
      ∧ comp ⊆ comp'
      ∧ ∀ x, x ∈ stack → x ∈ seen'.
Proof.
  induction fuel as [|fuel IH]; intros stack seen comp Hinv Hfuel.
  - destruct stack as [|x st]; [|cbn in Hfuel; lia].
    exists seen, comp. split; [done|]. split; [done|]. split; [done|].
    by intros x ?%elem_of_nil.
  - destruct stack as [|x st].
    { exists seen, comp. split; [done|]. split; [done|]. split; [done|].
      by intros x ?%elem_of_nil. }
    destruct Hinv as [Hseen Hcomp Hstack Hfront Hfresh].
    cbn [dfs]. destruct (decide (x ∈ seen)) as [Hx|Hx].
    + destruct (IH st seen comp) as (seen' & comp' & Hrun & Hinv' & Hsub & Hst).
      { split; [done|done| |  |done].
        - intros y Hy. apply Hstack. by right.
        - intros y z Hy Hyz. destruct (Hfront y z Hy Hyz) as [?|[->|?]%elem_of_cons]; auto. }
      { cbn in Hfuel. lia. }
      exists seen', comp'. split; [done|]. split; [done|]. split; [done|].
      intros y [->|Hy]%elem_of_cons; [|by apply Hst].
      rewrite (inv_seen _ _ _ _ _ _ Hinv'). rewrite Hseen in Hx. set_solver.
    + destruct (Hstack x) as [Hdom Hreach]; [by left|].
      apply elem_of_dom in Hdom as [nbrs Hnbrs]. rewrite Hnbrs. cbn [mbind option_bind].
      set (pushed := filter (λ y, y ∉ {[x]} ∪ seen) (iter nbrs)).
      destruct (IH (reverse pushed ++ st) ({[x]} ∪ seen) ({[x]} ∪ comp))
        as (seen' & comp' & Hrun & Hinv' & Hsub & Hst).
      { split.
        - rewrite Hseen. set_solver.
        - intros y [->%elem_of_singleton|Hy]%elem_of_union; [done | by apply Hcomp].
        - intros y Hy. rewrite elem_of_app, elem_of_reverse in Hy.
          destruct Hy as [Hy|Hy]; [|apply Hstack; by right].
          apply list_elem_of_filter in Hy as [_ Hy].
          assert (neighbour adj x y) as Hxy.
          { exists nbrs. split; [done|]. by rewrite iter_elements, elem_of_elements in Hy. }
          split; [by apply (adj_closed x y)|]. by eapply rtc_r.
        - intros y z [->%elem_of_singleton|Hy]%elem_of_union Hyz.
          + destruct Hyz as (s & Hs & Hz). rewrite Hnbrs in Hs. injection Hs as <-.
            destruct (decide (z ∈ {[x]} ∪ seen)) as [?|Hz']; [by left|].
            right. rewrite elem_of_app, elem_of_reverse. left.
            apply list_elem_of_filter. split; [done|].
            by rewrite iter_elements, elem_of_elements.
          + destruct (Hfront y z Hy Hyz) as [?|[->|?]%elem_of_cons].
            * left. set_solver.
            * left. set_solver.
            * right. apply elem_of_app. by right.
        - rewrite Hseen in Hx. set_solver. }
      { rewrite length_app, length_reverse.
        assert (length pushed ≤ size adj)%nat as Hlen.
        { etransitivity; [apply length_filter|].
          rewrite iter_elements. by apply degree_bound with x. }
        assert (size (dom adj ∖ seen) = S (size (dom adj ∖ ({[x]} ∪ seen)))) as Hsz.
        { assert (dom adj ∖ seen = {[x]} ∪ dom adj ∖ ({[x]} ∪ seen)) as ->.
          { apply set_eq. intros y. apply elem_of_dom_2 in Hnbrs.
            destruct (decide (y = x)) as [->|?]; set_solver. }
          rewrite size_union by set_solver. by rewrite size_singleton. }
        cbn in Hfuel. rewrite Hsz in Hfuel. lia. }
      exists seen', comp'. split; [done|]. split; [done|]. split; [set_solver|].
      intros y [->|Hy]%elem_of_cons.
      * rewrite (inv_seen _ _ _ _ _ _ Hinv'). set_solver.
      * apply Hst, elem_of_app. by right.
Qed.

(** A search from a flag that is not yet seen, over a set of seen flags
    that is closed under adjacency, collects exactly the flags joined to
    it by a path. *)
Lemma dfs_component (f : string) (seen0 : gset string) :
  f ∈ dom adj → f ∉ seen0 →
  (∀ x y, x ∈ seen0 → neighbour adj x y → y ∈ seen0) →
  ∃ comp,
    dfs iter (dfs_fuel adj) adj [f] seen0 ∅ = Some (seen0 ∪ comp, comp)
    ∧ comp ## seen0
    ∧ ∀ y, y ∈ comp ↔ rtc (neighbour adj) f y.
Proof.
  intros Hf Hfresh Hclosed.
  destruct (dfs_spec f seen0 (dfs_fuel adj) [f] seen0 ∅)
    as (seen' & comp & Hrun & [Hseen Hcomp _ Hfront Hdisj] & _ & Hst).
  { split.
    - set_solver.
    - by intros x ?%elem_of_empty.
    - intros x ->%list_elem_of_singleton. done.
    - by intros x y ?%elem_of_empty.
    - set_solver. }
  { unfold dfs_fuel. cbn [length].
    assert (size (dom adj ∖ seen0) ≤ size adj)%nat.
    { rewrite <- (size_dom adj). apply subseteq_size. set_solver. }
    nia. }
  exists comp. subst seen'. split; [done|]. split; [done|].
  assert (Hfc : f ∈ comp).
  { specialize (Hst f ltac:(by left)). set_solver. }
  intros y. split; [apply Hcomp|].
  intros Hreach. revert y Hreach. apply (rtc_ind_r (λ y, y ∈ comp)); [done|].
  intros z y Hfz Hzy IHz.
  destruct (Hfront z y IHz Hzy) as [[Hy|Hy]%elem_of_union|Hy%elem_of_nil]; [|done..].
  exfalso. apply adj_sym in Hzy. apply (Hclosed y z Hy) in Hzy. set_solver.
Qed.
End Search.

(** ** The loop over the flags *)

Section Components.
Variable iter : gset string → list string.
Hypothesis iter_elements : ∀ s, iter s ≡ₚ elements s.

Variable adj : gmap string (gset string).
Variable flags : list string.
Hypothesis adj_closed : ∀ x y, neighbour adj x y → y ∈ dom adj.
Hypothesis adj_sym : ∀ x y, neighbour adj x y → neighbour adj y x.
Hypothesis flags_dom : ∀ f, f ∈ flags → f ∈ dom adj.

Lemma components_spec (fs : list string) :
  ∀ seen comps,
    (∀ f, f ∈ fs → f ∈ flags) →
    (∀ x, x ∈ seen ↔ covered comps x) →
    (∀ x y, x ∈ seen → neighbour adj x y → y ∈ seen) →
    (∀ C, C ∈ comps → ∃ f, f ∈ flags ∧ ∀ y, y ∈ C ↔ rtc (neighbour adj) f y) →
    pairwise_disjoint comps →
    ∃ comps',
      components iter adj fs seen comps = Some comps'
      ∧ (∀ x, covered comps x → covered comps' x)
      ∧ (∀ f, f ∈ fs → covered comps' f)
      ∧ (∀ C, C ∈ comps' → ∃ f, f ∈ flags ∧ ∀ y, y ∈ C ↔ rtc (neighbour adj) f y)
      ∧ pairwise_disjoint comps'.
Proof.
  induction fs as [|f fs IH]; intros seen comps Hfs Hseen Hclosed Hclass Hdisj.
  - exists comps. split; [done|]. split; [done|]. split; [|done].
    by intros f ?%elem_of_nil.
  - cbn [components]. destruct (decide (f ∈ seen)) as [Hf|Hf].
    + destruct (IH seen comps) as (comps' & Hrun & Hmono & Hcov & Hclass' & Hdisj');
        [intros g Hg; apply Hfs; by right|done..|].
      exists comps'. split; [done|]. split; [done|]. split; [|done].
      intros g [->|Hg]%elem_of_cons; [|by apply Hcov].
      by apply Hmono, Hseen.
    + assert (Hfl : f ∈ flags) by (apply Hfs; by left).
      destruct (dfs_component iter iter_elements adj adj_closed adj_sym f seen)
        as (comp & Hrun & Hfresh & Hcomp); [by apply flags_dom | done | done |].
      rewrite Hrun. cbn [mbind option_bind].
      destruct (IH (seen ∪ comp) (comps ++ [comp]))
        as (comps' & Hrun' & Hmono & Hcov & Hclass' & Hdisj').
      * intros g Hg. apply Hfs. by right.
      * intros x. unfold covered. rewrite elem_of_union, Hseen. split.
        -- intros [(C & HC & Hx)|Hx].
           ++ exists C. split; [apply elem_of_app; by left | done].
           ++ exists comp. split; [apply elem_of_app; right; by left | done].
        -- intros (C & [HC| ->%list_elem_of_singleton]%elem_of_app & Hx);
             [left; by exists C | by right].
      * intros x y [Hx|Hx]%elem_of_union Hxy; apply elem_of_union.
        -- left. by apply (Hclosed x y).
        -- right. apply Hcomp. eapply rtc_r; [by apply Hcomp | done].
      * intros C [HC| ->%list_elem_of_singleton]%elem_of_app; [by apply Hclass|].
        by exists f.
      * intros i j C C' Hi Hj Hij.
        apply lookup_app_Some in Hi as [Hi|[Hli Hi]];
          apply lookup_app_Some in Hj as [Hj|[Hlj Hj]].
        -- by apply (Hdisj i j).
        -- apply list_lookup_singleton_Some in Hj as [_ <-].
           intros x Hx Hx'. apply (Hfresh x Hx'), Hseen. exists C.
           split; [by eapply list_elem_of_lookup_2 | done].
        -- apply list_lookup_singleton_Some in Hi as [_ <-].
           intros x Hx Hx'. apply (Hfresh x Hx), Hseen. exists C'.
           split; [by eapply list_elem_of_lookup_2 | done].
        -- apply list_lookup_singleton_Some in Hi as [Hi _].
           apply list_lookup_singleton_Some in Hj as [Hj _]. lia.
      * exists comps'. split; [done|]. split.
        { intros x (C & HC & Hx). apply Hmono. exists C.
          split; [apply elem_of_app; by left | done]. }
        split; [|done].
        intros g [->|Hg]%elem_of_cons; [|by apply Hcov].
        apply Hmono. exists comp. split; [apply elem_of_app; right; by left|].
        by apply Hcomp.
Qed.
End Components.

Lemma edge_sym (cs : list constraint) (x y : string) : edge cs x y → edge cs y x.
Proof.
  intros [(c & Hc & Ht & Hab)|[Hxy Hyx]]; [left | by right].
  exists c. split; [done|]. split; [done|]. by destruct Hab; [right | left].
Qed.

Lemma connected_sym (cs : list constraint) (x y : string) :
  connected cs x y → connected cs y x.
Proof.
  unfold connected. induction 1 as [|x z y Hxz _ IH]; [done|].
  eapply rtc_r; [done|]. by apply edge_sym.
Qed.

(** The classes of a well-formed model: what the three loops return. *)
Lemma scc_classes (iter : gset string → list string) (flags : list string)
    (cs : list constraint) :
  (∀ s, iter s ≡ₚ elements s) →
  forallb (reducer_constraint_wf flags) cs = true →
  ∃ comps,
    scc_equivalence iter flags cs = Some comps
    ∧ (∀ f, f ∈ flags → covered comps f)
    ∧ (∀ C, C ∈ comps → ∃ f, f ∈ flags ∧ ∀ y, y ∈ C ↔ connected cs f y)
    ∧ pairwise_disjoint comps.
Proof.
  intros Hiter Hwf.
  destruct (adjacency_spec iter Hiter flags cs Hwf) as (adj1 & imp & adj & Hscan & Hlink & Hdom & Hnb).
  assert (Hsym : ∀ x y, neighbour adj x y → neighbour adj y x).
  { intros x y. rewrite !Hnb. apply edge_sym. }
  assert (Hclosed : ∀ x y, neighbour adj x y → y ∈ dom adj).
  { intros x y Hxy. apply Hsym in Hxy as (s & Hs & _). by apply elem_of_dom_2 in Hs. }
  assert (Hfd : ∀ f, f ∈ flags → f ∈ dom adj).
  { intros f Hf. rewrite Hdom. by apply elem_of_list_to_set. }
  destruct (components_spec iter Hiter adj flags Hclosed Hsym Hfd flags ∅ [])
    as (comps & Hrun & _ & Hcov & Hclass & Hdisj).
  { done. }
  { intros x. split; [by intros ?%elem_of_empty|]. by intros (C & ?%elem_of_nil & _). }
  { by intros x y ?%elem_of_empty. }
  { by intros C ?%elem_of_nil. }
  { by intros i j C C' ?. }
  exists comps. split; [|split; [done|split; [|done]]].
  - unfold scc_equivalence. rewrite Hscan. cbn [mbind option_bind]. by rewrite Hlink.
  - intros C (f & Hf & HC)%Hclass. exists f. split; [done|].
    intros y. rewrite HC. unfold connected. split; apply rtc_subrel; intros ? ?; apply Hnb.
Qed.

(** ** The graph of the reducer, by the specification's reading *)

Lemma graph_wf_reducer_wf (flags : list string) (c : constraint) :
  graph_constraint_wf flags c = true → reducer_constraint_wf flags c = true.
Proof.
  unfold graph_constraint_wf, reducer_constraint_wf, type_upper.
  destruct (c_type c) as [t|]; [|done]. cbn [fmap option_fmap option_map].
  intros [Ht Hrest]%andb_prop.
  by destruct (known_tag_reads t Ht) as (-> & -> & _).
Qed.

Lemma graph_tag (flags : list string) (c : constraint) (name : string) :
  graph_constraint_wf flags c = true →
  ascii_only name = true → upper name = name →
  type_upper c = Some name ↔ ∃ t, c_type c = Some t ∧ tag_reads t name = true.
Proof.
  unfold graph_constraint_wf, type_upper.
  destruct (c_type c) as [t|]; [|done]. cbn [fmap option_fmap option_map].
  intros [Ht _]%andb_prop Hn Hup. split.
  - intros [= Heq]. exists t. split; [done|].
    rewrite <- (tag_reads_upper t name) by done. by apply String.eqb_eq.
  - intros (t' & [= <-] & Hr). f_equal. by apply tag_reads_upper_true.
Qed.

Lemma graph_edge_agrees (flags : list string) (cs : list constraint) (x y : string) :
  forallb (graph_constraint_wf flags) cs = true →
  edge cs x y ↔ graph_edge cs x y.
Proof.
  intros Hwf. rewrite forallb_true_iff in Hwf.
  assert (He : ∀ u v, equiv_edge cs u v ↔ graph_equiv_edge cs u v).
  { intros u v. unfold equiv_edge, graph_equiv_edge. split.
    - intros (c & Hc & Ht & Hab).
      apply (graph_tag flags c "EQUIV" (Hwf c Hc)) in Ht as (t & Ht & Hr); [|done..].
      by exists c, t.
    - intros (c & t & Hc & Ht & Hr & Hab). exists c. split; [done|]. split; [|done].
      apply (graph_tag flags c "EQUIV" (Hwf c Hc)); [done..|]. by exists t. }
  assert (Hi : ∀ u v, implies_edge cs u v ↔ graph_implies_edge cs u v).
  { intros u v. unfold implies_edge, graph_implies_edge. split.
    - intros (c & Hc & Ht & Hab).
      apply (graph_tag flags c "IMPLIES" (Hwf c Hc)) in Ht as (t & Ht & Hr); [|done..].
      by exists c, t.
    - intros (c & t & Hc & Ht & Hr & Hab). exists c. split; [done|]. split; [|done].
      apply (graph_tag flags c "IMPLIES" (Hwf c Hc)); [done..|]. by exists t. }
  unfold edge, graph_edge. by rewrite He, !Hi.
Qed.

(** C4: on a model of the data model, whatever the order in which sets
    are iterated and whatever the case of the letters of the tags,
    [scc_equivalence] returns classes such that every flag lies in exactly
    one of them, each class is the set of flags joined to any one of its
    flags by a path of EQUIV and mutual-IMPLIES edges, a flag without an
    edge is a class of its own, and [compute_B_eff] is the number of
    classes. EQUIV(a,b) over [a,b,c] gives {a,b},{c} and 2;
    IMPLIES(a,b), IMPLIES(b,a) over [a,b] gives {a,b} and 1; so do the
    tags [Equiv] and [implies]. *)
Theorem scc_equivalence_components :
  (∀ (iter : gset string → list string) (flags : list string) (cs : list constraint),
     (∀ s, iter s ≡ₚ elements s) →
     forallb (graph_constraint_wf flags) cs = true →
     ∃ comps,
       scc_equivalence iter flags cs = Some comps
       ∧ compute_B_eff iter flags cs = Some (Z.of_nat (length comps))
       ∧ (∀ f, f ∈ flags →
            ∃ i C, comps !! i = Some C ∧ f ∈ C
                   ∧ ∀ j C', comps !! j = Some C' → f ∈ C' → j = i)
       ∧ (∀ C, C ∈ comps → ∃ f, f ∈ flags ∧ ∀ y, y ∈ C ↔ graph_connected cs f y)
       ∧ (∀ C f, C ∈ comps → f ∈ C → ∀ y, y ∈ C ↔ graph_connected cs f y)
       ∧ (∀ C x, C ∈ comps → x ∈ C → x ∈ flags)
       ∧ (∀ f, f ∈ flags → (∀ y, ¬ graph_edge cs f y) → {[f]} ∈ comps))
  ∧ scc_equivalence elements ["a"; "b"; "c"] [EQUIV "a" "b"]
    = Some [{["a"; "b"]}; {["c"]}]
  ∧ compute_B_eff elements ["a"; "b"; "c"] [EQUIV "a" "b"] = Some 2
  ∧ scc_equivalence elements ["a"; "b"] [IMPLIES "a" "b"; IMPLIES "b" "a"]
    = Some [{["a"; "b"]}]
  ∧ compute_B_eff elements ["a"; "b"] [IMPLIES "a" "b"; IMPLIES "b" "a"] = Some 1
  ∧ scc_equivalence elements ["a"; "b"; "c"] [mixed_equiv "a" "b"]
    = Some [{["a"; "b"]}; {["c"]}]
  ∧ compute_B_eff elements ["a"; "b"; "c"] [mixed_equiv "a" "b"] = Some 2
  ∧ scc_equivalence elements ["a"; "b"] [lower_implies "a" "b"; lower_implies "b" "a"]
    = Some [{["a"; "b"]}]
  ∧ compute_B_eff elements ["a"; "b"] [lower_implies "a" "b"; lower_implies "b" "a"] = Some 1
  ∧ compute_B_eff elements ["a"; "b"] [lower_implies "a" "b"] = Some 2.
Proof.
  split; [|by vm_compute].
  intros iter flags cs Hiter Hgwf.
  assert (Hwf : forallb (reducer_constraint_wf flags) cs = true).
  { rewrite forallb_true_iff in Hgwf |- *. intros c Hc. by apply graph_wf_reducer_wf, Hgwf. }
  assert (Hedge : ∀ x y, edge cs x y ↔ graph_edge cs x y).
  { intros x y. by apply (graph_edge_agrees flags). }
  assert (Hconn : ∀ x y, connected cs x y ↔ graph_connected cs x y).
  { intros x y. unfold connected, graph_connected.
    split; apply rtc_subrel; intros ? ?; apply Hedge. }
  assert (Hsym : ∀ x y, graph_connected cs x y → graph_connected cs y x).
  { intros x y. rewrite <- !Hconn. apply connected_sym. }
  destruct (scc_classes iter flags cs Hiter Hwf) as (comps & Hscc & Hcov & Hclass & Hdisj).
  assert (Hcomp : ∀ C, C ∈ comps → ∃ f, f ∈ flags ∧ ∀ y, y ∈ C ↔ graph_connected cs f y).
  { intros C (f & Hf & HC)%Hclass. exists f. split; [done|].
    intros y. by rewrite HC, Hconn. }
  assert (Hin : ∀ f y, f ∈ flags → graph_connected cs f y → y ∈ flags).
  { intros f y Hf Hfy%Hconn. induction Hfy as [|x z y Hxz _ IH]; [done|]. apply IH.
    apply edge_sym in Hxz.
    destruct Hxz as [(c & Hc & Ht & Hab)|[(c & Hc & Ht & Ha & Hb) _]].
    - rewrite forallb_true_iff in Hwf. specialize (Hwf c Hc).
      unfold reducer_constraint_wf in Hwf. rewrite Ht in Hwf. cbn in Hwf.
      destruct Hab as [[Ha Hb]|[Ha Hb]]; rewrite Ha, Hb in Hwf;
        apply andb_prop in Hwf as [H1%declared_elem_of H2%declared_elem_of]; done.
    - rewrite forallb_true_iff in Hwf. specialize (Hwf c Hc).
      unfold reducer_constraint_wf in Hwf. rewrite Ht in Hwf. cbn in Hwf.
      rewrite Ha, Hb in Hwf.
      by apply andb_prop in Hwf as [H1%declared_elem_of H2%declared_elem_of]. }
  exists comps. split; [done|]. split; [|split; [|split; [done|split; [|split]]]].
  - unfold compute_B_eff. by rewrite Hscc.
  - intros f (C & HC & Hf)%Hcov.
    apply list_elem_of_lookup in HC as [i Hi]. exists i, C. split; [done|]. split; [done|].
    intros j C' Hj Hf'. destruct (decide (j = i)) as [?|Hne]; [done|].
    exfalso. by apply (Hdisj j i C' C Hj Hi Hne f).
  - intros C f (g & Hg & HCg)%Hcomp HfC y. rewrite HCg. apply HCg in HfC.
    split; intros Hy.
    + eapply rtc_trans; [by apply Hsym | done].
    + by eapply rtc_trans.
  - intros C x (f & Hf & HC)%Hcomp Hx. apply HC in Hx. by apply (Hin f).
  - intros f Hf Hiso. destruct (Hcov f Hf) as (C & HC & HfC).
    destruct (Hcomp C HC) as (g & Hg & HCg).
    assert (Honly : ∀ y, graph_connected cs f y → y = f).
    { intros y Hy. destruct (rtc_inv _ _ Hy) as [->|(z & Hfz & _)]; [done|].
      by destruct (Hiso z). }
    assert (g = f) as ->.
    { apply HCg, Hsym in HfC. by apply Honly in HfC. }
    assert (C = {[f]}) as <-; [|done].
    apply set_eq. intros y. rewrite HCg, elem_of_singleton. split; [apply Honly|].
    intros ->. apply rtc_refl.
Qed.

Lemma scc_equivalence_components_witness :
  ∃ comps,
    scc_equivalence elements ["a"; "b"; "c"] [mixed_equiv "a" "b"] = Some comps
    ∧ compute_B_eff elements ["a"; "b"; "c"] [mixed_equiv "a" "b"]
      = Some (Z.of_nat (length comps))
    ∧ (∀ f, f ∈ ["a"; "b"; "c"]%string →
         ∃ i C, comps !! i = Some C ∧ f ∈ C
                ∧ ∀ j C', comps !! j = Some C' → f ∈ C' → j = i)
    ∧ (∀ C, C ∈ comps →
         ∃ f, f ∈ ["a"; "b"; "c"]%string
              ∧ ∀ y, y ∈ C ↔ graph_connected [mixed_equiv "a" "b"] f y)
    ∧ (∀ C f, C ∈ comps → f ∈ C →
         ∀ y, y ∈ C ↔ graph_connected [mixed_equiv "a" "b"] f y)
    ∧ (∀ C x, C ∈ comps → x ∈ C → x ∈ ["a"; "b"; "c"]%string)
    ∧ (∀ f, f ∈ ["a"; "b"; "c"]%string →
         (∀ y, ¬ graph_edge [mixed_equiv "a" "b"] f y) → {[f]} ∈ comps).
Proof.
  apply (proj1 scc_equivalence_components elements ["a"; "b"; "c"]%string
           [mixed_equiv "a" "b"]).
  - intros s. reflexivity.
  - reflexivity.
Defined.

(** * Further properties of the code *)

(** ** Bit positions and packed masks *)

Lemma bitpos_map_last (flags : list string) (f : string) (p : Z) :
  bitpos_map flags !! f = Some p →
  ∀ j, (Z.to_nat p < j)%nat → flags !! j ≠ Some f.
Proof.
  revert p. induction flags as [|x fl IH] using rev_ind; intros p.
  - unfold bitpos_map. simpl. by rewrite lookup_empty.
  - rewrite bitpos_map_snoc.
    destruct (decide (x = f)) as [->|Hne].
    + rewrite lookup_insert_eq. intros [= <-] j Hj. rewrite Nat2Z.id in Hj.
      rewrite lookup_ge_None_2; [done|]. rewrite length_app. cbn. lia.
    + rewrite lookup_insert_ne by done. intros Hp j Hj.
      destruct (decide (j < length fl)%nat).
      * rewrite lookup_app_l by done. by apply (IH p).
      * rewrite lookup_app_r by lia. intros Hx.
        apply list_lookup_singleton_Some in Hx as [_ ?]. done.
Qed.

(** X1: [bitpos_map] has a key for exactly the declared flags; the
    position of a flag is the index of its last occurrence in the list,
    within [0, B); two flags never share a position; and when the flags are
    distinct the position of the flag at index [i] is [i]. *)
Theorem bitpos_map_index (flags : list string) (f : string) :
  (f ∈ flags ↔ is_Some (bitpos_map flags !! f))
  ∧ (∀ p, bitpos_map flags !! f = Some p →
          0 ≤ p < Z.of_nat (length flags)
          ∧ flags !! Z.to_nat p = Some f
          ∧ (∀ j, (Z.to_nat p < j)%nat → flags !! j ≠ Some f)
          ∧ (∀ g, bitpos_map flags !! g = Some p → g = f))
  ∧ (NoDup flags → ∀ i, flags !! i = Some f → bitpos_map flags !! f = Some (Z.of_nat i)).
Proof.
  split; [apply bitpos_map_declared|]. split.
  - intros p Hp. destruct (bitpos_map_range _ _ _ Hp) as [Hr Hl].
    split; [done|]. split; [done|]. split; [by apply bitpos_map_last|].
    intros g Hg. destruct (bitpos_map_range _ _ _ Hg) as [_ Hl']. congruence.
  - intros Hnd i Hi. by apply bitpos_map_NoDup.
Qed.

Lemma bitpos_map_index_witness :
  bitpos_map ["a"; "b"; "a"]%string !! "a"%string = Some 2
  ∧ 0 ≤ 2 < Z.of_nat (length ["a"; "b"; "a"]%string)
  ∧ ["a"; "b"; "a"]%string !! Z.to_nat 2 = Some "a"%string.
Proof.
  split; [reflexivity|].
  destruct (proj1 (proj2 (bitpos_map_index ["a"; "b"; "a"]%string "a"%string)) 2 eq_refl)
    as (Hr & Hl & _).
  exact (conj Hr Hl).
Defined.

Lemma pack_mask_snoc (bits : gmap string Z) (fl : list string) (x : string) :
  pack_mask bits (fl ++ [x])
  = if default 0 (bits !! x) =? 0 then pack_mask bits fl
    else Z.lor (pack_mask bits fl) (Z.shiftl 1 (Z.of_nat (length fl))).
Proof.
  unfold pack_mask.
  rewrite length_app, Nat.add_1_r, seqZ_S, Z.add_0_l.
  rewrite zip_with_app by (rewrite length_seqZ; lia).
  by rewrite foldl_app.
Qed.

Lemma testbit_one_shiftl (n i : Z) :
  0 ≤ n → Z.testbit (Z.shiftl 1 n) i = bool_decide (i = n).
Proof.
  intros Hn. rewrite Z.shiftl_1_l.
  destruct (decide (i = n)) as [->|Hne].
  - rewrite Z.pow2_bits_true by done. by rewrite bool_decide_eq_true_2.
  - rewrite Z.pow2_bits_false by done. by rewrite bool_decide_eq_false_2.
Qed.

Lemma pack_mask_testbit (bits : gmap string Z) (flags : list string) (i : Z) :
  Z.testbit (pack_mask bits flags) i
  = match flags !! Z.to_nat i with
    | Some f => (0 <=? i) && negb (default 0 (bits !! f) =? 0)
    | None => false
    end.
Proof.
  induction flags as [|x fl IH] using rev_ind.
  - unfold pack_mask. cbn. by rewrite Z.bits_0.
  - rewrite pack_mask_snoc.
    assert (Hbit : Z.testbit (Z.lor (pack_mask bits fl) (Z.shiftl 1 (Z.of_nat (length fl)))) i
                   = Z.testbit (pack_mask bits fl) i || bool_decide (i = Z.of_nat (length fl))).
    { rewrite Z.lor_spec, testbit_one_shiftl by lia. done. }
    destruct (decide (Z.to_nat i < length fl)%nat) as [Hlt|Hge].
    + rewrite lookup_app_l by done.
      destruct (default 0 (bits !! x) =? 0); [done|].
      rewrite Hbit, IH. rewrite bool_decide_eq_false_2 by lia. by rewrite orb_false_r.
    + rewrite lookup_app_r by lia.
      rewrite lookup_ge_None_2 in IH by lia.
      destruct (decide (i = Z.of_nat (length fl))) as [->|Hne].
      * rewrite Nat2Z.id, Nat.sub_diag. cbn.
        destruct (Z.leb_spec 0 (Z.of_nat (length fl))); [|lia]. cbn.
        destruct (default 0 (bits !! x) =? 0); [done|].
        rewrite Hbit, IH. by rewrite bool_decide_eq_true_2.
      * assert (Hnone : [x] !! (Z.to_nat i - length fl)%nat = None ∨ i < 0).
        { destruct (Z.ltb_spec i 0); [by right|]. left.
          apply lookup_ge_None_2. cbn. lia. }
        destruct (default 0 (bits !! x) =? 0).
        -- rewrite IH. destruct Hnone as [->|Hneg]; [done|].
           destruct ([x] !! _); [|done]. destruct (Z.leb_spec 0 i); [lia | done].
        -- rewrite Hbit, IH, bool_decide_eq_false_2 by done. cbn.
           destruct Hnone as [->|Hneg]; [done|].
           destruct ([x] !! _); [|done]. destruct (Z.leb_spec 0 i); [lia | done].
Qed.

(** X2: [pack_mask] and the bit test are inverse to each other. Bit [i] of
    the packed mask is set exactly when the flag at index [i] has a truthy
    entry in [bits]; the mask lies in [0, 2^B); and when the flags are
    distinct, reading a flag back through [bitpos_map] gives 1 exactly for
    the flags that were set. *)
Theorem pack_mask_round_trip (bits : gmap string Z) (flags : list string) :
  (∀ i f, flags !! i = Some f →
          bit (pack_mask bits flags) (Z.of_nat i)
          = if default 0 (bits !! f) =? 0 then 0 else 1)
  ∧ 0 ≤ pack_mask bits flags < 2 ^ Z.of_nat (length flags)
  ∧ (NoDup flags → ∀ f, f ∈ flags →
       flag_bit (bitpos_map flags) (pack_mask bits flags) f
       = negb (default 0 (bits !! f) =? 0)).
Proof.
  assert (Hbits : ∀ i f, flags !! i = Some f →
            Z.testbit (pack_mask bits flags) (Z.of_nat i) = negb (default 0 (bits !! f) =? 0)).
  { intros i f Hi. rewrite pack_mask_testbit, Nat2Z.id, Hi.
    destruct (Z.leb_spec 0 (Z.of_nat i)); [done | lia]. }
  split; [|split].
  - intros i f Hi. rewrite bit_testbit, (Hbits i f Hi).
    by destruct (default 0 (bits !! f) =? 0).
  - assert (Hnn : 0 ≤ pack_mask bits flags).
    { apply Z.bits_iff_nonneg_ex. exists (Z.of_nat (length flags)). intros j Hj.
      rewrite pack_mask_testbit, lookup_ge_None_2; [done | lia]. }
    split; [done|].
    destruct (decide (pack_mask bits flags = 0)) as [->|Hnz]; [by apply Z.pow_pos_nonneg; lia|].
    apply Z.log2_lt_pow2; [lia|].
    destruct (Z.lt_ge_cases (Z.log2 (pack_mask bits flags)) (Z.of_nat (length flags)));
      [done|].
    assert (Z.testbit (pack_mask bits flags) (Z.log2 (pack_mask bits flags)) = true) as Ht
      by (apply Z.bit_log2; lia).
    rewrite pack_mask_testbit, lookup_ge_None_2 in Ht; [done | lia].
  - intros Hnd f Hf. apply list_elem_of_lookup in Hf as [i Hi].
    unfold flag_bit. rewrite (bitpos_map_NoDup _ _ _ Hnd Hi). by apply Hbits.
Qed.

Lemma pack_mask_round_trip_witness :
  bit (pack_mask {["b" := 1]} ["a"; "b"]%string) (Z.of_nat 1)
  = if default 0 (({["b" := 1]} : gmap string Z) !! "b"%string) =? 0 then 0 else 1.
Proof.
  apply (proj1 (pack_mask_round_trip {["b" := 1]} ["a"; "b"]%string) 1%nat "b"%string).
  reflexivity.
Defined.

(** ** Quoting of SQL literals *)

Lemma append_cons (c : ascii) (s t : string) : String c s +:+ t = String c (s +:+ t).
Proof. reflexivity. Qed.

Lemma append_nil_l (t : string) : EmptyString +:+ t = t.
Proof. reflexivity. Qed.

Lemma scan_quoted_body (v rest : string) :
  no_leading_quote rest →
  scan_literal_body (replace_quote v +:+ String "'"%char rest) = Some (v, rest).
Proof.
  intros Hrest. induction v as [|c v IH].
  - cbn [replace_quote]. rewrite append_nil_l. cbn [scan_literal_body].
    rewrite Ascii.eqb_refl. destruct rest as [|c' r']; [done|].
    cbn in Hrest. by apply Ascii.eqb_neq in Hrest as ->.
  - cbn [replace_quote]. destruct (Ascii.eqb_spec c "'"%char) as [->|Hne].
    + rewrite !append_cons. cbn [scan_literal_body]. rewrite Ascii.eqb_refl, IH. done.
    + rewrite append_cons. cbn [scan_literal_body].
      apply Ascii.eqb_neq in Hne as ->. by rewrite IH.
Qed.

(** X3: a value quoted by [_sql_quote] between two quotes reads back as a
    SQL string literal that denotes exactly that value and ends exactly
    where the closing quote is, whatever quotes the value contains; so
    distinct values give distinct quoted texts. *)
Theorem sql_quote_reads_back (v rest : string) :
  no_leading_quote rest →
  scan_literal (quoted v +:+ rest) = Some (v, rest)
  ∧ (∀ w, _sql_quote v = _sql_quote w → v = w).
Proof.
  intros Hrest. split.
  - unfold quoted, cat, _sql_quote. cbn [foldr].
    change ("'" : string) with (String "'"%char EmptyString).
    rewrite !append_cons, !append_nil_l. cbn [scan_literal]. rewrite Ascii.eqb_refl.
    assert (Happ : ∀ a b c : string, (a +:+ b) +:+ c = a +:+ (b +:+ c)).
    { intros a b c. induction a as [|x a IHa]; [done|].
      rewrite !append_cons. by f_equal. }
    rewrite Happ, append_cons, !append_nil_l. by apply scan_quoted_body.
  - unfold _sql_quote. intros w Heq.
    pose proof (scan_quoted_body v EmptyString I) as Hv.
    pose proof (scan_quoted_body w EmptyString I) as Hw.
    rewrite Heq, Hw in Hv. by injection Hv.
Qed.

Lemma sql_quote_reads_back_witness :
  scan_literal (quoted "O'Neil" +:+ ", 'x')") = Some ("O'Neil"%string, ", 'x')"%string).
Proof.
  apply (sql_quote_reads_back "O'Neil" ", 'x')").
  cbn. discriminate.
Defined.

(** ** The enumerator and the list of constraints *)

Lemma not_bit_only_check (pos : gmap string Z) (mask : Z) (c : constraint) :
  not_bit_only c = true → check_constraint pos mask c = Some true.
Proof.
  unfold not_bit_only, check_constraint. destruct (type_upper c) as [t|]; [|done].
  cbn. intros Hn%negb_true_iff.
  apply orb_false_elim in Hn as [Hn E4]. apply orb_false_elim in Hn as [Hn E3].
  apply orb_false_elim in Hn as [E1 E2]. by rewrite E1, E2, E3, E4.
Qed.

Lemma ok_filter_bit_only (pos : gmap string Z) (cs : list constraint) (mask : Z) :
  ok pos (List.filter (λ c, negb (not_bit_only c)) cs) mask = ok pos cs mask.
Proof.
  induction cs as [|c cs IH]; [done|]. cbn.
  destruct (not_bit_only c) eqn:Hc; cbn.
  - by rewrite (not_bit_only_check pos mask c Hc).
  - by rewrite IH.
Qed.

Lemma filter_masks_all (ms : list Z) : filter_masks (λ _, Some true) ms = Some ms.
Proof. induction ms as [|x ms IH]; [done|]. cbn. by rewrite IH. Qed.

(** X4: the enumerator looks only at the constraints whose tag is absent
    or one of IMPLIES, EQUIV, MUTEX, ONEOF. Every other constraint, a
    category-aware one or one of an unknown type, with or without its
    fields, leaves the result as it is; and a model within its limit that
    has only such constraints enumerates to all [2^B] masks. The tag is
    read in upper case, as Python computes it: [forbid_when] is passed
    over, [implies] is not, nor is it when written with a dotless i. *)
Theorem enumerate_ignores_other_constraints :
  (∀ m : model,
     enumerate_valid_masks m
     = enumerate_valid_masks
         (with_constraints m (List.filter (λ c, negb (not_bit_only c)) (m_constraints m)))
     ∧ (forallb not_bit_only (m_constraints m) = true →
        Z.of_nat (length (m_flags m)) ≤ limit_bits_of m →
        enumerate_valid_masks m = Some (seqZ 0 (2 ^ Z.of_nat (length (m_flags m))))))
  ∧ (∀ c t, c_type c = Some t → ascii_only t = true →
       not_bit_only c
       = negb (tag_reads t "IMPLIES" || tag_reads t "EQUIV"
               || tag_reads t "MUTEX" || tag_reads t "ONEOF"))
  ∧ not_bit_only (no_fields "forbid_when") = true
  ∧ not_bit_only (no_fields "foo") = true
  ∧ not_bit_only (lower_implies "a" "b") = false
  ∧ not_bit_only (dotless_implies "a" "b") = false
  ∧ enumerate_valid_masks (Model "m" ["a"; "b"] [] [no_fields "forbid_when"] None)
    = Some [0; 1; 2; 3]
  ∧ enumerate_valid_masks (Model "m" ["a"; "b"] [] [dotless_implies "a" "b"] None)
    = Some [0; 2; 3].
Proof.
  split; [|split; [|repeat split; vm_compute; reflexivity]].
  - intros m. split.
    + unfold enumerate_valid_masks, with_constraints, limit_bits_of. cbn.
      destruct (_ >? _); [done|]. apply filter_masks_ext. intros x.
      by rewrite ok_filter_bit_only.
    + intros Hall Hle. unfold enumerate_valid_masks.
      destruct (Z.gtb_spec (Z.of_nat (length (m_flags m))) (limit_bits_of m)); [lia|].
      rewrite Z.shiftl_1_l. rewrite <- filter_masks_all. apply filter_masks_ext.
      intros x. induction (m_constraints m) as [|c cs IH]; [done|].
      cbn in Hall. apply andb_prop in Hall as [Hc Hcs]. cbn.
      rewrite (not_bit_only_check _ x c Hc). cbn. by apply IH.
  - intros c t Ht Ha. unfold not_bit_only, type_upper. rewrite Ht.
    cbn [fmap option_fmap option_map].
    by rewrite !(tag_reads_upper t _) by done.
Qed.

Lemma enumerate_ignores_other_constraints_witness :
  enumerate_valid_masks
    (Model "m" ["a"; "b"] [] [FORBID_WHEN "zz" []; no_fields "forbid_if_sql"] None)
  = Some (seqZ 0 (2 ^ Z.of_nat 2)).
Proof.
  apply (proj2 (proj1 enumerate_ignores_other_constraints
                  (Model "m" ["a"; "b"] [] [FORBID_WHEN "zz" []; no_fields "forbid_if_sql"] None)));
    [reflexivity | vm_compute; congruence].
Defined.

Lemma satisfies_bit_only_app (pos : gmap string Z) (cs1 cs2 : list constraint) (x : Z) :
  satisfies_bit_only pos (cs1 ++ cs2) x
  ↔ satisfies_bit_only pos cs1 x ∧ satisfies_bit_only pos cs2 x.
Proof.
  unfold satisfies_bit_only. split.
  - intros Hs. split; intros c r Hc; apply Hs, elem_of_app; auto.
  - intros [H1 H2] c r [Hc|Hc]%elem_of_app; [by apply H1 | by apply H2].
Qed.

Lemma enumerate_members (m : model) :
  forallb (bit_constraint_wf (m_flags m)) (m_constraints m) = true →
  Z.of_nat (length (m_flags m)) ≤ limit_bits_of m →
  ∃ l, enumerate_valid_masks m = Some l
       ∧ (∀ x, x ∈ l ↔ 0 ≤ x < 2 ^ Z.of_nat (length (m_flags m))
                        ∧ satisfies_bit_only (bitpos_map (m_flags m)) (m_constraints m) x)
       ∧ NoDup l.
Proof.
  intros Hwf Hle. unfold enumerate_valid_masks.
  destruct (Z.gtb_spec (Z.of_nat (length (m_flags m))) (limit_bits_of m)); [lia|].
  rewrite Z.shiftl_1_l.
  destruct (filter_masks_spec (ok (bitpos_map (m_flags m)) (m_constraints m))
              (seqZ 0 (2 ^ Z.of_nat (length (m_flags m))))) as (l & Hl & Hmem & _ & Hnd).
  { intros x _. destruct (ok_spec _ _ x Hwf) as (r & Hr & _). by exists r. }
  exists l. split; [done|]. split; [|apply Hnd, NoDup_seqZ].
  intros x. rewrite Hmem, elem_of_seqZ.
  destruct (ok_spec _ _ x Hwf) as (r & Hr & Hiff). rewrite Hr, <- Hiff. split.
  - intros [? [= ->]]. split; [lia | done].
  - intros [? ->]. split; [lia | done].
Qed.

(** X5: constraints combine by conjunction. For well-formed constraint
    lists within the limit, a mask is enumerated for the concatenation of
    two lists exactly when it is enumerated for each of them, so adding
    constraints only removes masks; and the order of the constraints does
    not matter. *)
Theorem enumerate_conjunction (m : model) (cs1 cs2 : list constraint) :
  forallb (bit_constraint_wf (m_flags m)) cs1 = true →
  forallb (bit_constraint_wf (m_flags m)) cs2 = true →
  Z.of_nat (length (m_flags m)) ≤ limit_bits_of m →
  ∃ l1 l2 l,
    enumerate_valid_masks (with_constraints m cs1) = Some l1
    ∧ enumerate_valid_masks (with_constraints m cs2) = Some l2
    ∧ enumerate_valid_masks (with_constraints m (cs1 ++ cs2)) = Some l
    ∧ (∀ x, x ∈ l ↔ x ∈ l1 ∧ x ∈ l2)
    ∧ (∀ cs, cs ≡ₚ cs1 ++ cs2 → enumerate_valid_masks (with_constraints m cs) = Some l).
Proof.
  intros Hwf1 Hwf2 Hle.
  assert (Hwf : forallb (bit_constraint_wf (m_flags m)) (cs1 ++ cs2) = true).
  { rewrite forallb_app. by rewrite Hwf1, Hwf2. }
  destruct (enumerate_members (with_constraints m cs1) Hwf1 Hle) as (l1 & Hl1 & Hm1 & _).
  destruct (enumerate_members (with_constraints m cs2) Hwf2 Hle) as (l2 & Hl2 & Hm2 & _).
  destruct (enumerate_members (with_constraints m (cs1 ++ cs2)) Hwf Hle) as (l & Hl & Hm & _).
  cbn [with_constraints m_flags m_constraints] in Hm1, Hm2, Hm.
  exists l1, l2, l. split; [done|]. split; [done|]. split; [done|]. split.
  - intros x. rewrite Hm, Hm1, Hm2, satisfies_bit_only_app. tauto.
  - intros cs Hperm. rewrite <- Hl. unfold enumerate_valid_masks, with_constraints, limit_bits_of.
    cbn. destruct (_ >? _); [done|]. apply filter_masks_ext. intros x.
    assert (Hwf' : forallb (bit_constraint_wf (m_flags m)) cs = true).
    { rewrite forallb_forall in Hwf |- *. intros c Hc. apply Hwf.
      apply list_elem_of_In. rewrite <- Hperm. by apply list_elem_of_In. }
    destruct (ok_spec _ _ x Hwf') as (r & -> & Hr).
    destruct (ok_spec _ _ x Hwf) as (r' & -> & Hr'). f_equal.
    assert (r = true ↔ r' = true) as Hrr.
    { rewrite Hr, Hr'. unfold satisfies_bit_only.
      split; intros Hs c ru Hc; apply Hs; [by rewrite Hperm | by rewrite <- Hperm]. }
    destruct r, r'; try done; [by destruct Hrr as [-> _] | by destruct Hrr as [_ ->]].
Qed.

Lemma enumerate_conjunction_witness :
  ∃ l1 l2 l,
    enumerate_valid_masks (with_constraints mutex_model [MUTEX "a" "b"]) = Some l1
    ∧ enumerate_valid_masks (with_constraints mutex_model [IMPLIES "a" "b"]) = Some l2
    ∧ enumerate_valid_masks (with_constraints mutex_model ([MUTEX "a" "b"] ++ [IMPLIES "a" "b"]))
      = Some l
    ∧ (∀ x, x ∈ l ↔ x ∈ l1 ∧ x ∈ l2)
    ∧ (∀ cs, cs ≡ₚ [MUTEX "a" "b"] ++ [IMPLIES "a" "b"] →
             enumerate_valid_masks (with_constraints mutex_model cs) = Some l).
Proof.
  apply (enumerate_conjunction mutex_model [MUTEX "a" "b"] [IMPLIES "a" "b"]);
    [reflexivity | reflexivity | vm_compute; congruence].
Defined.

(** X6: for the enumerator an EQUIV constraint on two declared flags is
    the same as the two IMPLIES constraints between them, wherever it
    stands in the list and whatever the other constraints are. *)
Theorem equiv_is_mutual_implies (m : model) (pre post : list constraint) (a b : string) :
  a ∈ m_flags m → b ∈ m_flags m →
  enumerate_valid_masks (with_constraints m (pre ++ EQUIV a b :: post))
  = enumerate_valid_masks
      (with_constraints m (pre ++ IMPLIES a b :: IMPLIES b a :: post)).
Proof.
  intros [pa Ha]%bitpos_map_declared [pb Hb]%bitpos_map_declared.
  unfold enumerate_valid_masks, with_constraints, limit_bits_of. cbn.
  destruct (_ >? _); [done|]. apply filter_masks_ext. intros x.
  induction pre as [|c pre IH]; cbn [app ok].
  - unfold check_constraint at 1 2 3. cbn. rewrite Ha, Hb. cbn.
    rewrite !bit_testbit.
    destruct (Z.testbit x pa), (Z.testbit x pb); cbn; rewrite ?Ha, ?Hb; cbn;
      rewrite ?bit_testbit; try done.
    all: destruct (Z.testbit x pa), (Z.testbit x pb); done.
  - by rewrite IH.
Qed.

Lemma equiv_is_mutual_implies_witness :
  enumerate_valid_masks (with_constraints mutex_model ([] ++ EQUIV "a" "b" :: []))
  = enumerate_valid_masks
      (with_constraints mutex_model ([] ++ IMPLIES "a" "b" :: IMPLIES "b" "a" :: [])).
Proof.
  apply (equiv_is_mutual_implies mutex_model [] [] "a" "b"); apply list_elem_of_In; cbn; auto.
Defined.

(** ** ONEOF in the enumerator and in the emitted predicate *)

Lemma popcount_below_ext (n : nat) (x y : Z) :
  (∀ i, 0 ≤ i < Z.of_nat n → Z.testbit x i = Z.testbit y i) →
  popcount_below n x = popcount_below n y.
Proof.
  induction n as [|k IH]; intros Hxy; [done|]. cbn [popcount_below].
  rewrite IH, Hxy; [done | lia | intros i Hi; apply Hxy; lia].
Qed.

Lemma popcount_below_lor (n : nat) (a b : Z) :
  (∀ i, Z.testbit a i = true → Z.testbit b i = true → False) →
  popcount_below n (Z.lor a b) = popcount_below n a + popcount_below n b.
Proof.
  intros Hdisj. induction n as [|k IH]; [done|]. cbn [popcount_below].
  rewrite IH, Z.lor_spec. specialize (Hdisj (Z.of_nat k)).
  destruct (Z.testbit a (Z.of_nat k)), (Z.testbit b (Z.of_nat k)); cbn; try lia.
Qed.

Lemma popcount_below_single (n : nat) (mask p : Z) :
  0 ≤ p < Z.of_nat n →
  popcount_below n (Z.land mask (Z.shiftl 1 p)) = Z.b2z (Z.testbit mask p).
Proof.
  induction n as [|k IH]; intros Hp; [lia|]. cbn [popcount_below].
  rewrite Z.land_spec, testbit_one_shiftl by lia.
  destruct (decide (p = Z.of_nat k)) as [->|Hne].
  - rewrite bool_decide_eq_true_2 by done. rewrite andb_true_r.
    rewrite (popcount_below_ext k _ 0); [|].
    + assert (popcount_below k 0 = 0) as ->; [|lia].
      clear. induction k as [|k IH]; [done|]. cbn. rewrite IH, Z.bits_0. done.
    + intros i Hi. rewrite Z.land_spec, testbit_one_shiftl, Z.bits_0 by lia.
      rewrite bool_decide_eq_false_2 by lia. apply andb_false_r.
  - rewrite bool_decide_eq_false_2 by (intros ?; lia). rewrite andb_false_r.
    rewrite IH by lia. cbn. lia.
Qed.

Lemma maskbits_spec (flags fs : list string) (mask : Z) :
  NoDup fs → (∀ f, f ∈ fs → f ∈ flags) →
  ∃ mb bits,
    maskbits_of (bitpos_map flags) fs = Some mb
    ∧ mapM (λ f, bit mask <$> bitpos_map flags !! f) fs = Some bits
    ∧ 0 ≤ mb
    ∧ (∀ i, Z.testbit mb i = true ↔ ∃ f, f ∈ fs ∧ bitpos_map flags !! f = Some i)
    ∧ ∀ n, (length flags ≤ n)%nat →
           foldr Z.add 0 bits = popcount_below n (Z.land mask mb).
Proof.
  induction 1 as [|f fs Hf Hnd IH]; intros Hdecl.
  - exists 0, []. split; [done|]. split; [done|]. split; [done|]. split.
    + intros i. rewrite Z.bits_0. split; [done|]. by intros (f & ?%elem_of_nil & _).
    + intros n _. rewrite Z.land_0_r. clear. induction n as [|k IH]; [done|].
      cbn. rewrite <- IH, Z.bits_0. done.
  - destruct IH as (mb & bits & Hmb & Hbits & Hnn & Htest & Hcount).
    { intros g Hg. apply Hdecl. by right. }
    destruct (proj1 (bitpos_map_declared flags f)) as [p Hp]; [apply Hdecl; by left|].
    destruct (bitpos_map_range _ _ _ Hp) as [Hrange Hlook].
    assert (Hfresh : Z.testbit mb p = false).
    { destruct (Z.testbit mb p) eqn:E; [|done].
      apply Htest in E as (g & Hg & Hgp).
      destruct (bitpos_map_range _ _ _ Hgp) as [_ Hlook']. congruence. }
    assert (Hdisj : ∀ i, Z.testbit (Z.shiftl 1 p) i = true → Z.testbit mb i = true → False).
    { intros i. rewrite testbit_one_shiftl by lia. intros ->%bool_decide_eq_true.
      by rewrite Hfresh. }
    assert (Hsum : Z.shiftl 1 p + mb = Z.lor (Z.shiftl 1 p) mb).
    { rewrite Z.add_nocarry_lxor, Z.lxor_lor; [done| |];
        apply Z.bits_inj'; intros i _; rewrite Z.land_spec, Z.bits_0;
        destruct (Z.testbit (Z.shiftl 1 p) i) eqn:E1, (Z.testbit mb i) eqn:E2; try done;
        by destruct (Hdisj i). }
    unfold maskbits_of in Hmb |- *. cbn [mapM].
    rewrite Hp. cbn [mbind option_bind fmap option_fmap option_map].
    destruct (mapM (λ f0, bitpos_map flags !! f0) fs) as [ps|] eqn:Hps; [|done].
    cbn in Hmb. injection Hmb as Hmb.
    rewrite Hbits. cbn.
    exists (Z.shiftl 1 p + mb), (bit mask p :: bits).
    rewrite <- Hmb at 1. split; [done|]. split; [done|]. split.
    { rewrite Z.shiftl_1_l. assert (0 < 2 ^ p) by (apply Z.pow_pos_nonneg; lia). lia. }
    split.
    + intros i. rewrite Hsum, Z.lor_spec, orb_true_iff, Htest, testbit_one_shiftl by lia.
      rewrite bool_decide_eq_true. split.
      * intros [->|(g & Hg & Hgi)]; [exists f; split; [by left | done]|].
        exists g. split; [by right | done].
      * intros (g & [->|Hg]%elem_of_cons & Hgi); [left; congruence | right; by exists g].
    + intros n Hn. cbn [foldr]. rewrite (Hcount n Hn), Hsum, Z.land_lor_distr_r.
      rewrite popcount_below_lor.
      * rewrite popcount_below_single by lia. by rewrite bit_testbit.
      * intros i. rewrite !Z.land_spec. intros [_ H1]%andb_prop [_ H2]%andb_prop.
        by destruct (Hdisj i).
Qed.

(** X7: the two readings of ONEOF agree on a list without repeated flags.
    For declared flags the mask [maskbits] of the emitted predicate has
    exactly the bits of the listed flags, and the number of set bits of
    [mask & maskbits], which the predicate compares with 1, is the count
    the enumerator compares with 1. *)
Theorem oneof_maskbits_agrees (flags fs : list string) (mask : Z) :
  NoDup fs → (∀ f, f ∈ fs → f ∈ flags) →
  ∃ mb,
    maskbits_of (bitpos_map flags) fs = Some mb
    ∧ (∀ i, Z.testbit mb i = true ↔ ∃ f, f ∈ fs ∧ bitpos_map flags !! f = Some i)
    ∧ (check_constraint (bitpos_map flags) mask (ONEOF fs)
       = Some (popcount_below (length flags) (Z.land mask mb) =? 1)).
Proof.
  intros Hnd Hdecl.
  destruct (maskbits_spec flags fs mask Hnd Hdecl) as (mb & bits & Hmb & Hbits & _ & Htest & Hcount).
  exists mb. split; [done|]. split; [done|].
  unfold check_constraint. cbn. rewrite Hbits. cbn. by rewrite (Hcount (length flags)).
Qed.

Lemma oneof_maskbits_agrees_witness :
  ∃ mb,
    maskbits_of (bitpos_map ["a"; "b"; "c"]%string) ["c"; "a"]%string = Some mb
    ∧ (∀ i, Z.testbit mb i = true
            ↔ ∃ f, f ∈ ["c"; "a"]%string ∧ bitpos_map ["a"; "b"; "c"]%string !! f = Some i)
    ∧ (check_constraint (bitpos_map ["a"; "b"; "c"]%string) 6 (ONEOF ["c"; "a"])
       = Some (popcount_below (length ["a"; "b"; "c"]%string) (Z.land 6 mb) =? 1)).
Proof.
  apply (oneof_maskbits_agrees ["a"; "b"; "c"]%string ["c"; "a"]%string 6).
  - repeat constructor; intros Hin; repeat (apply elem_of_cons in Hin as [Hin|Hin]; [done|]);
      by apply elem_of_nil in Hin.
  - intros f Hin. repeat (apply elem_of_cons in Hin as [->|Hin]; [repeat first [by left | right]|]).
    by apply elem_of_nil in Hin.
Defined.

(** ** The equivalence reducer against the enumerator *)

Lemma bit_wf_reducer_wf (flags : list string) (c : constraint) :
  bit_constraint_wf flags c = true → reducer_constraint_wf flags c = true.
Proof.
  unfold bit_constraint_wf, reducer_constraint_wf.
  destruct (type_upper c) as [t|]; [|done].
  destruct (String.eqb t "EQUIV") eqn:E1; cbn.
  { apply String.eqb_eq in E1 as ->. done. }
  destruct (String.eqb t "IMPLIES") eqn:E2; cbn; [done|].
  by intros _.
Qed.

Lemma edge_same_bit (flags : list string) (cs : list constraint) (mask : Z) (x y : string) :
  satisfies_bit_only (bitpos_map flags) cs mask →
  edge cs x y →
  flag_bit (bitpos_map flags) mask x = flag_bit (bitpos_map flags) mask y.
Proof.
  intros Hs [(c & Hc & Ht & Hab)|[(c & Hc & Ht & Ha & Hb) (c' & Hc' & Ht' & Ha' & Hb')]].
  - destruct Hab as [[Ha Hb]|[Ha Hb]].
    + apply (Hs c (REquiv x y) Hc). unfold rule_of. by rewrite Ht, Ha, Hb.
    + symmetry. apply (Hs c (REquiv y x) Hc). unfold rule_of. by rewrite Ht, Ha, Hb.
  - assert (H1 := Hs c (RImplies x y) Hc). assert (H2 := Hs c' (RImplies y x) Hc').
    unfold rule_of in H1, H2. rewrite Ht, Ha, Hb in H1. rewrite Ht', Ha', Hb' in H2.
    specialize (H1 eq_refl). specialize (H2 eq_refl). cbn in H1, H2.
    destruct (flag_bit _ mask x), (flag_bit _ mask y); try done.
    + by destruct H1.
    + by destruct H2.
Qed.

Lemma connected_same_bit (flags : list string) (cs : list constraint) (mask : Z) (x y : string) :
  satisfies_bit_only (bitpos_map flags) cs mask →
  connected cs x y →
  flag_bit (bitpos_map flags) mask x = flag_bit (bitpos_map flags) mask y.
Proof.
  intros Hs. induction 1 as [|x z y Hxz _ IH]; [done|].
  rewrite <- IH. by apply edge_same_bit with cs.
Qed.

(** X8: the reducer merges only flags that every valid mask sets alike.
    On a well-formed model within its limit, two flags of one class of
    [scc_equivalence] have the same bit in every mask that
    [enumerate_valid_masks] returns. *)
Theorem merged_flags_agree (iter : gset string → list string) (m : model) :
  (∀ s, iter s ≡ₚ elements s) →
  forallb (bit_constraint_wf (m_flags m)) (m_constraints m) = true →
  Z.of_nat (length (m_flags m)) ≤ limit_bits_of m →
  ∃ comps masks,
    scc_equivalence iter (m_flags m) (m_constraints m) = Some comps
    ∧ enumerate_valid_masks m = Some masks
    ∧ ∀ C f g x, C ∈ comps → f ∈ C → g ∈ C → x ∈ masks →
        flag_bit (bitpos_map (m_flags m)) x f = flag_bit (bitpos_map (m_flags m)) x g.
Proof.
  intros Hiter Hwf Hle.
  destruct (scc_classes iter (m_flags m) (m_constraints m) Hiter) as (comps & Hscc & _ & Hclass & _).
  { rewrite forallb_forall in Hwf |- *. intros c Hc. by apply bit_wf_reducer_wf, Hwf. }
  destruct (enumerate_members m Hwf Hle) as (masks & Hmasks & Hmem & _).
  exists comps, masks. split; [done|]. split; [done|].
  intros C f g x (r & _ & HC)%Hclass Hf%HC Hg%HC [_ Hs]%Hmem.
  rewrite <- (connected_same_bit _ _ _ r f Hs Hf). by apply connected_same_bit with (m_constraints m).
Qed.

Lemma merged_flags_agree_witness :
  ∃ comps masks,
    scc_equivalence elements ["a"; "b"; "c"] [IMPLIES "a" "b"; IMPLIES "b" "a"] = Some comps
    ∧ enumerate_valid_masks
        (Model "m" ["a"; "b"; "c"] [] [IMPLIES "a" "b"; IMPLIES "b" "a"] None) = Some masks
    ∧ ∀ C f g x, C ∈ comps → f ∈ C → g ∈ C → x ∈ masks →
        flag_bit (bitpos_map ["a"; "b"; "c"]) x f = flag_bit (bitpos_map ["a"; "b"; "c"]) x g.
Proof.
  apply (merged_flags_agree elements
           (Model "m" ["a"; "b"; "c"] [] [IMPLIES "a" "b"; IMPLIES "b" "a"] None)).
  - intros s. reflexivity.
  - reflexivity.
  - vm_compute. congruence.
Defined.

Lemma bool_lists_length (n : nat) : length (bool_lists n) = (2 ^ n)%nat.
Proof.
  induction n as [|k IH]; [done|]. cbn [bool_lists].
  rewrite length_app, !length_fmap, IH. cbn. lia.
Qed.

Lemma elem_of_bool_lists (l : list bool) : l ∈ bool_lists (length l).
Proof.
  induction l as [|b l IH]; [by left|]. cbn [length bool_lists].
  apply elem_of_app. destruct b; [left | right]; apply list_elem_of_fmap; by exists l.
Qed.

Lemma class_reps (cs : list constraint) (flags : list string) (comps : list (gset string)) :
  (∀ C, C ∈ comps → ∃ f, f ∈ flags ∧ ∀ y, y ∈ C ↔ connected cs f y) →
  ∃ reps, Forall2 (λ C r, ∀ y, y ∈ C ↔ connected cs r y) comps reps.
Proof.
  induction comps as [|C comps IH]; intros Hclass; [by exists []|].
  destruct IH as [reps Hreps]; [intros C' HC'; apply Hclass; by right|].
  destruct (Hclass C) as (r & _ & Hr); [by left|].
  exists (r :: reps). by constructor.
Qed.

Lemma testbit_above (x B i : Z) : 0 ≤ x < 2 ^ B → 0 ≤ B ≤ i → Z.testbit x i = false.
Proof.
  intros Hx Hi. rewrite <- (Z.mod_small x (2 ^ B)) by done.
  by apply Z.mod_pow2_bits_high.
Qed.

(** X9: the reported complexity [2^B_eff] bounds the enumeration. On a
    well-formed model with distinct flags, within its limit,
    [enumerate_valid_masks] returns at most [2^B_eff] masks, for the
    [B_eff] of [compute_B_eff]. With a repeated flag this fails: flags
    [a, a] without constraints have [B_eff = 1] and 4 masks. *)
Theorem valid_masks_at_most_pow_B_eff (iter : gset string → list string) (m : model) :
  (∀ s, iter s ≡ₚ elements s) →
  NoDup (m_flags m) →
  forallb (bit_constraint_wf (m_flags m)) (m_constraints m) = true →
  Z.of_nat (length (m_flags m)) ≤ limit_bits_of m →
  ∃ masks n,
    enumerate_valid_masks m = Some masks
    ∧ compute_B_eff iter (m_flags m) (m_constraints m) = Some n
    ∧ len masks ≤ 2 ^ n.
Proof.
  intros Hiter Hnd Hwf Hle.
  destruct (scc_classes iter (m_flags m) (m_constraints m) Hiter) as (comps & Hscc & Hcov & Hclass & _).
  { rewrite forallb_forall in Hwf |- *. intros c Hc. by apply bit_wf_reducer_wf, Hwf. }
  destruct (enumerate_members m Hwf Hle) as (masks & Hmasks & Hmem & Hndm).
  destruct (class_reps _ _ _ Hclass) as [reps Hreps].
  exists masks, (Z.of_nat (length comps)). split; [done|]. split.
  { unfold compute_B_eff. by rewrite Hscc. }
  set (key := λ x : Z, flag_bit (bitpos_map (m_flags m)) x <$> reps).
  assert (Hinj : ∀ x y, x ∈ masks → y ∈ masks → key x = key y → x = y).
  { intros x y [Hx Hsx]%Hmem [Hy Hsy]%Hmem Hkey.
    apply Z.bits_inj'. intros i Hi.
    destruct (decide (i < Z.of_nat (length (m_flags m)))) as [Hlt|Hge].
    - destruct (lookup_lt_is_Some_2 (m_flags m) (Z.to_nat i)) as [f Hf]; [lia|].
      assert (Hp : bitpos_map (m_flags m) !! f = Some i).
      { rewrite (bitpos_map_NoDup _ _ _ Hnd Hf). f_equal. lia. }
      destruct (Hcov f) as (C & HC & HfC); [by eapply list_elem_of_lookup_2|].
      apply list_elem_of_lookup in HC as [k Hk].
      destruct (Forall2_lookup_l _ _ _ _ _ Hreps Hk) as (r & Hr & HCr).
      apply HCr in HfC.
      assert (Hbit : ∀ z, satisfies_bit_only (bitpos_map (m_flags m)) (m_constraints m) z →
                          Z.testbit z i = flag_bit (bitpos_map (m_flags m)) z r).
      { intros z Hz. rewrite (connected_same_bit _ _ _ r f Hz HfC).
        unfold flag_bit. by rewrite Hp. }
      rewrite (Hbit x Hsx), (Hbit y Hsy).
      apply (f_equal (λ l, l !! k)) in Hkey. unfold key in Hkey.
      rewrite !list_lookup_fmap, Hr in Hkey. by injection Hkey.
    - rewrite (testbit_above x (Z.of_nat (length (m_flags m))) i) by lia.
      by rewrite (testbit_above y (Z.of_nat (length (m_flags m))) i) by lia. }
  assert (Hsub : key <$> masks ⊆+ bool_lists (length comps)).
  { apply NoDup_submseteq; [by apply NoDup_fmap_2_strong|].
    intros l (x & -> & _)%list_elem_of_fmap.
    replace (length comps) with (length (key x)); [apply elem_of_bool_lists|].
    unfold key. rewrite length_fmap. symmetry. by eapply Forall2_length. }
  apply submseteq_length in Hsub. rewrite length_fmap, bool_lists_length in Hsub.
  unfold len. apply Nat2Z.inj_le in Hsub. by rewrite Nat2Z.inj_pow in Hsub.
Qed.

Lemma valid_masks_at_most_pow_B_eff_witness :
  ∃ masks n,
    enumerate_valid_masks
      (Model "m" ["a"; "b"; "c"] [] [EQUIV "a" "b"; MUTEX "b" "c"] None) = Some masks
    ∧ compute_B_eff elements ["a"; "b"; "c"] [EQUIV "a" "b"; MUTEX "b" "c"] = Some n
    ∧ len masks ≤ 2 ^ n.
Proof.
  apply (valid_masks_at_most_pow_B_eff elements
           (Model "m" ["a"; "b"; "c"] [] [EQUIV "a" "b"; MUTEX "b" "c"] None)).
  - intros s. reflexivity.
  - cbn. repeat constructor; intros Hin;
      repeat (apply elem_of_cons in Hin as [Hin|Hin]; [done|]); by apply elem_of_nil in Hin.
  - reflexivity.
  - vm_compute. congruence.
Defined.

Lemma components_length (iter : gset string → list string)
    (adj : gmap string (gset string)) (fs : list string) :
  ∀ seen comps comps',
    components iter adj fs seen comps = Some comps' →
    (length comps ≤ length comps' ≤ length comps + length fs)%nat.
Proof.
  induction fs as [|f fs IH]; intros seen comps comps'; cbn [components].
  - intros [= <-]. cbn. lia.
  - destruct (decide (f ∈ seen)).
    + intros H%IH. cbn. lia.
    + destruct (dfs _ _ _ _ _ _) as [[seen' comp]|]; [|done]. cbn.
      intros H%IH. rewrite length_app in H. cbn in *. lia.
Qed.

Lemma rtc_loops {A : Type} (R : relation A) (x y : A) :
  (∀ a b, R a b → a = b) → rtc R x y → x = y.
Proof.
  intros Hloop. induction 1 as [|x z y Hxz _ IH]; [done|].
  by rewrite (Hloop x z Hxz).
Qed.

Lemma components_singletons (iter : gset string → list string)
    (adj : gmap string (gset string)) (fs : list string) :
  (∀ s, iter s ≡ₚ elements s) →
  (∀ x y, neighbour adj x y → y ∈ dom adj) →
  (∀ x y, neighbour adj x y → neighbour adj y x) →
  (∀ x y, neighbour adj x y → x = y) →
  ∀ seen comps,
    NoDup fs → (∀ f, f ∈ fs → f ∈ dom adj ∧ f ∉ seen) →
    components iter adj fs seen comps
    = Some (comps ++ ((λ f, {[f]} : gset string) <$> fs)).
Proof.
  intros Hiter Hclosed Hsym Hloop.
  induction fs as [|f fs IH]; intros seen comps Hnd Hfs; cbn [components].
  { cbn. by rewrite app_nil_r. }
  apply NoDup_cons in Hnd as [Hf Hnd].
  destruct (Hfs f) as [Hfd Hfs']; [by left|].
  rewrite decide_False by done.
  destruct (dfs_component iter Hiter adj Hclosed Hsym f seen Hfd Hfs')
    as (comp & Hdfs & _ & Hcomp).
  { intros x y Hx Hxy. by rewrite <- (Hloop x y Hxy). }
  assert (comp = {[f]}) as ->.
  { apply set_eq. intros y. rewrite Hcomp, elem_of_singleton. split; [|by intros ->].
    intros Hy. symmetry. by apply (rtc_loops (neighbour adj)). }
  rewrite Hdfs. cbn. rewrite IH; [by rewrite <- app_assoc|done|].
  intros g Hg. destruct (Hfs g) as [Hgd Hgs]; [by right|]. split; [done|].
  rewrite elem_of_union, elem_of_singleton. intros [?| ->]; [done|]. by apply Hf.
Qed.

(** X10: bounds of [B_eff]. Whenever [compute_B_eff] returns, its value
    lies between 0 and the number of flags. On a well-formed model it
    returns, with at least 1 when there is a flag; and when the flags are
    distinct and no EQUIV or mutual IMPLIES joins two different flags,
    every flag is a class of its own, in the order of declaration, and
    [B_eff = B]. *)
Theorem B_eff_bounds (iter : gset string → list string) (flags : list string)
    (cs : list constraint) :
  (∀ n, compute_B_eff iter flags cs = Some n → 0 ≤ n ≤ len flags)
  ∧ ((∀ s, iter s ≡ₚ elements s) →
     forallb (reducer_constraint_wf flags) cs = true →
     ∃ n, compute_B_eff iter flags cs = Some n
          ∧ (flags ≠ [] → 1 ≤ n)
          ∧ (NoDup flags → (∀ x y, edge cs x y → x = y) →
             scc_equivalence iter flags cs = Some ((λ f, {[f]} : gset string) <$> flags)
             ∧ n = len flags)).
Proof.
  split.
  - intros n. unfold compute_B_eff, scc_equivalence.
    destruct (for_each scan_constraint _ cs) as [[adj1 imp]|]; [|done]. cbn.
    destruct (for_each (link_mutual imp) _ _) as [adj|]; [|done]. cbn.
    destruct (components iter adj flags ∅ []) as [comps|] eqn:Hc; [|done]. cbn.
    intros [= <-]. apply components_length in Hc. unfold len. cbn in Hc. lia.
  - intros Hiter Hwf.
    destruct (adjacency_spec iter Hiter flags cs Hwf)
      as (adj1 & imp & adj & Hscan & Hlink & Hdom & Hnb).
    destruct (scc_classes iter flags cs Hiter Hwf) as (comps & Hscc & Hcov & _ & _).
    exists (Z.of_nat (length comps)). split; [unfold compute_B_eff; by rewrite Hscc|]. split.
    + intros Hne. destruct flags as [|f flags]; [done|].
      destruct (Hcov f) as (C & HC & _); [by left|].
      destruct comps; [by apply elem_of_nil in HC | cbn; lia].
    + intros Hnd Hloop.
      assert (Hsing : scc_equivalence iter flags cs
                      = Some ((λ f, {[f]} : gset string) <$> flags)).
      { unfold scc_equivalence. rewrite Hscan. cbn [mbind option_bind]. rewrite Hlink. cbn.
        assert (Hsym : ∀ x y, neighbour adj x y → neighbour adj y x).
        { intros x y. rewrite !Hnb. apply edge_sym. }
        rewrite (components_singletons iter adj flags Hiter); [done| |done| |done|].
        - intros x y Hxy. apply Hsym in Hxy as (s & Hs & _). by apply elem_of_dom_2 in Hs.
        - intros x y Hxy%Hnb. by apply Hloop.
        - intros f Hf. split; [|by apply not_elem_of_empty].
          rewrite Hdom. by apply elem_of_list_to_set. }
      split; [done|]. rewrite Hscc in Hsing. injection Hsing as ->.
      unfold len. by rewrite length_fmap.
Qed.

Lemma B_eff_bounds_witness :
  ∃ n, compute_B_eff elements ["a"; "b"] [MUTEX "a" "b"] = Some n
       ∧ (["a"; "b"]%string ≠ [] → 1 ≤ n)
       ∧ (NoDup ["a"; "b"]%string → (∀ x y, edge [MUTEX "a" "b"] x y → x = y) →
          scc_equivalence elements ["a"; "b"] [MUTEX "a" "b"]
          = Some ((λ f, {[f]} : gset string) <$> ["a"; "b"]%string)
          ∧ n = len ["a"; "b"]%string).
Proof.
  apply (proj2 (B_eff_bounds elements ["a"; "b"]%string [MUTEX "a" "b"])).
  - intros s. reflexivity.
  - reflexivity.
Defined.

Lemma adjacency_unique (adj adj' : gmap string (gset string)) :
  dom adj = dom adj' →
  (∀ x y, neighbour adj x y ↔ neighbour adj' x y) →
  adj = adj'.
Proof.
  intros Hdom Hnb. apply map_eq. intros x.
  destruct (adj !! x) as [s|] eqn:E, (adj' !! x) as [s'|] eqn:E'; [|exfalso..|done].
  - f_equal. apply set_eq. intros y. specialize (Hnb x y). unfold neighbour in Hnb.
    rewrite E, E' in Hnb. split; intros Hy.
    + destruct (proj1 Hnb) as (? & [= <-] & ?); [by exists s | done].
    + destruct (proj2 Hnb) as (? & [= <-] & ?); [by exists s' | done].
  - apply elem_of_dom_2 in E. rewrite Hdom in E. apply elem_of_dom in E as [? E].
    congruence.
  - apply elem_of_dom_2 in E'. rewrite <- Hdom in E'. apply elem_of_dom in E' as [? E'].
    congruence.
Qed.

Lemma components_order_free (iter1 iter2 : gset string → list string)
    (adj : gmap string (gset string)) (fs : list string) :
  (∀ s, iter1 s ≡ₚ elements s) → (∀ s, iter2 s ≡ₚ elements s) →
  (∀ x y, neighbour adj x y → y ∈ dom adj) →
  (∀ x y, neighbour adj x y → neighbour adj y x) →
  (∀ f, f ∈ fs → f ∈ dom adj) →
  ∀ seen comps,
    (∀ x y, x ∈ seen → neighbour adj x y → y ∈ seen) →
    components iter1 adj fs seen comps = components iter2 adj fs seen comps.
Proof.
  intros H1 H2 Hclosed Hsym.
  induction fs as [|f fs IH]; intros Hfs seen comps Hseen; [done|]. cbn [components].
  assert (Hfs' : ∀ g, g ∈ fs → g ∈ dom adj) by (intros g Hg; apply Hfs; by right).
  destruct (decide (f ∈ seen)) as [Hin|Hout]; [by apply IH|].
  assert (Hfd : f ∈ dom adj) by (apply Hfs; by left).
  destruct (dfs_component iter1 H1 adj Hclosed Hsym f seen Hfd Hout Hseen)
    as (comp1 & Hdfs1 & _ & Hcomp1).
  destruct (dfs_component iter2 H2 adj Hclosed Hsym f seen Hfd Hout Hseen)
    as (comp2 & Hdfs2 & _ & Hcomp2).
  assert (comp2 = comp1) as ->.
  { apply set_eq. intros y. by rewrite Hcomp1, Hcomp2. }
  rewrite Hdfs1, Hdfs2. cbn. apply IH; [done|].
  intros x y [Hx|Hx]%elem_of_union Hxy; apply elem_of_union.
  - left. by apply (Hseen x y).
  - right. apply Hcomp1. eapply rtc_r; [by apply Hcomp1 | done].
Qed.

(** X11: the classes do not depend on the order in which Python iterates
    over its sets. On a well-formed model [scc_equivalence] returns, and
    under any two iteration orders it returns the same classes in the same
    order, hence the same [B_eff]. *)
Theorem scc_equivalence_order_free (iter1 iter2 : gset string → list string)
    (flags : list string) (cs : list constraint) :
  (∀ s, iter1 s ≡ₚ elements s) → (∀ s, iter2 s ≡ₚ elements s) →
  forallb (reducer_constraint_wf flags) cs = true →
  is_Some (scc_equivalence iter1 flags cs)
  ∧ scc_equivalence iter1 flags cs = scc_equivalence iter2 flags cs
  ∧ compute_B_eff iter1 flags cs = compute_B_eff iter2 flags cs.
Proof.
  intros H1 H2 Hwf.
  assert (Heq : scc_equivalence iter1 flags cs = scc_equivalence iter2 flags cs).
  { destruct (adjacency_spec iter1 H1 flags cs Hwf)
      as (adj1 & imp & adj & Hscan & Hlink & Hdom & Hnb).
    destruct (adjacency_spec iter2 H2 flags cs Hwf)
      as (adj1' & imp' & adj' & Hscan' & Hlink' & Hdom' & Hnb').
    rewrite Hscan in Hscan'. injection Hscan' as <- <-.
    assert (adj' = adj) as ->.
    { apply adjacency_unique; [by rewrite Hdom, Hdom'|].
      intros x y. by rewrite Hnb, Hnb'. }
    unfold scc_equivalence. rewrite Hscan. cbn [mbind option_bind].
    rewrite Hlink, Hlink'. cbn.
    assert (Hsym : ∀ x y, neighbour adj x y → neighbour adj y x).
    { intros x y. rewrite !Hnb. apply edge_sym. }
    apply components_order_free; [done|done| |done| |].
    - intros x y Hxy. apply Hsym in Hxy as (s & Hs & _). by apply elem_of_dom_2 in Hs.
    - intros f Hf. rewrite Hdom. by apply elem_of_list_to_set.
    - by intros x y ?%elem_of_empty. }
  split; [|split; [done|]].
  - destruct (scc_classes iter1 flags cs H1 Hwf) as (comps & -> & _). by exists comps.
  - unfold compute_B_eff. by rewrite Heq.
Qed.

Lemma scc_equivalence_order_free_witness :
  is_Some (scc_equivalence elements ["a"; "b"; "c"] [IMPLIES "a" "b"; IMPLIES "b" "a"])
  ∧ scc_equivalence elements ["a"; "b"; "c"] [IMPLIES "a" "b"; IMPLIES "b" "a"]
    = scc_equivalence (λ s, reverse (elements s)) ["a"; "b"; "c"]
        [IMPLIES "a" "b"; IMPLIES "b" "a"]
  ∧ compute_B_eff elements ["a"; "b"; "c"] [IMPLIES "a" "b"; IMPLIES "b" "a"]
    = compute_B_eff (λ s, reverse (elements s)) ["a"; "b"; "c"]
        [IMPLIES "a" "b"; IMPLIES "b" "a"].
Proof.
  apply (scc_equivalence_order_free elements (λ s, reverse (elements s))
           ["a"; "b"; "c"]%string [IMPLIES "a" "b"; IMPLIES "b" "a"]).
  - intros s. reflexivity.
  - intros s. apply reverse_Permutation.
  - reflexivity.
Defined.

(** ** When the emitter returns *)

Lemma collect_is_Some {A B : Type} (f : A → option (list B)) (l : list A) :
  is_Some (collect f l) ↔ ∀ x, x ∈ l → is_Some (f x).
Proof.
  induction l as [|x l IH]; cbn.
  - split; [by intros _ y ?%elem_of_nil | by eexists].
  - split.
    + intros Hs y. destruct (f x) as [ys|] eqn:Hx; [|cbn in Hs; by apply is_Some_None in Hs].
      cbn in Hs.
      destruct (collect f l) as [rest|]; [|cbn in Hs; by apply is_Some_None in Hs].
      intros [->|Hy]%elem_of_cons; [by rewrite Hx|]. apply IH; [by eexists | done].
    + intros Hall. destruct (Hall x) as [ys ->]; [by left|]. cbn.
      destruct (proj2 IH) as [rest ->]; [intros y Hy; apply Hall; by right|].
      by eexists.
Qed.

Lemma declared_is_Some (flags : list string) (f : string) :
  is_Some (bitpos_map flags !! f) ↔ declared flags f = true.
Proof. by rewrite declared_elem_of, bitpos_map_declared. Qed.

Lemma maskbits_is_Some (flags fs : list string) :
  is_Some (maskbits_of (bitpos_map flags) fs) ↔ forallb (declared flags) fs = true.
Proof.
  unfold maskbits_of. induction fs as [|f fs IH]; cbn.
  - split; [done | by eexists].
  - rewrite andb_true_iff, <- declared_is_Some, <- IH.
    destruct (bitpos_map flags !! f) as [p|]; cbn.
    + destruct (mapM _ fs) as [ps|]; cbn; split.
      * intros _. split; by eexists.
      * intros _. by eexists.
      * intros [? [=]].
      * intros [_ [? [=]]].
    + split; [intros [? [=]] | intros [[? [=]] _]].
Qed.

Ltac is_Some_fields :=
  repeat match goal with
    | |- context [c_a ?c] => destruct (c_a c) as [?|]
    | |- context [c_b ?c] => destruct (c_b c) as [?|]
    | |- context [c_if_flag ?c] => destruct (c_if_flag c) as [?|]
    | |- context [c_condition ?c] => destruct (c_condition c) as [?|]
    end; cbn;
  repeat match goal with
    | |- context [bitpos_map ?fl !! ?f] =>
        let E := fresh "E" in
        let D := fresh "D" in
        destruct (bitpos_map fl !! f) eqn:E;
        [assert (D : declared fl f = true) by (apply declared_is_Some; by eexists)
        |assert (D : declared fl f = false)
           by (apply not_true_is_false; intros D%declared_is_Some; rewrite E in D;
               by destruct D)];
        try rewrite D; cbn
    end;
  first [split; [by intros [? [=]] | done]
        |split; [done | intros _; exact (ex_intro _ _ eq_refl)]].

Lemma bit_pred_is_Some (flags : list string) (mask_expr : string) (c : constraint) :
  is_Some (bit_pred_of (bitpos_map flags) mask_expr c) ↔ bit_constraint_wf flags c = true.
Proof.
  unfold bit_pred_of, bit_constraint_wf.
  destruct (type_upper c) as [t|]; cbn; [|split; [by intros [? [=]] | done]].
  destruct (String.eqb t "IMPLIES"); cbn; [is_Some_fields|].
  destruct (String.eqb t "EQUIV"); cbn; [is_Some_fields|].
  destruct (String.eqb t "MUTEX"); cbn; [is_Some_fields|].
  destruct (String.eqb t "ONEOF"); cbn; [|split; [done | intros _; exact (ex_intro _ _ eq_refl)]].
  destruct (c_flags c) as [fs|]; cbn; [|split; [by intros [? [=]] | done]].
  rewrite <- maskbits_is_Some. destruct (maskbits_of _ fs); cbn; [|done].
  split; intros _; by eexists.
Qed.

Lemma bit_explain_is_Some (flags : list string) (c : constraint) :
  is_Some (bit_explain_of (bitpos_map flags) c) ↔ bit_constraint_wf flags c = true.
Proof.
  unfold bit_explain_of, bit_constraint_wf.
  destruct (type_upper c) as [t|]; cbn; [|split; [by intros [? [=]] | done]].
  destruct (String.eqb t "IMPLIES"); cbn; [is_Some_fields|].
  destruct (String.eqb t "EQUIV"); cbn; [is_Some_fields|].
  destruct (String.eqb t "MUTEX"); cbn; [is_Some_fields|].
  destruct (String.eqb t "ONEOF"); cbn; [|split; [done | intros _; exact (ex_intro _ _ eq_refl)]].
  destruct (c_flags c) as [fs|]; cbn; [|split; [by intros [? [=]] | done]].
  rewrite <- maskbits_is_Some. destruct (maskbits_of _ fs); cbn; [|done].
  split; intros _; by eexists.
Qed.

Lemma cat_rule_is_Some (flags : list string) (mask_expr : string) (c : constraint) :
  is_Some (cat_rule_of (bitpos_map flags) mask_expr c) ↔ cat_constraint_wf flags c = true.
Proof.
  unfold cat_rule_of, cat_constraint_wf.
  destruct (type_upper c) as [t|]; cbn; [|split; [by intros [? [=]] | done]].
  destruct (String.eqb t "FORBID_WHEN"); cbn; [is_Some_fields|].
  destruct (String.eqb t "FORBID_IF_SQL"); cbn; [is_Some_fields|].
  split; [done | intros _; exact (ex_intro _ _ eq_refl)].
Qed.

Lemma flag_lines_is_Some (flags : list string) (line : string → Z → string) :
  is_Some (mapM (λ f, p ← bitpos_map flags !! f; Some (line f p)) flags).
Proof.
  apply mapM_is_Some, Forall_forall. intros f Hf%bitpos_map_declared.
  destruct Hf as [p Hp]. cbn. rewrite Hp. by eexists.
Qed.

Lemma predicate_sql_is_Some (flags : list string) (cs : list constraint) (e : string) :
  is_Some (predicate_sql_for_bit_constraints flags cs e)
  ↔ forallb (bit_constraint_wf flags) cs = true.
Proof.
  rewrite forallb_true_iff. unfold predicate_sql_for_bit_constraints.
  etransitivity; [|etransitivity; [apply (collect_is_Some (bit_pred_of (bitpos_map flags) e) cs)|]].
  - destruct (collect _ cs); cbn; [|done]. split; intros _; exact (ex_intro _ _ eq_refl).
  - split; intros Hs c Hc; apply (bit_pred_is_Some flags e c); by apply Hs.
Qed.

Lemma bit_explain_unions_is_Some (flags : list string) (cs : list constraint) :
  is_Some (bit_explain_unions flags cs) ↔ forallb (bit_constraint_wf flags) cs = true.
Proof.
  rewrite forallb_true_iff. unfold bit_explain_unions.
  etransitivity; [|etransitivity; [apply (collect_is_Some (bit_explain_of (bitpos_map flags)) cs)|]].
  - destruct (collect _ cs); cbn; [|done]. split; intros _; exact (ex_intro _ _ eq_refl).
  - split; intros Hs c Hc; apply (bit_explain_is_Some flags c); by apply Hs.
Qed.

Lemma cat_rule_preds_is_Some (flags : list string) (cats : list (string * list string))
    (cs : list constraint) (e : string) :
  is_Some (cat_rule_preds flags cats cs e) ↔ forallb (cat_constraint_wf flags) cs = true.
Proof.
  rewrite forallb_true_iff. unfold cat_rule_preds.
  etransitivity; [|etransitivity; [apply (collect_is_Some (cat_rule_of (bitpos_map flags) e) cs)|]].
  - destruct (collect _ cs); cbn; [|done]. split; intros _; exact (ex_intro _ _ eq_refl).
  - split; intros Hs c Hc; apply (cat_rule_is_Some flags e c); by apply Hs.
Qed.

Lemma emit_is_Some (m : model) :
  is_Some (emit_postgres_sql m)
  ↔ forallb (bit_constraint_wf (m_flags m)) (m_constraints m) = true
    ∧ forallb (cat_constraint_wf (m_flags m)) (m_constraints m) = true.
Proof.
  rewrite <- (predicate_sql_is_Some (m_flags m) (m_constraints m) "mask").
  rewrite <- (cat_rule_preds_is_Some (m_flags m) (m_categories m) (m_constraints m) "mask").
  pose proof (predicate_sql_is_Some (m_flags m) (m_constraints m) "m.mask") as Hpm.
  pose proof (predicate_sql_is_Some (m_flags m) (m_constraints m) "mask") as Hp.
  pose proof (cat_rule_preds_is_Some (m_flags m) (m_categories m) (m_constraints m) "m.mask")
    as Hcm.
  pose proof (cat_rule_preds_is_Some (m_flags m) (m_categories m) (m_constraints m) "mask")
    as Hc.
  pose proof (bit_explain_unions_is_Some (m_flags m) (m_constraints m)) as He.
  unfold emit_postgres_sql. cbv zeta.
  destruct (flag_lines_is_Some (m_flags m)
              (λ f p, cat ["-- "; rjust 24 f; " : bit "; str_int p])) as [hl Hhl].
  destruct (flag_lines_is_Some (m_flags m)
              (λ f p, cat ["("; _bit_expr p "mask"; ") AS "; dq; f; dq])) as [bl Hbl].
  cbv beta in Hhl, Hbl. rewrite Hhl, Hbl. cbn [mbind option_bind].
  destruct (predicate_sql_for_bit_constraints (m_flags m) (m_constraints m) "mask")
    as [bp|]; cbn [mbind option_bind]; [|split; [by intros ?%is_Some_None | by intros [?%is_Some_None _]]].
  destruct (cat_rule_preds (m_flags m) (m_categories m) (m_constraints m) "mask")
    as [[cp cu]|]; cbn [mbind option_bind]; [|split; [by intros ?%is_Some_None | by intros [_ ?%is_Some_None]]].
  destruct (predicate_sql_for_bit_constraints (m_flags m) (m_constraints m) "m.mask")
    as [bpm|]; cbn [mbind option_bind].
  2: { exfalso. apply (is_Some_None (A:=string)), Hpm, Hp. by eexists. }
  destruct (cat_rule_preds (m_flags m) (m_categories m) (m_constraints m) "m.mask")
    as [[cpm cum]|]; cbn [mbind option_bind].
  2: { exfalso. apply (is_Some_None (A:=list string * list string)), Hcm, Hc. by eexists. }
  destruct (bit_explain_unions (m_flags m) (m_constraints m)) as [bu|]; cbn [mbind option_bind].
  2: { exfalso. apply (is_Some_None (A:=string)), He, Hp. by eexists. }
  split; [intros _; split; by eexists | intros _; by eexists].
Qed.

(** X12: the emitter returns exactly on the models whose constraints all
    have the fields it reads and name declared flags: a tag; [a] and [b]
    for IMPLIES, EQUIV and MUTEX; [flags] for ONEOF; [if_flag] for
    FORBID_WHEN; [if_flag] and [condition] for FORBID_IF_SQL. On any other
    model it raises [KeyError], also where the enumerator does not read
    the missing field. *)
Theorem emit_returns_iff (m : model) :
  is_Some (emit_postgres_sql m)
  ↔ forallb (emit_constraint_wf (m_flags m)) (m_constraints m) = true.
Proof.
  rewrite emit_is_Some, !forallb_true_iff. unfold emit_constraint_wf. split.
  - intros [Hb Hc] c Hin. by rewrite Hb, Hc.
  - intros Hall. split; intros c Hc; by destruct (andb_prop _ _ (Hall c Hc)).
Qed.

(** ** Grouped digits, read back *)

Lemma remove_commas_app (a b : string) :
  remove_commas (a +:+ b) = remove_commas a +:+ remove_commas b.
Proof.
  induction a as [|c a IH]; [done|].
  rewrite append_cons. cbn [remove_commas]. rewrite IH.
  by destruct (Ascii.eqb c ",").
Qed.

Lemma remove_commas_free (s : string) : comma_free s → remove_commas s = s.
Proof.
  induction s as [|c s IH]; [done|]. intros [Hc Hs]. cbn [remove_commas].
  rewrite (proj2 (Ascii.eqb_neq c ",") Hc). by rewrite IH.
Qed.

Lemma comma_free_substring (s : string) :
  comma_free s → ∀ a b, comma_free (substring a b s).
Proof.
  induction s as [|c s IH]; intros Hs a b.
  - by destruct a, b.
  - destruct Hs as [Hc Hs]. destruct a as [|a]; [destruct b as [|b]|]; cbn; auto.
Qed.

Lemma substring_split (s : string) (k : nat) :
  (k ≤ String.length s)%nat →
  substring 0 k s +:+ substring k (String.length s - k) s = s.
Proof.
  revert k. induction s as [|c s IH]; intros k Hk.
  - cbn in Hk. by replace k with 0%nat by lia.
  - destruct k as [|k].
    + cbn [substring]. rewrite append_nil_l. cbn [String.length Nat.sub substring].
      f_equal. specialize (IH 0%nat). rewrite Nat.sub_0_r in IH.
      assert (substring 0 0 s = EmptyString) as Hz by (by destruct s).
      rewrite Hz, append_nil_l in IH. apply IH. lia.
    + cbn [substring String.length Nat.sub]. rewrite append_cons. f_equal.
      apply IH. cbn in Hk. lia.
Qed.

Lemma remove_commas_group3 (fuel : nat) (digits : string) :
  comma_free digits → remove_commas (group3 fuel digits) = digits.
Proof.
  revert digits. induction fuel as [|fuel IH]; intros digits Hd; cbn [group3].
  - by apply remove_commas_free.
  - destruct (Nat.leb_spec (String.length digits) 3) as [Hle|Hgt].
    + by apply remove_commas_free.
    + rewrite !remove_commas_app, IH by (by apply comma_free_substring).
      change (remove_commas ",") with EmptyString. rewrite append_nil_l.
      rewrite (remove_commas_free (substring _ 3 digits)) by (by apply comma_free_substring).
      pose proof (substring_split digits (String.length digits - 3)) as Hsp.
      replace (String.length digits - (String.length digits - 3))%nat with 3%nat in Hsp by lia.
      apply Hsp. lia.
Qed.

Lemma comma_free_digits (d : Decimal.uint) : comma_free (NilZero.string_of_uint d).
Proof.
  assert (Hne : ∀ u, comma_free (NilEmpty.string_of_uint u)).
  { induction u; cbn; auto. }
  destruct d; try apply Hne. cbn. auto.
Qed.

(** X13: the count that [estimate_sanity] formats with thousands
    separators is read back by [main]: deleting the commas from
    [f"{n:,}"] leaves [str(n)], for every integer. *)
Theorem fmt_commas_read_back (n : Z) : remove_commas (fmt_commas n) = str_int n.
Proof.
  unfold fmt_commas. rewrite remove_commas_app.
  assert (Hfree : comma_free (str_int (Z.abs n))).
  { unfold str_int. destruct (Z.abs n); cbn [Z.to_int NilZero.string_of_int];
      first [apply comma_free_digits | split; [done | apply comma_free_digits]]. }
  rewrite remove_commas_group3 by done.
  unfold str_int. destruct n as [|p|p]; cbn [Z.ltb Z.compare Z.abs]; try done.
Qed.

Lemma enumerate_is_Some (m : model) :
  forallb (bit_constraint_wf (m_flags m)) (m_constraints m) = true →
  is_Some (enumerate_valid_masks m).
Proof.
  intros Hwf. unfold enumerate_valid_masks. destruct (_ >? _); [by eexists|].
  destruct (filter_masks_spec (ok (bitpos_map (m_flags m)) (m_constraints m))
              (seqZ 0 (Z.shiftl 1 (Z.of_nat (length (m_flags m)))))) as (l & -> & _).
  { intros x _. destruct (ok_spec _ _ x Hwf) as (r & -> & _). by eexists. }
  by eexists.
Qed.

(** X14: a model the emitter accepts is accepted by the other phases:
    when [emit_postgres_sql] returns, so do [enumerate_valid_masks] and
    [compute_B_eff]. The converse fails: a FORBID_WHEN rule without
    [if_flag] passes both and makes the emitter raise. *)
Theorem emitted_model_enumerates :
  (∀ (iter : gset string → list string) (m : model),
     (∀ s, iter s ≡ₚ elements s) →
     is_Some (emit_postgres_sql m) →
     is_Some (enumerate_valid_masks m)
     ∧ is_Some (compute_B_eff iter (m_flags m) (m_constraints m)))
  ∧ (let m := Model "m" ["a"] [] [no_fields "FORBID_WHEN"] None in
     enumerate_valid_masks m = Some [0; 1]
     ∧ compute_B_eff elements (m_flags m) (m_constraints m) = Some 1
     ∧ emit_postgres_sql m = None).
Proof.
  split; [|by vm_compute].
  intros iter m Hiter [Hwf _]%emit_is_Some. split; [by apply enumerate_is_Some|].
  destruct (scc_classes iter (m_flags m) (m_constraints m) Hiter) as (comps & Hscc & _).
  { rewrite forallb_forall in Hwf |- *. intros c Hc. by apply bit_wf_reducer_wf, Hwf. }
  unfold compute_B_eff. rewrite Hscc. by eexists.
Qed.

Lemma emitted_model_enumerates_witness :
  is_Some (enumerate_valid_masks clinic_model)
  ∧ is_Some (compute_B_eff elements (m_flags clinic_model) (m_constraints clinic_model)).
Proof.
  apply (proj1 emitted_model_enumerates elements clinic_model).
  - intros s. reflexivity.
  - vm_compute. eexists. reflexivity.
Defined.

(** ** The category count *)

Lemma clamped_card_product_app (c1 c2 : list (string * list string)) :
  clamped_card_product (c1 ++ c2) = clamped_card_product c1 * clamped_card_product c2.
Proof.
  unfold clamped_card_product. induction c1 as [|[k vals] c1 IH]; cbn [app foldr].
  - lia.
  - rewrite IH. ring.
Qed.

Lemma clamped_card_product_pos (cats : list (string * list string)) :
  1 ≤ clamped_card_product cats.
Proof.
  unfold clamped_card_product. induction cats as [|[k vals] cats IH]; cbn [foldr]; [lia|].
  assert (1 ≤ Z.max 1 (len vals)) by lia. nia.
Qed.

(** X15: [count_category_leaves] is at least 1 for every dictionary of
    categories, multiplies when two dictionaries are put together, and
    does not depend on the order of the categories. So the theoretical
    maximum of the estimator is at least the number of valid masks, and
    positive whenever there is one. *)
Theorem count_category_leaves_product {F : Type} `{FloatOps F} :
  (∀ cats, 1 ≤ count_category_leaves cats)
  ∧ (∀ c1 c2, count_category_leaves (c1 ++ c2)
              = count_category_leaves c1 * count_category_leaves c2)
  ∧ (∀ c1 c2, c1 ≡ₚ c2 → count_category_leaves c1 = count_category_leaves c2)
  ∧ (∀ m vm (l : sanity_locals F),
       estimate_locals m vm = Ok l →
       len vm ≤ sl_theoretical_max l ∧ (vm ≠ [] → 0 < sl_theoretical_max l)).
Proof.
  split; [|split; [|split]].
  - intros cats. rewrite count_category_leaves_clamped. apply clamped_card_product_pos.
  - intros c1 c2. rewrite !count_category_leaves_clamped. apply clamped_card_product_app.
  - intros c1 c2 Hperm. rewrite !count_category_leaves_clamped.
    unfold clamped_card_product.
    induction Hperm as [|[k vals] c1 c2 _ IH|[k1 v1] [k2 v2] c|c1 c2 c3 _ IH1 _ IH2];
      cbn [foldr]; [done | by rewrite IH | ring | by rewrite IH1].
  - intros m vm l Hl.
    destruct (estimate_locals_Ok m vm l Hl) as (Hv & Hn & Ht & _).
    assert (Hpos := clamped_card_product_pos (m_categories m)).
    rewrite <- count_category_leaves_clamped, <- Hn in Hpos.
    assert (Hlen : 0 ≤ len vm) by (unfold len; lia).
    rewrite Ht, Hv. split; [nia|].
    intros Hne. assert (0 < len vm) by (unfold len; destruct vm; [done | cbn; lia]). nia.
Qed.

Lemma count_category_leaves_product_witness :
  ∃ l : sanity_locals Q,
    estimate_locals mutex_model [0; 1; 2] = Ok l
    ∧ len [0; 1; 2] ≤ sl_theoretical_max l
    ∧ ([0; 1; 2] ≠ [] → 0 < sl_theoretical_max l).
Proof.
  eexists. split; [vm_compute; reflexivity|].
  apply (proj2 (proj2 (proj2 (count_category_leaves_product (F:=Q)))) mutex_model [0; 1; 2]).
  vm_compute. reflexivity.
Defined.

(** ** The all-clear mask *)

Lemma flag_bit_zero (pos : gmap string Z) (f : string) : flag_bit pos 0 f = false.
Proof. unfold flag_bit. destruct (pos !! f); [apply Z.bits_0 | done]. Qed.

Lemma filter_flag_bit_zero (pos : gmap string Z) (fs : list string) :
  List.filter (flag_bit pos 0) fs = [].
Proof. induction fs as [|f fs IH]; [done|]. cbn. by rewrite flag_bit_zero. Qed.

(** X16: the mask 0, no flag set, is valid exactly when the model has no
    ONEOF constraint. On a well-formed model within its limit the
    enumeration contains 0 if and only if no constraint has the tag ONEOF,
    so a model without ONEOF never enumerates to the empty list. *)
Theorem zero_mask_valid_iff_no_oneof (m : model) :
  forallb (bit_constraint_wf (m_flags m)) (m_constraints m) = true →
  Z.of_nat (length (m_flags m)) ≤ limit_bits_of m →
  ∃ masks,
    enumerate_valid_masks m = Some masks
    ∧ (0 ∈ masks ↔ ∀ c, c ∈ m_constraints m → type_upper c ≠ Some "ONEOF"%string).
Proof.
  intros Hwf Hle.
  destruct (enumerate_members m Hwf Hle) as (masks & Hmasks & Hmem & _).
  exists masks. split; [done|]. rewrite Hmem. split.
  - intros [_ Hs] c Hc Ht.
    rewrite forallb_true_iff in Hwf. specialize (Hwf c Hc).
    unfold bit_constraint_wf in Hwf. rewrite Ht in Hwf. cbn in Hwf.
    destruct (c_flags c) as [fs|] eqn:Hfs; [|done].
    assert (Hr : rule_of c = Some (ROneof fs)) by (unfold rule_of; by rewrite Ht, Hfs).
    specialize (Hs c _ Hc Hr). cbn in Hs. by rewrite filter_flag_bit_zero in Hs.
  - intros Hno. split.
    { split; [done|]. apply Z.pow_pos_nonneg; lia. }
    intros c r Hc Hr. specialize (Hno c Hc). unfold rule_of in Hr.
    destruct (type_upper c) as [t|]; [|done]. cbn in Hr.
    destruct (String.eqb t "IMPLIES").
    { destruct (c_a c), (c_b c); try done. injection Hr as <-. cbn.
      rewrite !flag_bit_zero. by intros [? _]. }
    destruct (String.eqb t "EQUIV").
    { destruct (c_a c), (c_b c); try done. injection Hr as <-. cbn.
      by rewrite !flag_bit_zero. }
    destruct (String.eqb t "MUTEX").
    { destruct (c_a c), (c_b c); try done. injection Hr as <-. cbn.
      by rewrite !flag_bit_zero. }
    destruct (String.eqb_spec t "ONEOF") as [->|_]; [done|].
    destruct (String.eqb t "FORBID_WHEN").
    { destruct (c_if_flag c); [|done]. by injection Hr as <-. }
    destruct (String.eqb t "FORBID_IF_SQL"); [|done].
    destruct (c_if_flag c), (c_condition c); try done. by injection Hr as <-.
Qed.

Lemma zero_mask_valid_iff_no_oneof_witness :
  ∃ masks,
    enumerate_valid_masks mutex_model = Some masks
    ∧ (0 ∈ masks ↔ ∀ c, c ∈ m_constraints mutex_model → type_upper c ≠ Some "ONEOF"%string).
Proof.
  apply (zero_mask_valid_iff_no_oneof mutex_model); [reflexivity | vm_compute; congruence].
Defined.

(** ** The [KeyError]s of the estimator *)

Lemma no_key_error_bind {A B : Type} (r : result A) (k : A → result B) :
  r ≠ Raise KeyError → (∀ x, r = Ok x → k x ≠ Raise KeyError) →
  r ≫= k ≠ Raise KeyError.
Proof.
  intros Hr Hk. destruct r as [x|e]; [by apply Hk|].
  intros Heq. cbn in Heq. injection Heq as ->. by apply Hr.
Qed.

Lemma no_key_error_for_all {A B : Type} (f : A → result B) (l : list A) :
  (∀ x, x ∈ l → f x ≠ Raise KeyError) → for_all f l ≠ Raise KeyError.
Proof.
  induction l as [|x l IH]; intros Hf; [done|]. cbn.
  apply no_key_error_bind; [apply Hf; by left|]. intros y _.
  apply no_key_error_bind; [apply IH; intros z Hz; apply Hf; by right | done].
Qed.

Lemma no_key_error_gather {A B : Type} (f : A → result (list B)) (l : list A) :
  (∀ x, x ∈ l → f x ≠ Raise KeyError) → gather f l ≠ Raise KeyError.
Proof.
  induction l as [|x l IH]; intros Hf; [done|]. cbn.
  apply no_key_error_bind; [apply Hf; by left|]. intros y _.
  apply no_key_error_bind; [apply IH; intros z Hz; apply Hf; by right | done].
Qed.

Lemma no_key_error_accumulate {S A : Type} (body : S → A → result S) (l : list A) :
  (∀ s x, body s x ≠ Raise KeyError) → ∀ s, accumulate body s l ≠ Raise KeyError.
Proof.
  intros Hb. induction l as [|x l IH]; intros s; [done|]. cbn.
  apply no_key_error_bind; [done|]. intros s' _. apply IH.
Qed.

Lemma dict_lookup_is_Some {V : Type} (d : list (string * V)) (k : string) :
  k ∈ d.*1 → is_Some (dict_lookup d k).
Proof.
  induction d as [|[k' v] d IH]; [by intros ?%elem_of_nil|]. cbn.
  destruct (String.eqb_spec k' k) as [->|Hne]; [by eexists|].
  intros [?|Hk]%elem_of_cons; [congruence | by apply IH].
Qed.

Section KeyErrors.
Context {F : Type} `{FloatOps F}.
Hypothesis float_of_int_no_key_error : ∀ z, float_of_int z ≠ Raise KeyError.
Hypothesis int_truediv_no_key_error : ∀ a b, int_truediv a b ≠ Raise KeyError.
Hypothesis round_int_no_key_error : ∀ x, round_int x ≠ Raise KeyError.

Lemma prev_keys (pos : gmap string Z) (v : Z) (vm : list Z) (flags : list string) :
  ∀ prev, for_all (prev_of pos v vm) flags = Ok prev → prev.*1 = flags.
Proof.
  induction flags as [|f flags IH]; intros prev; cbn.
  - by intros [= <-].
  - intros (y & Hy & Hrest)%bind_Ok. apply bind_Ok in Hrest as (ys & Hys & [= <-]).
    cbn. rewrite (IH ys Hys). f_equal.
    unfold prev_of in Hy. destruct (0 <? v); [|by injection Hy as <-].
    apply bind_Ok in Hy as (p & _ & Hy). apply bind_Ok in Hy as (x & _ & [= <-]). done.
Qed.

Lemma estimate_locals_no_key_error (m : model) (vm : list Z) :
  forallb forbid_when_wf (m_constraints m) = true →
  estimate_locals m vm ≠ Raise KeyError.
Proof.
  intros Hwf. rewrite forallb_true_iff in Hwf. unfold estimate_locals.
  apply no_key_error_bind.
  { apply no_key_error_for_all. intros f [p Hp]%bitpos_map_declared. unfold prev_of.
    destruct (0 <? _); [|done]. rewrite Hp. cbn.
    apply no_key_error_bind; [done | by intros]. }
  intros prev Hprev%prev_keys. apply no_key_error_bind.
  { apply no_key_error_gather. intros c Hc. specialize (Hwf c Hc).
    unfold forbid_frac_of, forbid_when_wf in *.
    destruct (is_forbid_when c); [|done]. destruct (c_if_flag c) as [flag|]; [|done]. cbn.
    apply no_key_error_bind; [|by intros].
    apply no_key_error_accumulate. intros s entry.
    apply no_key_error_bind; [|by intros]. destruct entry. apply int_truediv_no_key_error. }
  intros fracs _. apply no_key_error_bind.
  { unfold int_mul_float. apply no_key_error_bind; [done | by intros]. }
  intros scaled _. apply no_key_error_bind; [done|].
  intros est _. apply no_key_error_bind.
  { apply no_key_error_for_all. intros k Hk. rewrite <- Hprev in Hk.
    destruct (dict_lookup_is_Some prev k Hk) as [x ->]. done. }
  intros items _. apply no_key_error_bind.
  { destruct (0 <? _); [|done]. apply no_key_error_gather. intros c Hc.
    specialize (Hwf c Hc). unfold note_piece, forbid_when_wf in *.
    destruct (is_forbid_when c); [|done]. destruct (c_if_flag c) as [flag|]; [|done]. cbn.
    destruct (default [] (c_when c)) as [|entry ?]; [done|].
    apply no_key_error_bind; [|by intros]. destruct entry. apply int_truediv_no_key_error. }
  intros pieces _. apply no_key_error_bind; [|by intros].
  destruct (0 <? _); [|done]. apply no_key_error_bind; [done | by intros].
Qed.
End KeyErrors.

(** X17: the only [KeyError] of [estimate_sanity] is a FORBID_WHEN rule
    without [if_flag]. A flag that is not declared, or a category that the
    model does not have, in a FORBID_WHEN rule does not make it raise: the
    prevalence and the category are read with a default. *)
Theorem estimate_key_error (m : model) (vm : list Z) :
  estimate_sanity (F:=float) m vm = Raise KeyError →
  ∃ c, c ∈ m_constraints m ∧ is_forbid_when c = true ∧ c_if_flag c = None.
Proof.
  intros Hraise.
  destruct (forallb forbid_when_wf (m_constraints m)) eqn:Hwf.
  - exfalso. unfold estimate_sanity in Hraise.
    destruct (estimate_locals m vm) as [l|e] eqn:Hl; [done|].
    cbn in Hraise. injection Hraise as ->. revert Hl.
    apply estimate_locals_no_key_error; [| | |done].
    + intros z. cbn. unfold Binary64.of_int. by destruct (Binary64.is_infinite _).
    + intros a b. cbn. unfold Binary64.truediv.
      repeat match goal with |- context [if ?b then _ else _] => destruct b end; done.
    + intros x. cbn. unfold Binary64.round. by destruct (Prim2SF x).
  - clear Hraise. induction (m_constraints m) as [|c cs IH]; [done|].
    cbn in Hwf. apply andb_false_iff in Hwf as [Hc|Hcs].
    + exists c. split; [by left|]. unfold forbid_when_wf in Hc.
      destruct (is_forbid_when c); [|done]. by destruct (c_if_flag c).
    + destruct (IH Hcs) as (c' & Hin & Hc'). exists c'. split; [by right | done].
Qed.

Lemma estimate_key_error_witness :
  ∃ c, c ∈ m_constraints (Model "m" ["a"] [] [no_fields "forbid_when"] None)
       ∧ is_forbid_when c = true ∧ c_if_flag c = None.
Proof.
  apply (estimate_key_error (Model "m" ["a"] [] [no_fields "forbid_when"] None) [0]).
  vm_compute. reflexivity.
Defined.

(** ** When the enumerator raises *)

Lemma filter_masks_None (p : Z → option bool) (ms : list Z) :
  filter_masks p ms = None ↔ ∃ x, x ∈ ms ∧ p x = None.
Proof.
  induction ms as [|m ms IH]; cbn.
  - split; [done | by intros (x & ?%elem_of_nil & _)].
  - destruct (p m) as [r|] eqn:Hm; cbn.
    + destruct (filter_masks p ms) as [rest|]; cbn.
      * split; [done|]. intros (x & [->|Hx]%elem_of_cons & Hp); [congruence|].
        assert (Some rest = None) as [=]. apply IH. by exists x.
      * split; [|done]. intros _. destruct (proj1 IH eq_refl) as (x & Hx & Hp).
        exists x. split; [by right | done].
    + split; [|done]. intros _. exists m. split; [by left | done].
Qed.

Lemma ok_None (pos : gmap string Z) (cs : list constraint) (x : Z) :
  ok pos cs x = None
  ↔ ∃ pre c post,
      cs = pre ++ c :: post
      ∧ Forall (λ c', check_constraint pos x c' = Some true) pre
      ∧ check_constraint pos x c = None.
Proof.
  induction cs as [|c cs IH]; cbn.
  - split; [done|]. intros (pre & c & post & Heq & _). by destruct pre.
  - destruct (check_constraint pos x c) as [[]|] eqn:Hc; cbn.
    + rewrite IH. split.
      * intros (pre & c' & post & -> & Hpre & Hc'). exists (c :: pre), c', post.
        split; [done|]. split; [by constructor | done].
      * intros (pre & c' & post & Heq & Hpre & Hc'). destruct pre as [|c0 pre].
        -- injection Heq as <- <-. congruence.
        -- injection Heq as <- ->. apply Forall_cons in Hpre as [_ Hpre].
           by exists pre, c', post.
    + split; [done|]. intros (pre & c' & post & Heq & Hpre & Hc'). destruct pre as [|c0 pre].
      * injection Heq as <- <-. congruence.
      * injection Heq as <- ->. apply Forall_cons in Hpre as [Hc0 _]. congruence.
    + split; [|done]. intros _. by exists [], c, cs.
Qed.

Lemma undeclared_pos (flags : list string) (f : string) :
  bitpos_map flags !! f = None ↔ f ∉ flags.
Proof.
  rewrite bitpos_map_declared. destruct (bitpos_map flags !! f) as [p|]; split.
  - done.
  - intros H. exfalso. apply H. by eexists.
  - intros _ [? [=]].
  - done.
Qed.

Lemma oneof_bits_is_None (flags : list string) (mask : Z) (fs : list string) :
  mapM (λ f, bit mask <$> bitpos_map flags !! f) fs = None ↔ ∃ f, f ∈ fs ∧ f ∉ flags.
Proof.
  rewrite mapM_None, Exists_exists. split.
  - intros (f & Hf & Hnone). exists f. split; [done|]. apply undeclared_pos.
    by destruct (bitpos_map flags !! f).
  - intros (f & Hf & Hnot%undeclared_pos). exists f. split; [done|]. by rewrite Hnot.
Qed.

(** What one check of [ok] does, for every constraint and every mask. *)
Lemma check_constraint_outcome (flags : list string) (x : Z) (c : constraint) :
  (check_constraint (bitpos_map flags) x c = None ↔ unreadable_at flags x c)
  ∧ (check_constraint (bitpos_map flags) x c = Some true ↔ passes_at flags x c).
Proof.
  unfold passes_at, unreadable_at, check_constraint, rule_of.
  destruct (type_upper c) as [t|]; cbn [mbind option_bind]; [|by split; [|split; [|intros [[] _]]]].
  case_tag t; cbn [orb].
  - destruct (c_a c) as [a|], (c_b c) as [b|]; cbn [mbind option_bind];
      try by split; [|split; [|intros [[] _]]].
    destruct (bitpos_map flags !! a) as [pa|] eqn:Ha; cbn [mbind option_bind].
    2: { apply undeclared_pos in Ha. split; [split; [by left | done]|].
         split; [done|]. intros [Hn _]. exfalso. apply Hn. by left. }
    assert (Hina : a ∈ flags) by (apply bitpos_map_declared; by eexists).
    rewrite (flag_bit_pos _ x _ _ Ha).
    destruct (flag_bit (bitpos_map flags) x a) eqn:Fa; cbn [Z.b2z Z.eqb].
    + destruct (bitpos_map flags !! b) as [pb|] eqn:Hb; cbn [mbind option_bind].
      2: { apply undeclared_pos in Hb. split; [split; [by right | done]|].
           split; [done|]. intros [Hn _]. exfalso. apply Hn. by right. }
      assert (Hinb : b ∈ flags) by (apply bitpos_map_declared; by eexists).
      rewrite (flag_bit_pos _ x _ _ Hb). split.
      * split; [done|]. by intros [?|[_ ?]].
      * destruct (flag_bit (bitpos_map flags) x b) eqn:Fb; cbn.
        -- split; [|done]. intros _. split; [by intros [?|[_ ?]]|].
           intros r [= <-]. cbn. rewrite Fb. by intros [_ ?].
        -- split; [done|]. intros [_ Hr]. specialize (Hr _ eq_refl). cbn in Hr.
           exfalso. by apply Hr.
    + split.
      * split; [done|]. by intros [?|[? _]].
      * split; [|done]. intros _. split; [by intros [?|[? _]]|].
        intros r [= <-]. cbn. rewrite Fa. by intros [? _].
  - destruct (c_a c) as [a|], (c_b c) as [b|]; cbn [mbind option_bind];
      try by split; [|split; [|intros [[] _]]].
    destruct (bitpos_map flags !! a) as [pa|] eqn:Ha; cbn [mbind option_bind].
    2: { apply undeclared_pos in Ha. split; [split; [by left | done]|].
         split; [done|]. intros [Hn _]. exfalso. apply Hn. by left. }
    destruct (bitpos_map flags !! b) as [pb|] eqn:Hb; cbn [mbind option_bind].
    2: { apply undeclared_pos in Hb. split; [split; [by right | done]|].
         split; [done|]. intros [Hn _]. exfalso. apply Hn. by right. }
    assert (Hina : a ∈ flags) by (apply bitpos_map_declared; by eexists).
    assert (Hinb : b ∈ flags) by (apply bitpos_map_declared; by eexists).
    rewrite (flag_bit_pos _ x _ _ Ha), (flag_bit_pos _ x _ _ Hb). split.
    + split; [done|]. by intros [?|?].
    + destruct (flag_bit (bitpos_map flags) x a) eqn:Fa,
               (flag_bit (bitpos_map flags) x b) eqn:Fb; cbn.
      all: first
        [split; [intros _; split; [by intros [?|?]|]; intros r [= <-]; cbn;
                 by rewrite Fa, Fb
                |done]
        |split; [done|]; intros [_ Hr]; specialize (Hr _ eq_refl); cbn in Hr;
         rewrite Fa, Fb in Hr; done].
  - destruct (c_a c) as [a|], (c_b c) as [b|]; cbn [mbind option_bind];
      try by split; [|split; [|intros [[] _]]].
    destruct (bitpos_map flags !! a) as [pa|] eqn:Ha; cbn [mbind option_bind].
    2: { apply undeclared_pos in Ha. split; [split; [by left | done]|].
         split; [done|]. intros [Hn _]. exfalso. apply Hn. by left. }
    destruct (bitpos_map flags !! b) as [pb|] eqn:Hb; cbn [mbind option_bind].
    2: { apply undeclared_pos in Hb. split; [split; [by right | done]|].
         split; [done|]. intros [Hn _]. exfalso. apply Hn. by right. }
    assert (Hina : a ∈ flags) by (apply bitpos_map_declared; by eexists).
    assert (Hinb : b ∈ flags) by (apply bitpos_map_declared; by eexists).
    rewrite (flag_bit_pos _ x _ _ Ha), (flag_bit_pos _ x _ _ Hb). split.
    + split; [done|]. by intros [?|?].
    + destruct (flag_bit (bitpos_map flags) x a) eqn:Fa,
               (flag_bit (bitpos_map flags) x b) eqn:Fb; cbn.
      all: first
        [split; [intros _; split; [by intros [?|?]|]; intros r [= <-]; cbn;
                 rewrite Fa, Fb; cbn; lia
                |done]
        |split; [done|]; intros [_ Hr]; specialize (Hr _ eq_refl); cbn in Hr;
         rewrite Fa, Fb in Hr; cbn in Hr; lia].
  - destruct (c_flags c) as [fs|]; cbn [mbind option_bind];
      [|by split; [|split; [|intros [[] _]]]].
    destruct (mapM (λ f, bit x <$> bitpos_map flags !! f) fs) as [bits|] eqn:Hbits;
      cbn [mbind option_bind].
    + assert (Hdecl : ∀ f, f ∈ fs → is_Some (bitpos_map flags !! f)).
      { intros f Hf. destruct (bitpos_map flags !! f) eqn:Hp; [by eexists|].
        exfalso. assert (Hn : mapM (λ f, bit x <$> bitpos_map flags !! f) fs = None).
        { apply oneof_bits_is_None. exists f. split; [done|]. by apply undeclared_pos. }
        congruence. }
      assert (Hread : ¬ ∃ f, f ∈ fs ∧ f ∉ flags).
      { intros (f & Hf & Hnot). apply Hnot, bitpos_map_declared, Hdecl, Hf. }
      destruct (oneof_bits (bitpos_map flags) x fs Hdecl) as (bits' & Hbits' & Hsum).
      rewrite Hbits in Hbits'. injection Hbits' as <-. split; [by split|].
      rewrite Hsum. split.
      * intros [= Heq%Z.eqb_eq]. split; [done|]. intros r [= <-]. cbn. lia.
      * intros [_ Hr]. specialize (Hr _ eq_refl). cbn in Hr. f_equal.
        apply Z.eqb_eq. lia.
    + apply oneof_bits_is_None in Hbits. split; [by split|].
      split; [done|]. by intros [Hn _].
  - split; [by split|]. split; [|done]. intros _. split; [by intros []|].
    intros r.
    destruct (String.eqb t "FORBID_WHEN").
    { destruct (c_if_flag c); cbn; [by intros [= <-] | done]. }
    destruct (String.eqb t "FORBID_IF_SQL"); [|done].
    destruct (c_if_flag c), (c_condition c); cbn; try done. by intros [= <-].
Qed.

Lemma ok_outcome (flags : list string) (cs : list constraint) (x : Z) :
  ok (bitpos_map flags) cs x = None
  ↔ ∃ pre c post,
      cs = pre ++ c :: post
      ∧ Forall (passes_at flags x) pre
      ∧ unreadable_at flags x c.
Proof.
  rewrite ok_None. split.
  - intros (pre & c & post & Hcs & Hpre & Hc). exists pre, c, post.
    split; [done|]. split; [|by apply check_constraint_outcome].
    eapply Forall_impl; [done|]. intros c' Hc'. by apply check_constraint_outcome.
  - intros (pre & c & post & Hcs & Hpre & Hc). exists pre, c, post.
    split; [done|]. split; [|by apply check_constraint_outcome].
    eapply Forall_impl; [done|]. intros c' Hc'. by apply check_constraint_outcome.
Qed.

(** X18: the enumerator raises [KeyError] exactly when the model is
    within its limit and some mask of the range passes every constraint
    before one that cannot be read at that mask: one without a tag or
    without a field its type needs, an EQUIV, MUTEX or ONEOF on a flag
    that is not declared, an IMPLIES whose [a] is not declared, or whose
    [b] is not declared while the mask sets [a]. The tag is read in upper
    case, and a constraint of any other type is read no further. A
    constraint that no mask reaches is never read: after ONEOF([]) an
    IMPLIES without fields does not raise, nor does any constraint of a
    model beyond its limit. *)
Theorem enumerate_raises_iff (m : model) :
  let B := Z.of_nat (length (m_flags m)) in
  let limit := match m_enumeration_limit_bits m with Some n => n | None => 22 end in
  (enumerate_valid_masks m = None
   ↔ B ≤ limit
     ∧ ∃ x pre c post,
         0 ≤ x < 2 ^ B
         ∧ m_constraints m = pre ++ c :: post
         ∧ Forall (passes_at (m_flags m) x) pre
         ∧ unreadable_at (m_flags m) x c)
  ∧ enumerate_valid_masks (Model "m" ["a"] [] [no_fields "IMPLIES"] None) = None
  ∧ enumerate_valid_masks (Model "m" ["a"] [] [no_fields "implies"] None) = None
  ∧ enumerate_valid_masks (Model "m" ["a"] [] [no_fields "foo"] None) = Some [0; 1]
  ∧ enumerate_valid_masks (Model "m" ["a"] [] [ONEOF []; no_fields "IMPLIES"] None)
    = Some []
  ∧ enumerate_valid_masks (Model "m" ["a"] [] [no_fields "IMPLIES"] (Some 0)) = Some []
  ∧ enumerate_valid_masks (Model "m" ["a"] [] [IMPLIES "a" "zz"] None) = None
  ∧ enumerate_valid_masks (Model "m" ["a"] [] [ONEOF ["a"]; IMPLIES "zz" "a"] None) = None
  ∧ enumerate_valid_masks (Model "m" ["a"; "b"] [] [MUTEX "a" "a"; IMPLIES "a" "zz"] None)
    = Some [0; 2].
Proof.
  intros B limit. split; [|repeat split; vm_compute; reflexivity].
  assert (Hlimit : limit_bits_of m = limit).
  { unfold limit_bits_of, limit. by destruct (m_enumeration_limit_bits m). }
  unfold enumerate_valid_masks. fold B. rewrite Hlimit.
  destruct (Z.gtb_spec B limit) as [Hgt|Hle].
  - split; [done|]. intros [? _]. lia.
  - rewrite filter_masks_None, Z.shiftl_1_l. split.
    + intros (x & Hx%elem_of_seqZ & (pre & c & post & H1 & H2 & H3)%ok_outcome).
      split; [done|]. exists x, pre, c, post. split; [lia | done].
    + intros (_ & x & pre & c & post & Hx & H1 & H2 & H3).
      exists x. split; [apply elem_of_seqZ; lia|]. apply ok_outcome. by exists pre, c, post.
Qed.

(** ** When the reducer returns *)

Lemma add_edge_is_Some (a b : string) (adj : gmap string (gset string)) :
  is_Some (add_edge a b adj) ↔ a ∈ dom adj ∧ b ∈ dom adj.
Proof.
  split.
  - unfold add_edge. intros [adj' Hadj].
    destruct (adj !! a) as [sa|] eqn:Ha; [|done]. cbn in Hadj.
    destruct (<[a := {[b]} ∪ sa]> adj !! b) as [sb|] eqn:Hb; [|done].
    split; [by apply elem_of_dom_2 in Ha|].
    apply elem_of_dom_2 in Hb. rewrite dom_insert_L in Hb.
    apply elem_of_union in Hb as [->%elem_of_singleton|Hb]; [|done].
    by apply elem_of_dom_2 in Ha.
  - intros [Ha Hb]. destruct (add_edge_spec a b adj Ha Hb) as (adj' & -> & _). by eexists.
Qed.

Lemma scan_step (flags : list string) (adj imp : gmap string (gset string))
    (c : constraint) :
  dom adj = list_to_set flags →
  (is_Some (scan_constraint (adj, imp) c) ↔ scan_constraint_wf flags c = true)
  ∧ ∀ adj' imp',
      scan_constraint (adj, imp) c = Some (adj', imp') →
      dom adj' = list_to_set flags
      ∧ (∀ x y, neighbour adj' x y
                ↔ neighbour adj x y
                  ∨ (type_upper c = Some "EQUIV"%string
                     ∧ ((c_a c = Some x ∧ c_b c = Some y)
                        ∨ (c_a c = Some y ∧ c_b c = Some x))))
      ∧ (∀ x y, neighbour imp' x y
                ↔ neighbour imp x y
                  ∨ (type_upper c = Some "IMPLIES"%string
                     ∧ c_a c = Some x ∧ c_b c = Some y)).
Proof.
  intros Hdom. rewrite scan_constraint_eq. unfold scan_constraint_wf.
  destruct (type_upper c) as [t|]; cbn [mbind option_bind];
    [|split; [split; [by intros ?%is_Some_None | done] | done]].
  destruct (String.eqb_spec t "EQUIV") as [->|Hne].
  { destruct (c_a c) as [a|], (c_b c) as [b|]; cbn [mbind option_bind];
      try (split; [split; [by intros ?%is_Some_None | done] | done]).
    assert (Hdecl : declared flags a && declared flags b = true
                    ↔ a ∈ dom adj ∧ b ∈ dom adj).
    { rewrite andb_true_iff, !declared_elem_of, Hdom, !elem_of_list_to_set. done. }
    split.
    - rewrite Hdecl, <- add_edge_is_Some.
      destruct (add_edge a b adj); cbn; [|done]. split; intros _; by eexists.
    - intros adj' imp'. destruct (add_edge a b adj) as [adj1|] eqn:Hadd; [|done].
      cbn. intros [= <- <-].
      destruct (proj1 (add_edge_is_Some a b adj)) as [Ha Hb]; [by eexists|].
      destruct (add_edge_spec a b adj Ha Hb) as (adj2 & Hadd2 & Hdom2 & Hnb2).
      rewrite Hadd in Hadd2. injection Hadd2 as <-.
      split; [congruence|]. split.
      + intros x y. rewrite Hnb2. split.
        * intros [?|[[-> ->]|[-> ->]]]; eauto 10.
        * intros [?|[_ [[[= ->] [= ->]]|[[= ->] [= ->]]]]]; eauto 10.
      + intros x y. split; [by left|]. by intros [?|[[=] _]]. }
  destruct (String.eqb_spec t "IMPLIES") as [->|Hni].
  { destruct (c_a c) as [a|], (c_b c) as [b|]; cbn [mbind option_bind];
      try (split; [split; [by intros ?%is_Some_None | done] | done]).
    split; [split; [done | by eexists]|].
    intros adj' imp' [= <- <-]. split; [done|]. split.
    - intros x y. split; [by left|]. by intros [?|[[=] _]].
    - intros x y. rewrite neighbour_insert. split.
      + intros [?|[-> ->]]; eauto 10.
      + intros [?|(_ & [= ->] & [= ->])]; eauto 10. }
  split; [split; [done | by eexists]|].
  intros adj' imp' [= <- <-]. split; [done|].
  split; intros x y; (split; [by left|]); intros [?|[[= ->] _]]; done.
Qed.

Lemma scan_loop (flags : list string) (cs : list constraint) :
  ∀ adj imp : gmap string (gset string),
    dom adj = list_to_set flags →
    (is_Some (for_each scan_constraint (adj, imp) cs)
     ↔ forallb (scan_constraint_wf flags) cs = true)
    ∧ ∀ adj' imp',
        for_each scan_constraint (adj, imp) cs = Some (adj', imp') →
        dom adj' = list_to_set flags
        ∧ (∀ x y, neighbour adj' x y ↔ neighbour adj x y ∨ equiv_edge cs x y)
        ∧ (∀ x y, neighbour imp' x y ↔ neighbour imp x y ∨ implies_edge cs x y).
Proof.
  induction cs as [|c cs IH]; intros adj imp Hdom.
  - split; [split; [done | by eexists]|]. intros adj' imp' [= <- <-]. split; [done|].
    split; intros x y; (split; [by left|]); intros [?|(c & Hc%elem_of_nil & _)]; done.
  - destruct (scan_step flags adj imp c Hdom) as [Hsome Hstep]. cbn [for_each forallb].
    destruct (scan_constraint (adj, imp) c) as [[adj1 imp1]|] eqn:Hc; cbn [mbind option_bind].
    + destruct (Hstep adj1 imp1 eq_refl) as (Hdom1 & Hadj1 & Himp1).
      destruct (IH adj1 imp1 Hdom1) as [Hsome' Hrest].
      rewrite (proj1 Hsome) by (by eexists). cbn. split; [done|].
      intros adj' imp' Hrun. destruct (Hrest adj' imp' Hrun) as (Hdom' & Hadj' & Himp').
      split; [done|]. split; intros x y.
      * rewrite Hadj', Hadj1, equiv_edge_cons. tauto.
      * rewrite Himp', Himp1, implies_edge_cons. tauto.
    + split; [|done]. split; [by intros ?%is_Some_None|].
      intros [Hwf _]%andb_prop. apply Hsome in Hwf. by apply is_Some_None in Hwf.
Qed.

Lemma link_step (imp adj : gmap string (gset string)) (a b : string) :
  (is_Some (link_mutual imp adj (a, b))
   ↔ (neighbour imp b a → a ∈ dom adj ∧ b ∈ dom adj))
  ∧ ∀ adj',
      link_mutual imp adj (a, b) = Some adj' →
      dom adj' = dom adj
      ∧ ∀ x y, neighbour adj' x y
               ↔ neighbour adj x y
                 ∨ (neighbour imp b a ∧ ((x = a ∧ y = b) ∨ (x = b ∧ y = a))).
Proof.
  rewrite link_mutual_eq. unfold neighbour at 1 4.
  destruct (imp !! b) as [s|] eqn:Hs; [destruct (decide (a ∈ s)) as [Has|Has]|].
  - split.
    + rewrite add_edge_is_Some. split; [done|]. intros Hd. apply Hd. by exists s.
    + intros adj' Hadd.
      destruct (proj1 (add_edge_is_Some a b adj)) as [Ha Hb]; [by eexists|].
      destruct (add_edge_spec a b adj Ha Hb) as (adj2 & Hadd2 & Hdom2 & Hnb2).
      rewrite Hadd in Hadd2. injection Hadd2 as <-. split; [done|].
      intros x y. rewrite Hnb2. split.
      * intros [?|?]; [by left|]. right. split; [by exists s | done].
      * intros [?|[_ ?]]; [by left | by right].
  - split.
    + split; [|by eexists]. intros _ (s' & [= <-] & ?). done.
    + intros adj' [= <-]. split; [done|]. intros x y. split; [by left|].
      intros [?|[(s' & [= <-] & ?) _]]; done.
  - split.
    + split; [|by eexists]. intros _ (s' & [=] & _).
    + intros adj' [= <-]. split; [done|]. intros x y. split; [by left|].
      intros [?|[(s' & [=] & _) _]]; done.
Qed.

Lemma link_loop (imp : gmap string (gset string)) (pairs : list (string * string)) :
  ∀ adj : gmap string (gset string),
    (is_Some (for_each (link_mutual imp) adj pairs)
     ↔ ∀ a b, (a, b) ∈ pairs → neighbour imp b a → a ∈ dom adj ∧ b ∈ dom adj)
    ∧ ∀ adj',
        for_each (link_mutual imp) adj pairs = Some adj' →
        dom adj' = dom adj
        ∧ ∀ x y, neighbour adj' x y
                 ↔ neighbour adj x y
                   ∨ ∃ a b, (a, b) ∈ pairs ∧ neighbour imp b a
                            ∧ ((x = a ∧ y = b) ∨ (x = b ∧ y = a)).
Proof.
  induction pairs as [|[a b] pairs IH]; intros adj.
  - split; [split; [by intros _ a b ?%elem_of_nil | by eexists]|].
    intros adj' [= <-]. split; [done|]. intros x y. split; [by left|].
    intros [?|(a & b & Hab%elem_of_nil & _)]; done.
  - destruct (link_step imp adj a b) as [Hsome Hstep]. cbn [for_each].
    destruct (link_mutual imp adj (a, b)) as [adj1|] eqn:Hl; cbn [mbind option_bind].
    + destruct (Hstep adj1 eq_refl) as [Hdom1 Hnb1].
      destruct (IH adj1) as [Hsome' Hrest]. split.
      * rewrite Hsome', Hdom1. split.
        -- intros Hall a' b' [[= -> ->]|Hin]%elem_of_cons; [|by apply Hall].
           apply Hsome. by eexists.
        -- intros Hall a' b' Hin. apply Hall. by right.
      * intros adj' Hrun. destruct (Hrest adj' Hrun) as [Hdom' Hnb'].
        split; [congruence|]. intros x y. rewrite Hnb', Hnb1. split.
        -- intros [[?|[Hm Hxy]]|(a' & b' & Hp & Hm & Hxy)]; [by left| |].
           ++ right. exists a, b. split; [by left | done].
           ++ right. exists a', b'. split; [by right | done].
        -- intros [?|(a' & b' & [[= -> ->]|Hp]%elem_of_cons & Hm & Hxy)]; [by left; left| |].
           ++ left. by right.
           ++ right. by exists a', b'.
    + split; [|done]. split; [by intros ?%is_Some_None|].
      intros Hall. exfalso. apply (is_Some_None (A:=gmap string (gset string))).
      apply Hsome. apply Hall. by left.
Qed.

(** X19: [scc_equivalence], and with it [compute_B_eff], returns exactly
    when every constraint has a tag, every EQUIV has [a] and [b] naming
    declared flags, every IMPLIES has [a] and [b], and two flags that
    imply each other are both declared. On any other model it raises
    [KeyError]; an IMPLIES on an undeclared flag that is not mutual does
    not. *)
Theorem compute_B_eff_returns_iff (iter : gset string → list string)
    (flags : list string) (cs : list constraint) :
  (∀ s, iter s ≡ₚ elements s) →
  (is_Some (scc_equivalence iter flags cs)
   ↔ forallb (scan_constraint_wf flags) cs = true ∧ mutual_implies_declared flags cs)
  ∧ (is_Some (compute_B_eff iter flags cs) ↔ is_Some (scc_equivalence iter flags cs)).
Proof.
  intros Hiter. split.
  2: { unfold compute_B_eff. destruct (scc_equivalence iter flags cs); cbn; [|done].
       split; intros _; by eexists. }
  destruct (initial_adjacency flags) as [Hdom0 Hnb0].
  destruct (scan_loop flags cs _ ∅ Hdom0) as [Hscan Hscan'].
  unfold scc_equivalence.
  destruct (for_each scan_constraint _ cs) as [[adj1 imp]|] eqn:Hrun; cbn [mbind option_bind].
  2: { split; [by intros ?%is_Some_None|]. intros [Hwf%Hscan _]. by apply is_Some_None in Hwf. }
  destruct (Hscan' adj1 imp eq_refl) as (Hdom1 & Hadj1 & Himp).
  assert (Himp' : ∀ x y, neighbour imp x y ↔ implies_edge cs x y).
  { intros x y. rewrite Himp. split; [|by right].
    intros [(s & Hs & _)|?]; [by rewrite lookup_empty in Hs | done]. }
  assert (Hmut : mutual_implies_declared flags cs
                 ↔ ∀ a b, (a, b) ∈ implies_pairs iter imp → neighbour imp b a →
                           a ∈ dom adj1 ∧ b ∈ dom adj1).
  { unfold mutual_implies_declared. split.
    - intros Hm a b Hab%(elem_of_implies_pairs iter Hiter) Hba.
      rewrite Hdom1, !elem_of_list_to_set. apply Hm; by apply Himp'.
    - intros Hm a b Hab%Himp' Hba%Himp'.
      rewrite <- !(elem_of_list_to_set (C:=gset string)), <- Hdom1.
      apply Hm; [by apply (elem_of_implies_pairs iter Hiter) | done]. }
  destruct (link_loop imp (implies_pairs iter imp) adj1) as [Hlink Hlink'].
  rewrite Hmut, <- Hlink.
  destruct (for_each (link_mutual imp) adj1 _) as [adj|] eqn:Hrun2; cbn [mbind option_bind].
  2: { split; [by intros ?%is_Some_None | by intros [_ ?%is_Some_None]]. }
  destruct (Hlink' adj eq_refl) as [Hdom Hnb].
  assert (Hedge : ∀ x y, neighbour adj x y ↔ edge cs x y).
  { intros x y. rewrite Hnb, Hadj1. unfold edge. split.
    - intros [[?|?]|(a & b & Hab%(elem_of_implies_pairs iter Hiter) & Hba & Hxy)].
      + by destruct (Hnb0 x y).
      + by left.
      + apply Himp' in Hab, Hba. right. by destruct Hxy as [[-> ->]|[-> ->]].
    - intros [?|[Hxy Hyx]]; [by left; right|]. right. exists x, y.
      split; [by apply (elem_of_implies_pairs iter Hiter), Himp'|].
      split; [by apply Himp' | by left]. }
  assert (Hsym : ∀ x y, neighbour adj x y → neighbour adj y x).
  { intros x y. rewrite !Hedge. apply edge_sym. }
  destruct (components_spec iter Hiter adj flags) with (fs := flags) (seen := ∅ : gset string)
    (comps := [] : list (gset string)) as (comps & -> & _).
  - intros x y Hxy. apply Hsym in Hxy as (s & Hs & _). by apply elem_of_dom_2 in Hs.
  - done.
  - intros f Hf. rewrite Hdom, Hdom1. by apply elem_of_list_to_set.
  - done.
  - intros x. split; [by intros ?%elem_of_empty|]. by intros (C & ?%elem_of_nil & _).
  - by intros x y ?%elem_of_empty.
  - by intros C ?%elem_of_nil.
  - by intros i j C C' ?.
  - split; [intros _ | intros _; by eexists].
    split; [apply Hscan | ]; by eexists.
Qed.

Lemma compute_B_eff_returns_iff_witness :
  (is_Some (scc_equivalence elements ["a"] [IMPLIES "a" "zz"])
   ↔ forallb (scan_constraint_wf ["a"]) [IMPLIES "a" "zz"] = true
     ∧ mutual_implies_declared ["a"] [IMPLIES "a" "zz"])
  ∧ (is_Some (compute_B_eff elements ["a"] [IMPLIES "a" "zz"])
     ↔ is_Some (scc_equivalence elements ["a"] [IMPLIES "a" "zz"])).
Proof.
  apply (compute_B_eff_returns_iff elements ["a"]%string [IMPLIES "a" "zz"]).
  intros s. reflexivity.
Defined.

(** ** ONEOF with a flag listed twice *)

(** X20: a ONEOF that lists the same declared flag twice is read
    differently by the two sides. The enumerator counts the flag twice and
    rejects every mask. The emitted predicate adds [1 << p] twice, so its
    constant is [2^(p+1)], and it holds exactly when the bit above the
    flag's own is set. *)
Theorem oneof_repeated_flag (flags : list string) (a : string) (mask : Z) :
  a ∈ flags →
  ∃ p, bitpos_map flags !! a = Some p
       ∧ check_constraint (bitpos_map flags) mask (ONEOF [a; a]) = Some false
       ∧ maskbits_of (bitpos_map flags) [a; a] = Some (2 ^ (p + 1))
       ∧ ∀ n : nat, p + 1 < Z.of_nat n →
           (popcount_below n (Z.land mask (2 ^ (p + 1))) =? 1) = Z.testbit mask (p + 1).
Proof.
  intros [p Hp]%bitpos_map_declared. exists p.
  destruct (bitpos_map_range _ _ _ Hp) as [Hr _].
  split; [done|]. split; [|split].
  - unfold check_constraint. cbn. rewrite Hp. cbn. rewrite bit_testbit.
    by destruct (Z.testbit mask p).
  - unfold maskbits_of. cbn. rewrite Hp. cbn. f_equal.
    rewrite Z.shiftl_1_l, Z.pow_add_r by lia. lia.
  - intros n Hn. rewrite <- Z.shiftl_1_l, popcount_below_single by lia.
    by destruct (Z.testbit mask (p + 1)).
Qed.

Lemma oneof_repeated_flag_witness :
  ∃ p, bitpos_map ["a"; "b"]%string !! "a"%string = Some p
       ∧ check_constraint (bitpos_map ["a"; "b"]%string) 2 (ONEOF ["a"; "a"]%string)
         = Some false
       ∧ maskbits_of (bitpos_map ["a"; "b"]%string) ["a"; "a"]%string = Some (2 ^ (p + 1))
       ∧ ∀ n : nat, p + 1 < Z.of_nat n →
           (popcount_below n (Z.land 2 (2 ^ (p + 1))) =? 1) = Z.testbit 2 (p + 1).
Proof.
  apply (oneof_repeated_flag ["a"; "b"]%string "a"%string 2). by left.
Defined.
